(** * layout.py: bleed synthesis, line rasterisation and imposition layout

    A shallow embedding of the geometric core of [layout.py] and the
    properties its specification states about it.

    Conventions of the embedding.
    - Python [int] is [Z]; [//] is floor division ([Z.div]) and raises
      [ZeroDivisionError] on a zero divisor.
    - Python [float] is modelled by exact rationals [Q]: every property
      below is a property of the arithmetic the code writes down, not of
      its rounding.  Equality of floats is [Qeq] ([==]).
    - [int(math.sqrt(n))] is [Z.sqrt n] (exact for the copy counts a
      page can hold) and raises [ValueError] on a negative argument.
    - A [while True] loop is a [Fixpoint] on a fuel argument that yields
      [OutOfFuel] when the fuel runs out; termination is proved separately.
    - Exceptions are the [Raise] outcome of a small error monad. *)

From Stdlib Require Import ZArith QArith Qminmax List String Bool Lia Lqa Psatz.
Import ListNotations.

(* ================================================================== *)
(** * Python runtime: exceptions and integer ranges                     *)
(* ================================================================== *)

Module Py.

Inductive PyError : Type :=
| ValueError
| ZeroDivisionError
| IndexError.

(** What running a piece of code produces: a value, an exception, or
    no answer within the fuel given to its loops. *)
Inductive Outcome (A : Type) : Type :=
| Ok (a : A)
| Raise (e : PyError)
| OutOfFuel.

Arguments Ok {A} a.
Arguments Raise {A} e.
Arguments OutOfFuel {A}.

Definition bind {A B : Type} (m : Outcome A) (k : A -> Outcome B) : Outcome B :=
  match m with
  | Ok a => k a
  | Raise e => Raise e
  | OutOfFuel => OutOfFuel
  end.

(** [range(lo, hi)] *)
Definition range2 (lo hi : Z) : list Z :=
  map (fun k => lo + Z.of_nat k)%Z (seq 0 (Z.to_nat (hi - lo))).

(** [range(n)] *)
Definition range (n : Z) : list Z := range2 0 n.

(** [a // b] on integers *)
Definition floordiv (a b : Z) : Outcome Z :=
  if (b =? 0)%Z then Raise ZeroDivisionError else Ok (a / b)%Z.

(** [a / b] on floats *)
Definition truediv (a b : Q) : Outcome Q :=
  if Qeq_bool b 0 then Raise ZeroDivisionError else Ok (a / b)%Q.

(** [int(math.sqrt(n))] *)
Definition int_sqrt (n : Z) : Outcome Z :=
  if (n <? 0)%Z then Raise ValueError else Ok (Z.sqrt n).

(** [a < b] on floats *)
Definition Qltb (a b : Q) : bool :=
  match (a ?= b)%Q with Lt => true | _ => false end.

(** [min(a, b)]: the first argument unless the second is smaller *)
Definition min (a b : Q) : Q := if Qltb b a then b else a.

End Py.

Import Py.

Declare Scope py_scope.
Notation "x <- m ;; k" := (Py.bind m (fun x => k))
  (at level 61, m at next level, right associativity) : py_scope.
Notation "' ( x , y ) <- m ;; k" := (Py.bind m (fun '(x, y) => k))
  (at level 61, x name, y name, m at next level, right associativity) : py_scope.

(* ================================================================== *)
(** * Imposition: [_calculate_layout]                                   *)
(* ================================================================== *)

Module Layout.

Local Open Scope py_scope.

(** The tuple [(cols, rows, scaled_width, scaled_height,
    image_positions)] that [_calculate_layout] returns. *)
Record LayoutPlan : Type := mkPlan {
  cols : Z;
  rows : Z;
  scaled_width : Q;
  scaled_height : Q;
  image_positions : list (Q * Q)
}.

(** The [while True] loop of the grid search, as a function of the
    loop variables [rows] and [cols]. *)
Fixpoint grid_loop (fuel : nat) (num_copies rows cols : Z) : Outcome (Z * Z) :=
  match fuel with
  | O => OutOfFuel
  | S fuel' =>
      let temp_cols := (cols + 1)%Z in
      temp_rows <- floordiv (num_copies + temp_cols - 1) temp_cols ;;
      if (temp_rows <? rows)%Z
      then grid_loop fuel' num_copies temp_rows temp_cols
      else Ok (rows, cols)
  end.

(** Lines 213-222: the initial guess followed by the loop. *)
Definition grid_search (fuel : nat) (num_copies : Z) : Outcome (Z * Z) :=
  cols <- int_sqrt num_copies ;;
  rows <- floordiv (num_copies + cols - 1) cols ;;
  grid_loop fuel num_copies rows cols.

(** Fuel that lets the loop finish for [num_copies >= 1] copies: the
    row count it starts from. *)
Definition grid_fuel (num_copies : Z) : nat :=
  Z.to_nat ((num_copies + Z.sqrt num_copies - 1) / Z.sqrt num_copies).

(** Lines 224-227: the uniform scale factor. *)
Definition scale_factor (image_width_mm image_height_mm page_width page_height : Q)
           (rows cols : Z) (margin spacing : Q) : Outcome Q :=
  let available_width := (page_width - 2 * margin)%Q in
  let available_height := (page_height - 2 * margin)%Q in
  max_width <- truediv (available_width - inject_Z (cols - 1) * spacing) (inject_Z cols) ;;
  max_height <- truediv (available_height - inject_Z (rows - 1) * spacing) (inject_Z rows) ;;
  w_ratio <- truediv max_width image_width_mm ;;
  h_ratio <- truediv max_height image_height_mm ;;
  Ok (Py.min w_ratio h_ratio).

(** The value of the local variable [scale] at line 227. *)
Definition layout_scale (fuel : nat)
           (image_width_mm image_height_mm page_width page_height : Q)
           (num_copies : Z) (margin spacing : Q) : Outcome Q :=
  '(rows, cols) <- grid_search fuel num_copies ;;
  scale_factor image_width_mm image_height_mm page_width page_height
               rows cols margin spacing.

(** Lines 230-236: the two nested [for] loops that append the origins. *)
Definition place (page_height margin spacing scaled_width scaled_height : Q)
           (row col : Z) : Q * Q :=
  ((margin + inject_Z col * (scaled_width + spacing))%Q,
   (page_height - margin - inject_Z (row + 1) * (scaled_height + spacing))%Q).

Definition positions_loop (page_height margin spacing scaled_width scaled_height : Q)
           (num_copies rows cols : Z) : list (Q * Q) :=
  fold_left
    (fun image_positions row =>
       fold_left
         (fun image_positions col =>
            if (row * cols + col <? num_copies)%Z
            then image_positions ++
                 [place page_height margin spacing scaled_width scaled_height row col]
            else image_positions)
         (range cols) image_positions)
    (range rows) [].

Definition _calculate_layout (fuel : nat)
           (image_width_mm image_height_mm page_width page_height : Q)
           (num_copies : Z) (margin spacing : Q) : Outcome LayoutPlan :=
  '(rows, cols) <- grid_search fuel num_copies ;;
  scale <- scale_factor image_width_mm image_height_mm page_width page_height
                        rows cols margin spacing ;;
  let scaled_width := (image_width_mm * scale)%Q in
  let scaled_height := (image_height_mm * scale)%Q in
  Ok (mkPlan cols rows scaled_width scaled_height
             (positions_loop page_height margin spacing scaled_width scaled_height
                             num_copies rows cols)).

End Layout.

Import Layout.

(* ================================================================== *)
(** * The imaging library: rasters and the operations the code calls    *)
(* ================================================================== *)

(** The operations of Pillow that [layout.py] calls, on RGB rasters, as
    Pillow documents them: [crop] pads with black outside the source and
    refuses a box whose right (lower) edge precedes its left (upper)
    edge; [paste] and [ImageDraw.point] clip to the destination;
    [getpixel] wraps a negative index once and raises [IndexError]
    outside the raster. *)
Module PIL.

Local Open Scope Z_scope.
Local Open Scope py_scope.

Definition RGB : Type := Z * Z * Z.

Definition white : RGB := (255, 255, 255).
Definition black : RGB := (0, 0, 0).

Record Image : Type := mkImage {
  width : Z;
  height : Z;
  pixel : Z -> Z -> RGB   (* meaningful on [0, width) x [0, height) *)
}.

(** [0 <= x < w and 0 <= y < h] *)
Definition within (x y w h : Z) : bool :=
  (0 <=? x) && (x <? w) && (0 <=? y) && (y <? h).

(** [Image.new("RGB", (w, h), "white")] *)
Definition new_white (w h : Z) : Outcome Image :=
  if (w <? 0) || (h <? 0) then Raise ValueError
  else Ok (mkImage w h (fun _ _ => white)).

(** [img.getpixel((x, y))] *)
Definition getpixel (img : Image) (xy : Z * Z) : Outcome RGB :=
  let '(x, y) := xy in
  let x := if x <? 0 then width img + x else x in
  let y := if y <? 0 then height img + y else y in
  if within x y (width img) (height img) then Ok (pixel img x y)
  else Raise IndexError.

(** [img.crop((left, upper, right, lower))] *)
Definition crop (img : Image) (box : Z * Z * Z * Z) : Outcome Image :=
  let '(x0, y0, x1, y1) := box in
  if (x1 <? x0) || (y1 <? y0) then Raise ValueError
  else Ok (mkImage (x1 - x0) (y1 - y0)
             (fun x y =>
                if within (x + x0) (y + y0) (width img) (height img)
                then pixel img (x + x0) (y + y0)
                else black)).

Inductive Transpose : Type := FLIP_LEFT_RIGHT | FLIP_TOP_BOTTOM.

(** [img.transpose(method)] *)
Definition transpose (img : Image) (method : Transpose) : Image :=
  match method with
  | FLIP_LEFT_RIGHT =>
      mkImage (width img) (height img) (fun x y => pixel img (width img - 1 - x) y)
  | FLIP_TOP_BOTTOM =>
      mkImage (width img) (height img) (fun x y => pixel img x (height img - 1 - y))
  end.

(** [new_img.paste(im, (x0, y0))]: the raster [new_img] afterwards *)
Definition paste (new_img im : Image) (at_ : Z * Z) : Image :=
  let '(x0, y0) := at_ in
  mkImage (width new_img) (height new_img)
    (fun x y =>
       if within (x - x0) (y - y0) (width im) (height im)
          && within x y (width new_img) (height new_img)
       then pixel im (x - x0) (y - y0)
       else pixel new_img x y).

(** The raster after [draw.point((x, y), fill=c)] *)
Definition put_point (img : Image) (xy : Z * Z) (c : RGB) : Image :=
  let '(x0, y0) := xy in
  mkImage (width img) (height img)
    (fun x y =>
       if (x =? x0) && (y =? y0) && within x y (width img) (height img)
       then c else pixel img x y).

(** An [ImageDraw] object: the raster it draws on ([draw._image]) and,
    as ghost state, the [draw.point] calls made through it, oldest
    first. *)
Record ImageDraw : Type := mkDraw {
  _image : Image;
  point_calls : list (Z * Z * RGB)
}.

(** [ImageDraw.Draw(img)] *)
Definition Draw (img : Image) : ImageDraw := mkDraw img [].

End PIL.

Import PIL.

(* ================================================================== *)
(** * Bleed: [_create_new_image_with_bleed]                             *)
(* ================================================================== *)

Module Bleed.

Local Open Scope Z_scope.
Local Open Scope py_scope.
Local Open Scope string_scope.

(** One iteration of the [for i in range(bleed_size)] loop of
    [_add_repeat_bleed]: the eight pastes of lines 76-84. *)
Definition repeat_step (img : Image) (width height bleed_size : Z)
           (new_img : Image) (i : Z) : Outcome Image :=
  s <- crop img (0, 0, 1, height) ;;
  let new_img := paste new_img s (bleed_size - i - 1, bleed_size) in
  s <- crop img (width - 1, 0, width, height) ;;
  let new_img := paste new_img s (bleed_size + width + i, bleed_size) in
  s <- crop img (0, 0, width, 1) ;;
  let new_img := paste new_img s (bleed_size, bleed_size - i - 1) in
  s <- crop img (0, height - 1, width, height) ;;
  let new_img := paste new_img s (bleed_size, bleed_size + height + i) in
  s <- crop img (0, 0, 1, 1) ;;
  let new_img := paste new_img s (bleed_size - i - 1, bleed_size - i - 1) in
  s <- crop img (width - 1, 0, width, 1) ;;
  let new_img := paste new_img s (bleed_size + width + i, bleed_size - i - 1) in
  s <- crop img (0, height - 1, 1, height) ;;
  let new_img := paste new_img s (bleed_size - i - 1, bleed_size + height + i) in
  s <- crop img (width - 1, height - 1, width, height) ;;
  let new_img := paste new_img s (bleed_size + width + i, bleed_size + height + i) in
  Ok new_img.

(** A [for] loop whose body may raise, threading the raster. *)
Fixpoint for_each (body : Image -> Z -> Outcome Image) (l : list Z) (new_img : Image)
  : Outcome Image :=
  match l with
  | [] => Ok new_img
  | i :: l' => new_img' <- body new_img i ;; for_each body l' new_img'
  end.

Definition _add_repeat_bleed (new_img img : Image) (width height bleed_size : Z)
  : Outcome Image :=
  for_each (repeat_step img width height bleed_size) (range bleed_size) new_img.

Definition _add_mirror_bleed (new_img img : Image) (width height bleed_size : Z)
  : Outcome Image :=
  s <- crop img (0, 0, bleed_size, height) ;;
  let new_img := paste new_img (transpose s FLIP_LEFT_RIGHT) (0, bleed_size) in
  s <- crop img (width - bleed_size, 0, width, height) ;;
  let new_img := paste new_img (transpose s FLIP_LEFT_RIGHT)
                       (width + bleed_size, bleed_size) in
  s <- crop img (0, 0, width, bleed_size) ;;
  let new_img := paste new_img (transpose s FLIP_TOP_BOTTOM) (bleed_size, 0) in
  s <- crop img (0, height - bleed_size, width, height) ;;
  let new_img := paste new_img (transpose s FLIP_TOP_BOTTOM)
                       (bleed_size, height + bleed_size) in
  Ok new_img.

Definition _create_new_image_with_bleed (img : Image) (width height bleed_size : Z)
           (bleed_mode : string) : Outcome (Image * Z * Z) :=
  let new_width := width + 2 * bleed_size in
  let new_height := height + 2 * bleed_size in
  new_img <- new_white new_width new_height ;;
  let new_img := paste new_img img (bleed_size, bleed_size) in
  new_img <-
    (if String.eqb bleed_mode "repeat"
     then _add_repeat_bleed new_img img width height bleed_size
     else if String.eqb bleed_mode "mirror"
     then _add_mirror_bleed new_img img width height bleed_size
     else Raise ValueError) ;;
  Ok (new_img, new_width, new_height).

End Bleed.

Import Bleed.

(* ================================================================== *)
(** * Marks: [_draw_line]                                               *)
(* ================================================================== *)

Module Line.

Local Open Scope Z_scope.

(** The [color] argument: ['inverted'] (in any case), or a colour
    that Pillow resolves to a fixed RGB value. *)
Inductive Color : Type :=
| Inverted
| Fixed (c : RGB).

(** Code that draws: it may raise, and it changes the [ImageDraw]
    object either way. *)
Definition DrawM (A : Type) : Type := ImageDraw -> Outcome A * ImageDraw.

Definition ret {A : Type} (a : A) : DrawM A := fun d => (Ok a, d).

Definition bind {A B : Type} (m : DrawM A) (k : A -> DrawM B) : DrawM B :=
  fun d =>
    match m d with
    | (Ok a, d') => k a d'
    | (Raise e, d') => (Raise e, d')
    | (OutOfFuel, d') => (OutOfFuel, d')
    end.

Definition lift {A : Type} (o : Outcome A) : DrawM A := fun d => (o, d).

(** [draw.point((x, y), fill=c)] *)
Definition point (xy : Z * Z) (fill : RGB) : DrawM unit :=
  fun d => (Ok tt, mkDraw (put_point (_image d) xy fill)
                          (point_calls d ++ [(fst xy, snd xy, fill)])).

(** [for i in l: body(i)] *)
Fixpoint for_in (l : list Z) (body : Z -> DrawM unit) : DrawM unit :=
  match l with
  | [] => ret tt
  | i :: l' => bind (body i) (fun _ => for_in l' body)
  end.

Section DrawLine.

Variable temp_img : Image.
Variables x2 y2 image_width image_height : Z.
Variable color : Color.
Variable width : Z.
Variables dx dy sx sy : Z.

(** Lines 130-134 *)
Definition chosen_color (px py : Z) : DrawM RGB :=
  match color with
  | Inverted =>
      bind (lift (getpixel temp_img (px, py)))
           (fun '(r, g, b) => ret (255 - r, 255 - g, 255 - b))
  | Fixed c => ret c
  end.

(** Lines 125-135: the stamp of side [width] around [(x1, y1)] *)
Definition stamp (x1 y1 : Z) : DrawM unit :=
  for_in (range2 (- (width / 2)) ((width + 1) / 2)) (fun i =>
    for_in (range2 (- (width / 2)) ((width + 1) / 2)) (fun j =>
      let px := x1 + i in
      let py := y1 + j in
      if within px py image_width image_height
      then bind (chosen_color px py) (fun c => point (px, py) c)
      else ret tt)).

(** Lines 124-135: one visit of the loop to [(x1, y1)] *)
Definition visit (x1 y1 : Z) : DrawM unit :=
  if within x1 y1 image_width image_height then stamp x1 y1 else ret tt.

(** Lines 138-144: the error update and the step *)
Definition advance (x1 y1 : Z) (err : Q) : Z * Z * Q :=
  let e2 := err in
  let '(err, x1) :=
    if Qltb (- inject_Z dx) e2 then ((err - inject_Z dy)%Q, x1 + sx) else (err, x1) in
  let '(err, y1) :=
    if Qltb e2 (inject_Z dy) then ((err + inject_Z dx)%Q, y1 + sy) else (err, y1) in
  (x1, y1, err).

(** Lines 123-144: the [while True] loop *)
Fixpoint line_loop (fuel : nat) (x1 y1 : Z) (err : Q) : DrawM unit :=
  match fuel with
  | O => lift OutOfFuel
  | S fuel' =>
      bind (visit x1 y1) (fun _ =>
        if (x1 =? x2) && (y1 =? y2) then ret tt
        else let '(x1', y1', err') := advance x1 y1 err in
             line_loop fuel' x1' y1' err')
  end.

(** The coordinates the loop visits in its first [fuel] iterations
    (a reading of the same loop that forgets the drawing). *)
Fixpoint centres (fuel : nat) (x1 y1 : Z) (err : Q) : list (Z * Z) :=
  match fuel with
  | O => []
  | S fuel' =>
      (x1, y1) ::
      (if (x1 =? x2) && (y1 =? y2) then []
       else let '(x1', y1', err') := advance x1 y1 err in
            centres fuel' x1' y1' err')
  end.

End DrawLine.

Definition _draw_line (fuel : nat) (draw : ImageDraw) (x1 y1 x2 y2 : Z)
           (image_width image_height : Z) (color : Color) (width : Z)
  : Outcome unit * ImageDraw :=
  let dx := Z.abs (x2 - x1) in
  let dy := Z.abs (y2 - y1) in
  let sx := if x1 <? x2 then 1 else -1 in
  let sy := if y1 <? y2 then 1 else -1 in
  let err := (inject_Z (if dx >? dy then dx else - dy) / 2)%Q in
  let temp_img := _image draw in
  line_loop temp_img x2 y2 image_width image_height color width dx dy sx sy
            fuel x1 y1 err draw.

(** Fuel that lets the loop finish: one visit more than the longer of
    the two axis distances. *)
Definition line_fuel (x1 y1 x2 y2 : Z) : nat :=
  S (Z.to_nat (Z.max (Z.abs (x2 - x1)) (Z.abs (y2 - y1)))).

(** The coordinates [_draw_line] steps through. *)
Definition line_centres (fuel : nat) (x1 y1 x2 y2 : Z) : list (Z * Z) :=
  let dx := Z.abs (x2 - x1) in
  let dy := Z.abs (y2 - y1) in
  let sx := if x1 <? x2 then 1 else -1 in
  let sy := if y1 <? y2 then 1 else -1 in
  let err := (inject_Z (if dx >? dy then dx else - dy) / 2)%Q in
  centres x2 y2 dx dy sx sy fuel x1 y1 err.

End Line.

Import Line.

(** Rasters for the concrete runs below: a white one, and one whose
    pixels tell their own coordinates. *)
Definition white_image (w h : Z) : Image := mkImage w h (fun _ _ => white).

Definition coordinate_image (w h : Z) : Image := mkImage w h (fun x y => (x, y, 7)%Z).

(* ================================================================== *)
(** * The vocabulary of the specification                               *)
(* ================================================================== *)

(** The grid search as the specification words it, to be compared with
    [grid_search]. *)
Module GridSpec.

Local Open Scope Z_scope.

(** [ceil(n / c)]: the ceiling through the floor of the negation *)
Definition ceil_div (n c : Z) : Z := - ((- n) / c).

(** From [(rows, columns)], try [columns + 1]: adopt it when that
    strictly lowers the row count, stop at the first step that does
    not. *)
Inductive search (copy_count : Z) : Z -> Z -> Z -> Z -> Prop :=
| search_stop rows columns :
    ~ ceil_div copy_count (columns + 1) < rows ->
    search copy_count rows columns rows columns
| search_adopt rows columns rows' columns' :
    ceil_div copy_count (columns + 1) < rows ->
    search copy_count (ceil_div copy_count (columns + 1)) (columns + 1) rows' columns' ->
    search copy_count rows columns rows' columns'.

Definition grid (copy_count rows columns : Z) : Prop :=
  search copy_count (ceil_div copy_count (Z.sqrt copy_count)) (Z.sqrt copy_count)
         rows columns.

End GridSpec.

(** The scale as the specification words it. *)
Module ScaleSpec.

Local Open Scope Q_scope.

(** [(available_page_axis - (count_along_axis - 1) * spacing) /
    count_along_axis] *)
Definition cell_axis (page_axis margin : Q) (count_along_axis : Z) (spacing : Q) : Q :=
  let available_page_axis := page_axis - 2 * margin in
  (available_page_axis - inject_Z (count_along_axis - 1) * spacing)
  / inject_Z count_along_axis.

(** [min(cell_width / image_width_mm, cell_height / image_height_mm)] *)
Definition scale (image_width_mm image_height_mm page_width page_height : Q)
           (rows columns : Z) (margin spacing : Q) : Q :=
  Qmin (cell_axis page_width margin columns spacing / image_width_mm)
       (cell_axis page_height margin rows spacing / image_height_mm).

End ScaleSpec.

(** Where the copies lie on the page. *)
Module Geometry.

Local Open Scope Q_scope.

(** The rectangle of size [w] x [h] with bottom-left origin [p] lies
    within the page shrunk by [margin] on all four sides. *)
Definition inside_margins (page_width page_height margin w h : Q) (p : Q * Q) : Prop :=
  margin <= fst p /\ fst p + w <= page_width - margin /\
  margin <= snd p /\ snd p + h <= page_height - margin.

(** The same without the bottom side. *)
Definition inside_left_right_top (page_width page_height margin w h : Q) (p : Q * Q)
  : Prop :=
  margin <= fst p /\ fst p + w <= page_width - margin /\
  snd p + h <= page_height - margin.

(** The two regions drawn from the origins [p] and [q] with the size
    [w] x [h] share interior points.  The region of an origin runs from
    the origin to the origin plus the size along each axis, whatever the
    sign of the size. *)
Definition overlap (w h : Q) (p q : Q * Q) : Prop :=
  Qmin (fst p) (fst p + w) < Qmax (fst q) (fst q + w) /\
  Qmin (fst q) (fst q + w) < Qmax (fst p) (fst p + w) /\
  Qmin (snd p) (snd p + h) < Qmax (snd q) (snd q + h) /\
  Qmin (snd q) (snd q + h) < Qmax (snd p) (snd p + h).

End Geometry.

(** What a run of drawing code did to the [ImageDraw] object. *)
Module Trace.

Local Open Scope Z_scope.

(** The raster under construction by the bleed synthesiser has the
    size it was created with. *)
Definition sized (w h bleed_size : Z) (new_img : Image) : Prop :=
  PIL.width new_img = w + 2 * bleed_size /\ PIL.height new_img = h + 2 * bleed_size.

(** The raster after a sequence of [draw.point] calls. *)
Definition paint (img : Image) (calls : list (Z * Z * RGB)) : Image :=
  fold_left (fun im '(px, py, c) => put_point im (px, py) c) calls img.

(** From [d] to [d'] the code made the calls [new], each of which
    satisfies [J], and nothing else. *)
Definition extends (J : Z * Z * RGB -> Prop) (d d' : ImageDraw) : Prop :=
  exists new,
    point_calls d' = point_calls d ++ new /\
    Forall J new /\
    _image d' = paint (_image d) new.

(** The offsets [range(-(width // 2), (width + 1) // 2)] of a stamp. *)
Definition in_stamp (width centre p : Z) : Prop :=
  - (width / 2) <= p - centre < (width + 1) / 2.

(** The colour the code paints at [(px, py)]. *)
Definition colour_of (temp_img : Image) (color : Color) (px py : Z) (c : RGB) : Prop :=
  match color with
  | Inverted =>
      exists r g b,
        getpixel temp_img (px, py) = Ok (r, g, b) /\ c = (255 - r, 255 - g, 255 - b)
  | Fixed c0 => c = c0
  end.

(** A call is accounted for by the centres [C]: it is inside the
    buffer, it belongs to the stamp of a centre of [C] that is itself
    inside the buffer, and its colour is the one the code chooses. *)
Definition justified (temp_img : Image) (image_width image_height : Z)
           (color : Color) (width : Z) (C : list (Z * Z)) (call : Z * Z * RGB) : Prop :=
  let '(px, py, c) := call in
  within px py image_width image_height = true /\
  colour_of temp_img color px py c /\
  exists cx cy,
    In (cx, cy) C /\ within cx cy image_width image_height = true /\
    in_stamp width cx px /\ in_stamp width cy py.

End Trace.

Import Trace.

(* ================================================================== *)
(** * Marks: [_draw_bleed_crop_marks]                                   *)
(* ================================================================== *)

Module Marks.

Local Open Scope Z_scope.

(** [_draw_line(draw, ...)] as a step of drawing code *)
Definition line (fuel : nat) (x1 y1 x2 y2 image_width image_height : Z)
           (color : Color) (width : Z) : DrawM unit :=
  fun draw => _draw_line fuel draw x1 y1 x2 y2 image_width image_height color width.

(** One statement after the other. *)
Definition and_then (m k : DrawM unit) : DrawM unit := Line.bind m (fun _ => k).

(** Lines 147-174: the twelve marks, in the order of the source. *)
Definition _draw_bleed_crop_marks (fuel : nat) (draw : ImageDraw)
           (image_width image_height bleed_size crop_mark_length cut_mark_length : Z)
           (crop_mark_color : Color) : Outcome unit * ImageDraw :=
  let mark x1 y1 x2 y2 :=
    line fuel x1 y1 x2 y2 image_width image_height crop_mark_color 2 in
  (and_then (mark (bleed_size - crop_mark_length) bleed_size bleed_size bleed_size)
  (and_then (mark bleed_size (bleed_size - crop_mark_length) bleed_size bleed_size)
  (and_then (mark (image_width - bleed_size) (bleed_size - crop_mark_length)
             (image_width - bleed_size) bleed_size)
  (and_then (mark (image_width - bleed_size) bleed_size
             (image_width - bleed_size + crop_mark_length) bleed_size)
  (and_then (mark (bleed_size - crop_mark_length) (image_height - bleed_size)
             bleed_size (image_height - bleed_size))
  (and_then (mark bleed_size (image_height - bleed_size)
             bleed_size (image_height - bleed_size + crop_mark_length))
  (and_then (mark (image_width - bleed_size) (image_height - bleed_size)
             (image_width - bleed_size + crop_mark_length) (image_height - bleed_size))
  (and_then (mark (image_width - bleed_size) (image_height - bleed_size)
             (image_width - bleed_size) (image_height - bleed_size + crop_mark_length))
  (and_then (mark (image_width / 2 - cut_mark_length / 2) bleed_size
             (image_width / 2 + cut_mark_length / 2) bleed_size)
  (and_then (mark (image_width / 2 - cut_mark_length / 2) (image_height - bleed_size)
             (image_width / 2 + cut_mark_length / 2) (image_height - bleed_size))
  (and_then (mark bleed_size (image_height / 2 - cut_mark_length / 2)
             bleed_size (image_height / 2 + cut_mark_length / 2))
       (mark (image_width - bleed_size) (image_height / 2 - cut_mark_length / 2)
             (image_width - bleed_size) (image_height / 2 + cut_mark_length / 2))
  ))))))))))) draw.

(** Fuel that lets every one of the twelve lines finish. *)
Definition marks_fuel (crop_mark_length cut_mark_length : Z) : nat :=
  S (Z.to_nat (Z.max (Z.abs crop_mark_length) (Z.abs (2 * (cut_mark_length / 2))))).

(** The four bands, two pixels wide, along the trim lines of a raster
    of size [image_width] x [image_height] with bleed [bleed_size]. *)
Definition on_trim_band (image_width image_height bleed_size px py : Z) : Prop :=
  px = bleed_size - 1 \/ px = bleed_size \/
  px = image_width - bleed_size - 1 \/ px = image_width - bleed_size \/
  py = bleed_size - 1 \/ py = bleed_size \/
  py = image_height - bleed_size - 1 \/ py = image_height - bleed_size.

End Marks.

(** The calls of a stamp and of a line, written out. *)
Module Stamp.

Local Open Scope Z_scope.

(** The pixels of the stamp of side [width] around a centre that the
    code paints, in the order it paints them: none when the centre is
    outside the buffer. *)
Definition cells (image_width image_height width : Z) (centre : Z * Z) : list (Z * Z) :=
  let '(x1, y1) := centre in
  if within x1 y1 image_width image_height
  then flat_map (fun i =>
         flat_map (fun j =>
           if within (x1 + i) (y1 + j) image_width image_height
           then [(x1 + i, y1 + j)] else [])
           (range2 (- (width / 2)) ((width + 1) / 2)))
         (range2 (- (width / 2)) ((width + 1) / 2))
  else [].

(** The photometric inverse. *)
Definition inverse (c : RGB) : RGB :=
  let '(r, g, b) := c in (255 - r, 255 - g, 255 - b).

(** The colour painted at a pixel of the buffer. *)
Definition colour (temp_img : Image) (color : Color) (p : Z * Z) : RGB :=
  match color with
  | Inverted => inverse (pixel temp_img (fst p) (snd p))
  | Fixed c => c
  end.

Definition call (temp_img : Image) (color : Color) (p : Z * Z) : Z * Z * RGB :=
  (fst p, snd p, colour temp_img color p).

(** The calls the code makes at one centre. *)
Definition calls (temp_img : Image) (color : Color) (image_width image_height width : Z)
           (centre : Z * Z) : list (Z * Z * RGB) :=
  map (call temp_img color) (cells image_width image_height width centre).

(** The [ImageDraw] object after the calls [calls]. *)
Definition emit (calls : list (Z * Z * RGB)) (d : ImageDraw) : ImageDraw :=
  mkDraw (paint (_image d) calls) (point_calls d ++ calls).

(** Two cells of the grid are neighbours, or the same cell. *)
Definition adjacent (p q : Z * Z) : Prop :=
  Z.abs (fst q - fst p) <= 1 /\ Z.abs (snd q - snd p) <= 1.

(** Each point of a path is adjacent to the next. *)
Fixpoint connected (path : list (Z * Z)) : Prop :=
  match path with
  | p :: ((q :: _) as rest) => adjacent p q /\ connected rest
  | _ => True
  end.

End Stamp.

(* ================================================================== *)
(** * Imposition: the page and [create_imposition_pdf]                  *)
(* ================================================================== *)

(** The calls the code makes on the reportlab canvas are recorded, in
    order, as the state of the canvas; [sys.exit] ends the run with a
    status.  Strings are ASCII: [upper] and [lower] change the 26
    letters. *)
Module Pdf.

Local Open Scope Q_scope.
Local Open Scope py_scope.

(** [reportlab.lib.units.mm]: [inch = 72.0], [cm = inch / 2.54],
    [mm = cm * 0.1] *)
Definition mm : Q := 72 / (254 # 100) * (1 # 10).

(** A decoded image: its raster and the ['dpi'] entry of [img.info],
    if there is one. *)
Record Picture : Type := mkPicture {
  raster : Image;
  info_dpi : option (Q * Q)
}.

Inductive CanvasOp : Type :=
| DrawImage (img : Image) (x y width height : Q)   (* [c.drawImage(ImageReader(img), ...)] *)
| DrawLine (x1 y1 x2 y2 : Q)                        (* [c.line(...)] *)
| Save.                                             (* [c.save()] *)

Record Canvas : Type := mkCanvas {
  pagesize : Q * Q;
  ops : list CanvasOp
}.

Definition draw (c : Canvas) (op : CanvasOp) : Canvas :=
  mkCanvas (pagesize c) (ops c ++ [op]).

(** Code that may call [sys.exit]. *)
Inductive OrExit (A : Type) : Type :=
| Exit (status : Z)
| Return (a : A).

Arguments Exit {A} status.
Arguments Return {A} a.

Definition upper_ascii (c : Ascii.ascii) : Ascii.ascii :=
  let n := Ascii.N_of_ascii c in
  if ((97 <=? n) && (n <=? 122))%N then Ascii.ascii_of_N (n - 32) else c.

Definition lower_ascii (c : Ascii.ascii) : Ascii.ascii :=
  let n := Ascii.N_of_ascii c in
  if ((65 <=? n) && (n <=? 90))%N then Ascii.ascii_of_N (n + 32) else c.

(** [s.upper()] and [s.lower()] *)
Fixpoint upper (s : string) : string :=
  match s with
  | EmptyString => EmptyString
  | String c s' => String (upper_ascii c) (upper s')
  end.

Fixpoint lower (s : string) : string :=
  match s with
  | EmptyString => EmptyString
  | String c s' => String (lower_ascii c) (lower s')
  end.

(** Lines 197-203 *)
Definition _get_image_dimensions (img : Picture) : Outcome (Q * Q) :=
  let image_width := PIL.width (raster img) in
  let image_height := PIL.height (raster img) in
  let dpi := match info_dpi img with Some dpi => dpi | None => (72, 72) end in
  w <- truediv (inject_Z image_width) (fst dpi) ;;
  let image_width_mm := w * (254 # 10) in
  h <- truediv (inject_Z image_height) (snd dpi) ;;
  let image_height_mm := h * (254 # 10) in
  Ok (image_width_mm, image_height_mm).

(** Lines 241-250 *)
Definition _draw_cut_marks (c : Canvas) (x y width height mark_length : Q) : Canvas :=
  let c := draw c (DrawLine x (y + height) (x + mark_length) (y + height)) in
  let c := draw c (DrawLine x (y + height) x (y + height - mark_length)) in
  let c := draw c (DrawLine (x + width) (y + height) (x + width - mark_length) (y + height)) in
  let c := draw c (DrawLine (x + width) (y + height) (x + width) (y + height - mark_length)) in
  let c := draw c (DrawLine x y (x + mark_length) y) in
  let c := draw c (DrawLine x y x (y + mark_length)) in
  let c := draw c (DrawLine (x + width) y (x + width - mark_length) y) in
  let c := draw c (DrawLine (x + width) y (x + width) (y + mark_length)) in
  c.

(** Lines 253-269; [pagesizes] is the lookup of an attribute of
    [reportlab.lib.pagesizes] by name. *)
Definition _set_paper_size_and_orientation (pagesizes : string -> option (Q * Q))
           (paper_size_name orientation : string) : OrExit (Q * Q) :=
  match pagesizes (upper paper_size_name) with
  | None => Exit 1
  | Some dimensions =>
      if String.eqb (lower orientation) "landscape"
      then Return (snd dimensions, fst dimensions)
      else if String.eqb (lower orientation) "portrait"
      then Return dimensions
      else Exit 1
  end.

(** Lines 272-279 *)
Definition _draw_images_and_cut_marks (c : Canvas) (img : Image)
           (image_positions : list (Q * Q)) (scaled_width scaled_height : Q)
           (cut_marks : bool) (imposition_mark_length : Q) : Canvas :=
  fold_left
    (fun c '(x, y) =>
       let c := draw c (DrawImage img x y scaled_width scaled_height) in
       if cut_marks
       then _draw_cut_marks c x y scaled_width scaled_height (imposition_mark_length * mm)
       else c)
    image_positions c.

(** Lines 282-300; the result is the canvas after [c.save()], or [None]
    when the function returns at once for want of an image. *)
Definition create_imposition_pdf (fuel : nat) (pagesizes : string -> option (Q * Q))
           (input_image : option Picture) (paper_size_name orientation : string)
           (num_copies : Z) (cut_marks : bool)
           (margin spacing imposition_mark_length : Q)
  : OrExit (Outcome (option Canvas)) :=
  match input_image with
  | None => Return (Ok None)
  | Some input_image =>
      match _get_image_dimensions input_image with
      | Ok (image_width_mm, image_height_mm) =>
          match _set_paper_size_and_orientation pagesizes paper_size_name orientation with
          | Exit status => Exit status
          | Return (page_width, page_height) =>
              let c := mkCanvas (page_width, page_height) [] in
              Return
                (plan <- _calculate_layout fuel image_width_mm image_height_mm
                                           page_width page_height num_copies margin spacing ;;
                 let c := _draw_images_and_cut_marks c (raster input_image)
                            (image_positions plan) (scaled_width plan) (scaled_height plan)
                            cut_marks imposition_mark_length in
                 Ok (Some (draw c Save)))
          end
      | Raise e => Return (Raise e)
      | OutOfFuel => Return OutOfFuel
      end
  end.

(** The point [(px, py)] lies in the closed rectangle with corner
    [(x, y)] and size [width] x [height]. *)
Definition in_rectangle (x y width height px py : Q) : Prop :=
  x <= px /\ px <= x + width /\ y <= py /\ py <= y + height.

(** The point is one of the four corners of that rectangle. *)
Definition is_corner (x y width height px py : Q) : Prop :=
  (px == x \/ px == x + width) /\ (py == y \/ py == y + height).

Definition is_image (op : CanvasOp) : bool :=
  match op with DrawImage _ _ _ _ _ => true | _ => false end.

Definition is_line (op : CanvasOp) : bool :=
  match op with DrawLine _ _ _ _ => true | _ => false end.

End Pdf.

(* ================================================================== *)
(** * Bleed and marks together: [add_bleed_and_marks]                   *)
(* ================================================================== *)

(** [files] is what [Image.open] finds at a path: a decoded raster, or
    nothing when it raises [FileNotFoundError] or
    [UnidentifiedImageError], the two exceptions that [_open_image]
    catches; other failures of [Image.open] are not modelled.  The
    colour of the marks is a [Color]: ['inverted'] or a colour that
    Pillow resolves.  A colour string that Pillow cannot resolve makes
    [draw.point] raise, which the [try] of [add_bleed_and_marks] turns
    into the result [None]; that case lies outside [Color]. *)
Module AddBleed.

Local Open Scope Z_scope.

(** Lines 63-70: the image with its width and height, or [sys.exit(1)]
    from the [except] clause. *)
Definition _open_image (files : string -> option Image) (image_path : string)
  : Pdf.OrExit (option Image * Z * Z) :=
  match files image_path with
  | Some img => Pdf.Return (Some img, PIL.width img, PIL.height img)
  | None => Pdf.Exit 1
  end.

(** Lines 177-192: [_open_image] is called before the [try], so its
    exit is not caught; the [try] turns every exception of the bleed and
    of the marks into the result [None]. *)
Definition add_bleed_and_marks (fuel : nat) (files : string -> option Image)
           (image_path : string) (bleed_size crop_mark_length : Z)
           (crop_mark_color : Color) (bleed_mode : string) (cut_mark_length : Z)
  : Pdf.OrExit (Outcome (option Image)) :=
  match _open_image files image_path with
  | Pdf.Exit status => Pdf.Exit status
  | Pdf.Return (img, width, height) =>
      match img with
      | None => Pdf.Return (Ok None)
      | Some img =>
          Pdf.Return
            match _create_new_image_with_bleed img width height bleed_size bleed_mode with
            | Ok (new_img, new_width, new_height) =>
                let draw := Draw new_img in
                match Marks._draw_bleed_crop_marks fuel draw new_width new_height bleed_size
                        crop_mark_length cut_mark_length crop_mark_color with
                | (Ok _, draw') => Ok (Some (_image draw'))
                | (Raise _, _) => Ok None
                | (OutOfFuel, _) => OutOfFuel
                end
            | Raise _ => Ok None
            | OutOfFuel => OutOfFuel
            end
      end
  end.

End AddBleed.

(* ================================================================== *)
(** * Properties of the grid search                                     *)
(* ================================================================== *)

Section GridFacts.

Local Open Scope Z_scope.

Lemma ceil_div_bounds n c :
  0 < c -> c * (GridSpec.ceil_div n c - 1) < n <= c * GridSpec.ceil_div n c.
Proof.
  intros Hc. unfold GridSpec.ceil_div.
  pose proof (Z.mul_div_le (- n) c Hc).
  pose proof (Z.mul_succ_div_gt (- n) c Hc).
  lia.
Qed.

(** The code's [(n + c - 1) // c] is the ceiling of [n / c]. *)
Lemma floordiv_is_ceil n c :
  0 < c -> (n + c - 1) / c = GridSpec.ceil_div n c.
Proof.
  intros Hc.
  pose proof (ceil_div_bounds n c Hc) as [Hlo Hhi].
  symmetry. apply Z.div_unique with (r := n + c - 1 - c * GridSpec.ceil_div n c); lia.
Qed.

Lemma ceil_div_pos n c : 0 < c -> 1 <= n -> 1 <= GridSpec.ceil_div n c.
Proof.
  intros Hc Hn. pose proof (ceil_div_bounds n c Hc). nia.
Qed.

Lemma floordiv_ok a b : b <> 0 -> floordiv a b = Ok (a / b).
Proof.
  intros Hb. unfold floordiv. destruct (Z.eqb_spec b 0); [contradiction | reflexivity].
Qed.

Lemma sqrt_pos n : 1 <= n -> 1 <= Z.sqrt n.
Proof.
  intros Hn. apply Z.sqrt_le_square; lia.
Qed.

(** With [rows] the ceiling for [cols], the loop stops within [rows]
    iterations, on a pair the specification's search reaches. *)
Lemma grid_loop_search n :
  1 <= n ->
  forall fuel r c,
    1 <= c -> r = GridSpec.ceil_div n c -> (Z.to_nat r <= fuel)%nat ->
    exists r' c',
      grid_loop fuel n r c = Ok (r', c') /\
      GridSpec.search n r c r' c' /\
      c <= c' /\ r' = GridSpec.ceil_div n c'.
Proof.
  intros Hn. induction fuel as [|fuel IH]; intros r c Hc Hr Hfuel.
  - pose proof (ceil_div_pos n c ltac:(lia) Hn). lia.
  - cbn [grid_loop]. rewrite floordiv_ok by lia. cbn [Py.bind].
    rewrite floordiv_is_ceil by lia.
    destruct (Z.ltb_spec (GridSpec.ceil_div n (c + 1)) r) as [Hlt | Hge].
    + destruct (IH (GridSpec.ceil_div n (c + 1)) (c + 1)) as (r' & c' & Hrun & Hs & Hle & Hr');
        try lia.
      exists r', c'. repeat split; try assumption; try lia.
      now apply GridSpec.search_adopt.
    + exists r, c. repeat split; try assumption; try lia.
      apply GridSpec.search_stop. lia.
Qed.

(** The specification's search is a function of its start. *)
Lemma search_deterministic n r c r1 c1 r2 c2 :
  GridSpec.search n r c r1 c1 -> GridSpec.search n r c r2 c2 -> r1 = r2 /\ c1 = c2.
Proof.
  intros H1. revert r2 c2.
  induction H1 as [r c Hstop | r c r1 c1 Hlt _ IH]; intros r2 c2 H2.
  - inversion H2; subst; [split; reflexivity | contradiction].
  - inversion H2; subst; [contradiction | now apply IH].
Qed.

(** More fuel does not change an answer. *)
Lemma grid_loop_fuel_mono n fuel :
  forall r c res, grid_loop fuel n r c = Ok res ->
  forall fuel', (fuel <= fuel')%nat -> grid_loop fuel' n r c = Ok res.
Proof.
  induction fuel as [|fuel IH]; intros r c res Hrun fuel' Hle; [discriminate|].
  destruct fuel' as [|fuel']; [lia|].
  cbn [grid_loop] in *.
  destruct (floordiv (n + (c + 1) - 1) (c + 1)) as [t | e |]; cbn [Py.bind] in *;
    try discriminate.
  destruct (t <? r); [apply IH with (fuel' := fuel') in Hrun; [assumption | lia] | assumption].
Qed.

Lemma grid_search_unfold fuel n :
  1 <= n ->
  grid_search fuel n =
  grid_loop fuel n (GridSpec.ceil_div n (Z.sqrt n)) (Z.sqrt n).
Proof.
  intros Hn. unfold grid_search, int_sqrt.
  destruct (Z.ltb_spec n 0); [lia|]. cbn [Py.bind].
  pose proof (sqrt_pos n Hn).
  rewrite floordiv_ok by lia. cbn [Py.bind].
  now rewrite floordiv_is_ceil by lia.
Qed.

Lemma grid_search_total n fuel :
  1 <= n -> (grid_fuel n <= fuel)%nat ->
  exists r c,
    grid_search fuel n = Ok (r, c) /\ GridSpec.grid n r c /\
    1 <= c /\ r = GridSpec.ceil_div n c.
Proof.
  intros Hn Hfuel. rewrite grid_search_unfold by assumption.
  pose proof (sqrt_pos n Hn) as Hs.
  unfold grid_fuel in Hfuel. rewrite floordiv_is_ceil in Hfuel by lia.
  destruct (grid_loop_search n Hn fuel (GridSpec.ceil_div n (Z.sqrt n)) (Z.sqrt n))
    as (r & c & Hrun & Hsearch & Hle & Hr); try assumption; try reflexivity.
  exists r, c. repeat split; try assumption; lia.
Qed.

Lemma grid_search_sound n fuel r c :
  1 <= n -> grid_search fuel n = Ok (r, c) ->
  GridSpec.grid n r c /\ 1 <= c /\ r = GridSpec.ceil_div n c.
Proof.
  intros Hn Hrun.
  destruct (grid_search_total n (Nat.max fuel (grid_fuel n)) Hn)
    as (r' & c' & Hrun' & Hgrid & Hc & Hr); [lia|].
  rewrite grid_search_unfold in Hrun, Hrun' by assumption.
  apply grid_loop_fuel_mono with (fuel' := Nat.max fuel (grid_fuel n)) in Hrun; [|lia].
  rewrite Hrun in Hrun'. injection Hrun' as <- <-. auto.
Qed.

End GridFacts.

(** C8: for every copy count of at least one, the grid search returns,
    and the rows and columns it returns satisfy
    [rows * columns >= copy_count] and [(rows - 1) * columns < copy_count]:
    the last row is never entirely empty. *)
Theorem grid_covers_without_empty_row (num_copies : Z) :
  (1 <= num_copies)%Z ->
  (exists rows cols, grid_search (grid_fuel num_copies) num_copies = Ok (rows, cols)) /\
  (forall fuel rows cols,
      grid_search fuel num_copies = Ok (rows, cols) ->
      (rows * cols >= num_copies)%Z /\ ((rows - 1) * cols < num_copies)%Z).
Proof.
  intros Hn. split.
  - destruct (grid_search_total num_copies (grid_fuel num_copies) Hn (Nat.le_refl _))
      as (r & c & Hrun & _).
    now exists r, c.
  - intros fuel r c Hrun.
    destruct (grid_search_sound _ _ _ _ Hn Hrun) as (_ & Hc & ->).
    pose proof (ceil_div_bounds num_copies c ltac:(lia)). lia.
Qed.

Lemma grid_covers_without_empty_row_witness :
  (exists rows cols, grid_search (grid_fuel 7) 7 = Ok (rows, cols)) /\
  (forall fuel rows cols,
      grid_search fuel 7 = Ok (rows, cols) ->
      (rows * cols >= 7)%Z /\ ((rows - 1) * cols < 7)%Z).
Proof.
  apply (grid_covers_without_empty_row 7). lia.
Defined.

(** C5: for every copy count of at least one, what the grid search
    returns is what the specification's search reaches from
    [columns = floor(sqrt(copy_count))] and
    [rows = ceil(copy_count / columns)]: it adopts [columns + 1] exactly
    when that strictly lowers the row count and stops at the first step
    that does not; and it does return. *)
Theorem grid_search_is_spec_search (num_copies : Z) :
  (1 <= num_copies)%Z ->
  (forall fuel rows cols,
      grid_search fuel num_copies = Ok (rows, cols) ->
      GridSpec.grid num_copies rows cols) /\
  (forall rows columns,
      GridSpec.grid num_copies rows columns ->
      forall fuel, (grid_fuel num_copies <= fuel)%nat ->
                   grid_search fuel num_copies = Ok (rows, columns)) /\
  (exists rows columns, GridSpec.grid num_copies rows columns).
Proof.
  intros Hn. split; [|split].
  - intros fuel r c Hrun. now destruct (grid_search_sound _ _ _ _ Hn Hrun).
  - intros r c Hgrid fuel Hfuel.
    destruct (grid_search_total num_copies fuel Hn Hfuel) as (r' & c' & Hrun & Hgrid' & _).
    destruct (search_deterministic _ _ _ _ _ _ _ Hgrid Hgrid') as [-> ->]. exact Hrun.
  - destruct (grid_search_total num_copies (grid_fuel num_copies) Hn (Nat.le_refl _))
      as (r & c & _ & Hgrid & _).
    now exists r, c.
Qed.

Lemma grid_search_is_spec_search_witness :
  grid_search (grid_fuel 5) 5 = Ok (2, 3)%Z /\ GridSpec.grid 5 2 3.
Proof.
  destruct (grid_search_is_spec_search 5 ltac:(lia)) as (Hsound & _ & _).
  split; [reflexivity | apply (Hsound (grid_fuel 5)); reflexivity].
Defined.

(* ================================================================== *)
(** * Ranges and the loops over them                                    *)
(* ================================================================== *)

Section RangeFacts.

Local Open Scope Z_scope.

Lemma range2_length lo hi : List.length (range2 lo hi) = Z.to_nat (hi - lo).
Proof. unfold range2. now rewrite length_map, length_seq. Qed.

Lemma range2_nth lo hi k :
  (k < Z.to_nat (hi - lo))%nat -> nth_error (range2 lo hi) k = Some (lo + Z.of_nat k).
Proof.
  intros Hk. unfold range2. rewrite nth_error_map, nth_error_seq.
  destruct (Nat.ltb_spec k (Z.to_nat (hi - lo))); [reflexivity | lia].
Qed.

Lemma range2_In lo hi k : In k (range2 lo hi) <-> lo <= k < hi.
Proof.
  unfold range2. rewrite in_map_iff. split.
  - intros (j & <- & Hj). apply in_seq in Hj. lia.
  - intros Hk. exists (Z.to_nat (k - lo)). split; [lia|]. apply in_seq. lia.
Qed.

Lemma seq_from a b : seq a b = map (Nat.add a) (seq 0 b).
Proof.
  induction a as [|a IH].
  - now rewrite map_id.
  - rewrite <- seq_shift, IH, map_map. reflexivity.
Qed.

Lemma range2_app lo mid hi :
  lo <= mid <= hi -> range2 lo hi = range2 lo mid ++ range2 mid hi.
Proof.
  intros H. unfold range2.
  replace (Z.to_nat (hi - lo)) with (Z.to_nat (mid - lo) + Z.to_nat (hi - mid))%nat by lia.
  rewrite seq_app, map_app. f_equal.
  rewrite (seq_from (0 + Z.to_nat (mid - lo))), map_map.
  apply map_ext. intros k. lia.
Qed.

Lemma range2_one lo : range2 lo (lo + 1) = [lo].
Proof.
  unfold range2. replace (lo + 1 - lo) with 1 by lia.
  change (Z.to_nat 1) with 1%nat. cbn [seq map Z.of_nat]. now rewrite Z.add_0_r.
Qed.

Lemma range2_empty lo hi : hi <= lo -> range2 lo hi = [].
Proof.
  intros H. unfold range2. now replace (Z.to_nat (hi - lo)) with 0%nat by lia.
Qed.

Lemma range2_shift lo hi :
  range2 lo hi = map (fun k => lo + k) (range (hi - lo)).
Proof.
  unfold range, range2. rewrite map_map. rewrite Z.sub_0_r.
  apply map_ext. intros k. lia.
Qed.

Lemma flat_map_ext_in {A B} (f g : A -> list B) l :
  (forall a, In a l -> f a = g a) -> flat_map f l = flat_map g l.
Proof.
  induction l as [|a l IH]; intros H; [reflexivity|].
  cbn. rewrite (H a (or_introl eq_refl)), IH; [reflexivity|].
  intros b Hb. apply H. now right.
Qed.

Lemma flat_map_singleton {A B} (f : A -> B) l :
  flat_map (fun a => [f a]) l = map f l.
Proof. induction l as [|a l IH]; cbn; [|rewrite IH]; reflexivity. Qed.

Lemma flat_map_nil {A B} (l : list A) : flat_map (fun _ => @nil B) l = [].
Proof. induction l; cbn; auto. Qed.

Lemma flat_map_map {A B C} (f : A -> B) (g : B -> list C) l :
  flat_map g (map f l) = flat_map (fun a => g (f a)) l.
Proof. induction l as [|a l IH]; cbn; [|rewrite IH]; reflexivity. Qed.

Lemma flat_map_flat_map {A B C} (f : A -> list B) (g : B -> list C) l :
  flat_map g (flat_map f l) = flat_map (fun a => flat_map g (f a)) l.
Proof.
  induction l as [|a l IH]; cbn; [reflexivity|].
  now rewrite flat_map_app, IH.
Qed.

(** A loop that appends at most one item per turn builds a [flat_map]. *)
Lemma fold_left_append {A B} (f : A -> list B) l acc :
  fold_left (fun acc a => acc ++ f a) l acc = acc ++ flat_map f l.
Proof.
  revert acc. induction l as [|a l IH]; intros acc; cbn.
  - now rewrite app_nil_r.
  - now rewrite IH, app_assoc.
Qed.

Lemma fold_left_ext {A B} (f g : A -> B -> A) l acc :
  (forall a b, f a b = g a b) -> fold_left f l acc = fold_left g l acc.
Proof.
  intros H. revert acc. induction l as [|b l IH]; intros acc; cbn; [reflexivity|].
  now rewrite H, IH.
Qed.

(** Keeping the items below [n] of a range keeps an initial range. *)
Lemma flat_map_below {B} (f : Z -> B) n hi :
  0 <= n <= hi ->
  flat_map (fun k => if k <? n then [f k] else []) (range hi) = map f (range n).
Proof.
  intros H. unfold range. rewrite (range2_app 0 n hi) by lia.
  rewrite flat_map_app.
  rewrite (flat_map_ext_in _ (fun k => [f k])).
  2:{ intros k Hk. apply range2_In in Hk. destruct (Z.ltb_spec k n); [reflexivity | lia]. }
  rewrite (flat_map_ext_in _ (fun _ => []) (range2 n hi)).
  2:{ intros k Hk. apply range2_In in Hk. destruct (Z.ltb_spec k n); [lia | reflexivity]. }
  now rewrite flat_map_singleton, flat_map_nil, app_nil_r.
Qed.

(** Rows of [cols] cells, one after the other, number the cells. *)
Lemma row_major cols rows :
  0 <= cols -> 0 <= rows ->
  flat_map (fun row => map (fun col => row * cols + col) (range cols)) (range rows)
  = range (rows * cols).
Proof.
  intros Hc Hr. pattern rows. apply natlike_ind; [reflexivity | | exact Hr].
  intros r Hr' IH. unfold Z.succ, range in *.
  rewrite (range2_app 0 r (r + 1)) by lia.
  rewrite flat_map_app, IH, range2_one. cbn [flat_map]. rewrite app_nil_r.
  rewrite (range2_app 0 (r * cols) ((r + 1) * cols)) by nia.
  f_equal. rewrite (range2_shift (r * cols)). unfold range.
  now replace ((r + 1) * cols - r * cols) with cols by lia.
Qed.

End RangeFacts.

(* ================================================================== *)
(** * Properties of the layout                                          *)
(* ================================================================== *)

Section LayoutFacts.

Local Open Scope Z_scope.

Variables page_height margin spacing scaled_width scaled_height : Q.

Let cell (cols k : Z) : Q * Q :=
  place page_height margin spacing scaled_width scaled_height (k / cols) (k mod cols).

(** The two loops place cell [k] of the row-major numbering, for
    [k = 0 .. num_copies - 1] in this order. *)
Lemma positions_loop_cells num_copies rows cols :
  1 <= cols -> 0 <= num_copies <= rows * cols ->
  positions_loop page_height margin spacing scaled_width scaled_height
                 num_copies rows cols
  = map (cell cols) (range num_copies).
Proof.
  intros Hc Hn. unfold positions_loop.
  set (P := place page_height margin spacing scaled_width scaled_height).
  set (G := fun k => if k <? num_copies then [cell cols k] else []).
  rewrite (fold_left_ext _
    (fun acc row => acc ++ flat_map (fun col => G (row * cols + col)) (range cols))).
  2:{ intros acc row.
      rewrite (fold_left_ext _
        (fun acc col => acc ++ (if row * cols + col <? num_copies then [P row col] else []))).
      2:{ intros a col. destruct (row * cols + col <? num_copies);
            [reflexivity | now rewrite app_nil_r]. }
      rewrite fold_left_append. f_equal.
      apply flat_map_ext_in. intros col Hcol. apply range2_In in Hcol.
      unfold G, cell, P.
      replace ((row * cols + col) / cols) with row
        by (apply Z.div_unique_pos with (r := col); lia).
      replace ((row * cols + col) mod cols) with col
        by (apply Z.mod_unique_pos with (q := row); lia).
      reflexivity. }
  rewrite fold_left_append. cbn [app].
  rewrite <- (flat_map_ext_in
    (fun row => flat_map G (map (fun col => row * cols + col) (range cols))))
    by (intros; apply flat_map_map).
  rewrite <- flat_map_flat_map, row_major by nia.
  unfold G. apply flat_map_below. lia.
Qed.

Lemma positions_loop_length num_copies rows cols :
  1 <= cols -> 0 <= num_copies <= rows * cols ->
  List.length (positions_loop page_height margin spacing scaled_width scaled_height
                              num_copies rows cols) = Z.to_nat num_copies.
Proof.
  intros Hc Hn. rewrite positions_loop_cells by assumption.
  rewrite length_map. unfold range. rewrite range2_length. f_equal. lia.
Qed.

Lemma positions_loop_nth num_copies rows cols i p :
  1 <= cols -> 0 <= num_copies <= rows * cols ->
  nth_error (positions_loop page_height margin spacing scaled_width scaled_height
                            num_copies rows cols) i = Some p ->
  (i < Z.to_nat num_copies)%nat /\ p = cell cols (Z.of_nat i).
Proof.
  intros Hc Hn Hnth. rewrite positions_loop_cells in Hnth by assumption.
  assert (Hi : (i < Z.to_nat num_copies)%nat).
  { assert (H : (i < List.length (map (cell cols) (range num_copies)))%nat)
      by (apply nth_error_Some; congruence).
    rewrite length_map in H. unfold range in H. rewrite range2_length in H. lia. }
  split; [exact Hi|].
  rewrite nth_error_map in Hnth. unfold range in Hnth.
  rewrite range2_nth in Hnth by lia. cbn in Hnth. now injection Hnth as <-.
Qed.

End LayoutFacts.

Section ScaleFacts.

Local Open Scope Q_scope.

Lemma truediv_ok a b : ~ b == 0 -> truediv a b = Ok (a / b).
Proof.
  intros Hb. unfold truediv.
  destruct (Qeq_bool b 0) eqn:E; [|reflexivity].
  apply Qeq_bool_iff in E. contradiction.
Qed.

Lemma Qltb_lt a b : Qltb a b = true <-> a < b.
Proof.
  unfold Qltb. rewrite Qlt_alt. destruct (a ?= b); split; congruence.
Qed.

Lemma Qltb_ge a b : Qltb a b = false <-> b <= a.
Proof.
  split; intros H.
  - apply Qnot_lt_le. intros Hlt. apply Qltb_lt in Hlt. congruence.
  - destruct (Qltb a b) eqn:E; [|reflexivity].
    apply Qltb_lt in E. apply Qlt_not_le in E. contradiction.
Qed.

(** Python's [min] of two floats is the smaller of the two. *)
Lemma pymin_Qmin a b : Py.min a b == Qmin a b.
Proof.
  unfold Py.min. destruct (Qltb b a) eqn:E.
  - apply Qltb_lt in E. symmetry. apply Q.min_r. now apply Qlt_le_weak.
  - apply Qltb_ge in E. symmetry. now apply Q.min_l.
Qed.

Lemma pymin_le_l a b : Py.min a b <= a.
Proof. rewrite pymin_Qmin. apply Q.le_min_l. Qed.

Lemma pymin_le_r a b : Py.min a b <= b.
Proof. rewrite pymin_Qmin. apply Q.le_min_r. Qed.

Lemma inject_Z_nonzero c : (c <> 0)%Z -> ~ inject_Z c == 0.
Proof.
  intros Hc H. apply Hc. unfold Qeq in H. cbn in H. lia.
Qed.

Lemma inject_Z_pos c : (1 <= c)%Z -> 1 <= inject_Z c.
Proof.
  intros Hc. change 1 with (inject_Z 1). now rewrite <- Zle_Qle.
Qed.

Lemma scale_factor_ok iw ih pw ph r c m sp :
  (1 <= r)%Z -> (1 <= c)%Z -> ~ iw == 0 -> ~ ih == 0 ->
  scale_factor iw ih pw ph r c m sp
  = Ok (Py.min (ScaleSpec.cell_axis pw m c sp / iw) (ScaleSpec.cell_axis ph m r sp / ih)).
Proof.
  intros Hr Hc Hiw Hih. unfold scale_factor.
  rewrite (truediv_ok _ (inject_Z c)) by (apply inject_Z_nonzero; lia). cbn [Py.bind].
  rewrite (truediv_ok _ (inject_Z r)) by (apply inject_Z_nonzero; lia). cbn [Py.bind].
  rewrite (truediv_ok _ iw) by assumption. cbn [Py.bind].
  rewrite (truediv_ok _ ih) by assumption. reflexivity.
Qed.

(** With at least one copy and an image of non-zero size, the planner
    returns, and this is what it returns. *)
Lemma calculate_layout_ok fuel iw ih pw ph n m sp :
  (1 <= n)%Z -> ~ iw == 0 -> ~ ih == 0 -> (grid_fuel n <= fuel)%nat ->
  exists r c,
    grid_search fuel n = Ok (r, c) /\
    (1 <= c)%Z /\ (1 <= r)%Z /\ (n <= r * c)%Z /\ ((r - 1) * c < n)%Z /\
    let scale :=
      Py.min (ScaleSpec.cell_axis pw m c sp / iw) (ScaleSpec.cell_axis ph m r sp / ih) in
    layout_scale fuel iw ih pw ph n m sp = Ok scale /\
    _calculate_layout fuel iw ih pw ph n m sp
    = Ok (mkPlan c r (iw * scale) (ih * scale)
            (positions_loop ph m sp (iw * scale) (ih * scale) n r c)).
Proof.
  intros Hn Hiw Hih Hfuel.
  destruct (grid_search_total n fuel Hn Hfuel) as (r & c & Hrun & _ & Hc & Hr).
  pose proof (ceil_div_bounds n c ltac:(lia)) as Hb.
  pose proof (ceil_div_pos n c ltac:(lia) Hn) as Hr1.
  exists r, c. subst r. repeat split; try lia; try assumption.
  - unfold layout_scale. rewrite Hrun. cbn [Py.bind].
    now rewrite scale_factor_ok by assumption.
  - unfold _calculate_layout. rewrite Hrun. cbn [Py.bind].
    now rewrite scale_factor_ok by assumption.
Qed.

End ScaleFacts.

(** C7: for every layout request (at least one copy, an image of
    non-zero size), the scale factor the planner computes is
    [min(cell_width / image_width_mm, cell_height / image_height_mm)],
    each cell axis being
    [(page_axis - 2 * margin - (count - 1) * spacing) / count]; the
    scaled size is the image size times that factor, so the aspect ratio
    is preserved: [scaled_width * image_height = scaled_height *
    image_width], and the two quotients agree wherever the scaled height
    is not zero. *)
Theorem scale_is_min_of_cell_ratios
        (fuel : nat) (image_width_mm image_height_mm page_width page_height : Q)
        (num_copies : Z) (margin spacing : Q) :
  (1 <= num_copies)%Z -> ~ image_width_mm == 0 -> ~ image_height_mm == 0 ->
  (grid_fuel num_copies <= fuel)%nat ->
  exists plan scale,
    _calculate_layout fuel image_width_mm image_height_mm page_width page_height
                      num_copies margin spacing = Ok plan /\
    layout_scale fuel image_width_mm image_height_mm page_width page_height
                 num_copies margin spacing = Ok scale /\
    scale == ScaleSpec.scale image_width_mm image_height_mm page_width page_height
                             (rows plan) (cols plan) margin spacing /\
    scaled_width plan == image_width_mm * scale /\
    scaled_height plan == image_height_mm * scale /\
    scaled_width plan * image_height_mm == scaled_height plan * image_width_mm /\
    (~ scaled_height plan == 0 ->
     scaled_width plan / scaled_height plan == image_width_mm / image_height_mm).
Proof.
  intros Hn Hiw Hih Hfuel.
  destruct (calculate_layout_ok fuel image_width_mm image_height_mm page_width page_height
              num_copies margin spacing Hn Hiw Hih Hfuel)
    as (r & c & _ & _ & _ & _ & _ & Hscale & Hplan).
  eexists. eexists. split; [exact Hplan|]. split; [exact Hscale|].
  cbn [rows cols scaled_width scaled_height].
  split; [apply pymin_Qmin|]. split; [reflexivity|]. split; [reflexivity|].
  split; [ring|].
  intros Hnz. field. split; [assumption|].
  intros Hz. apply Hnz. rewrite Hz. ring.
Qed.

Lemma scale_is_min_of_cell_ratios_witness :
  exists plan scale,
    _calculate_layout 2 (254 # 10) (254 # 10) (2159 # 10) (2794 # 10) 4 1 0 = Ok plan /\
    layout_scale 2 (254 # 10) (254 # 10) (2159 # 10) (2794 # 10) 4 1 0 = Ok scale /\
    scale == ScaleSpec.scale (254 # 10) (254 # 10) (2159 # 10) (2794 # 10)
                             (rows plan) (cols plan) 1 0 /\
    scaled_width plan == (254 # 10) * scale /\
    scaled_height plan == (254 # 10) * scale /\
    scaled_width plan * (254 # 10) == scaled_height plan * (254 # 10) /\
    (~ scaled_height plan == 0 ->
     scaled_width plan / scaled_height plan == (254 # 10) / (254 # 10)).
Proof.
  apply (scale_is_min_of_cell_ratios 2 (254 # 10) (254 # 10) (2159 # 10) (2794 # 10) 4 1 0).
  - lia.
  - intros H; vm_compute in H; discriminate.
  - intros H; vm_compute in H; discriminate.
  - vm_compute. lia.
Defined.

(** C1, refuted as stated: a page of 100 x 100 with margins of 60
    leaves a negative width for the copies; the computed scale is
    negative and the planner returns a plan all the same. *)
Lemma nonpositive_scale_is_not_refused :
  exists plan scale,
    layout_scale 2 10 10 100 100 4 60 0 = Ok scale /\ scale <= 0 /\
    _calculate_layout 2 10 10 100 100 4 60 0 = Ok plan.
Proof.
  eexists. eexists. split; [vm_compute; reflexivity|].
  split; [|vm_compute; reflexivity].
  unfold Qle. cbn. lia.
Qed.

(** C1, amended: for every layout request with at least one copy and
    positive image dimensions the planner returns a plan, whatever the
    sign of the scale it computes: there is no check of the scale.  The
    plan's scaled size is the image size times the scale, hence
    non-positive when the scale is, and the plan still lists
    [num_copies] positions. *)
Theorem layout_returns_whatever_the_scale
        (fuel : nat) (image_width_mm image_height_mm page_width page_height : Q)
        (num_copies : Z) (margin spacing : Q) :
  (1 <= num_copies)%Z -> 0 < image_width_mm -> 0 < image_height_mm ->
  (grid_fuel num_copies <= fuel)%nat ->
  exists plan scale,
    layout_scale fuel image_width_mm image_height_mm page_width page_height
                 num_copies margin spacing = Ok scale /\
    _calculate_layout fuel image_width_mm image_height_mm page_width page_height
                      num_copies margin spacing = Ok plan /\
    scaled_width plan == image_width_mm * scale /\
    scaled_height plan == image_height_mm * scale /\
    (scale <= 0 -> scaled_width plan <= 0 /\ scaled_height plan <= 0) /\
    List.length (image_positions plan) = Z.to_nat num_copies.
Proof.
  intros Hn Hiw Hih Hfuel.
  destruct (calculate_layout_ok fuel image_width_mm image_height_mm page_width page_height
              num_copies margin spacing Hn
              (fun H => Qlt_not_eq _ _ Hiw (Qeq_sym _ _ H))
              (fun H => Qlt_not_eq _ _ Hih (Qeq_sym _ _ H)) Hfuel)
    as (r & c & _ & Hc & _ & Hcover & _ & Hscale & Hplan).
  eexists. eexists. split; [exact Hscale|]. split; [exact Hplan|].
  cbn [scaled_width scaled_height image_positions].
  split; [reflexivity|]. split; [reflexivity|]. split.
  - intros Hs. split; nra.
  - apply positions_loop_length; lia.
Qed.

Lemma layout_returns_whatever_the_scale_witness :
  exists plan scale,
    layout_scale 2 10 10 100 100 4 60 0 = Ok scale /\
    _calculate_layout 2 10 10 100 100 4 60 0 = Ok plan /\
    scaled_width plan == 10 * scale /\
    scaled_height plan == 10 * scale /\
    (scale <= 0 -> scaled_width plan <= 0 /\ scaled_height plan <= 0) /\
    List.length (image_positions plan) = Z.to_nat 4.
Proof.
  apply (layout_returns_whatever_the_scale 2 10 10 100 100 4 60 0).
  - lia.
  - reflexivity.
  - reflexivity.
  - vm_compute. lia.
Defined.

Section PlacementFacts.

Local Open Scope Q_scope.

Lemma inject_Z_step a b : (a + 1 <= b)%Z -> inject_Z a + 1 <= inject_Z b.
Proof.
  intros H. rewrite Zle_Qle, inject_Z_plus in H. exact H.
Qed.

Lemma inject_Z_nonneg a : (0 <= a)%Z -> 0 <= inject_Z a.
Proof.
  intros H. change 0 with (inject_Z 0). now rewrite <- Zle_Qle.
Qed.

(** The cell size times the count gives back the room between the
    margins less the gaps. *)
Lemma cell_axis_total page_axis m count sp :
  (1 <= count)%Z ->
  ScaleSpec.cell_axis page_axis m count sp * inject_Z count
  == page_axis - 2 * m - (inject_Z count - 1) * sp.
Proof.
  intros Hc. unfold ScaleSpec.cell_axis.
  assert (Hnz : ~ inject_Z count == 0) by (apply inject_Z_nonzero; lia).
  replace (count - 1)%Z with (count + (- 1))%Z by lia.
  rewrite inject_Z_plus. change (inject_Z (- 1)) with (- (1)).
  field. exact Hnz.
Qed.

(** A scale below [cell / image] keeps the scaled image within the
    cell. *)
Lemma scaled_within_cell image cell s :
  0 < image -> s <= cell / image -> image * s <= cell.
Proof.
  intros Hi Hs.
  assert (Hq : cell / image * image == cell) by (field; lra).
  nra.
Qed.

Lemma fit_across m sw sp mw C Cn aw :
  0 <= C -> C + 1 <= Cn -> 0 <= sw -> sw <= mw -> 0 <= sp ->
  mw * Cn == aw - (Cn - 1) * sp ->
  m <= m + C * (sw + sp) /\ m + C * (sw + sp) + sw <= m + aw.
Proof.
  intros. split.
  - nra.
  - assert ((Cn - 1 - C) * (sw + sp) >= 0) by nra.
    assert ((Cn - 1) * (mw - sw) >= 0) by nra.
    nra.
Qed.

Lemma fit_top ph m sh sp R1 :
  1 <= R1 -> 0 <= sh -> 0 <= sp ->
  ph - m - R1 * (sh + sp) + sh <= ph - m.
Proof. intros. nra. Qed.

Lemma fit_bottom m sh mh R1 Rn ah :
  1 <= R1 -> R1 <= Rn -> 0 <= sh -> sh <= mh ->
  mh * Rn == ah ->
  m <= m + ah - R1 * sh.
Proof.
  intros.
  assert ((Rn - R1) * sh >= 0) by nra.
  assert (Rn * (mh - sh) >= 0) by nra.
  nra.
Qed.

(** Two origins at least one pitch apart along an axis leave no room
    for an overlap along it. *)
Lemma apart_along_axis o a b w sp :
  0 <= sp -> a + 1 <= b ->
  ~ (o + a * (w + sp) < o + b * (w + sp) + w /\
     o + b * (w + sp) < o + a * (w + sp) + w).
Proof.
  intros Hsp Hab [H1 H2].
  assert (0 < w) by nra.
  assert (w <= (b - a) * (w + sp)) by nra.
  nra.
Qed.

Lemma apart_down_axis o a b h sp :
  0 <= sp -> a + 1 <= b ->
  ~ (o - a * (h + sp) < o - b * (h + sp) + h /\
     o - b * (h + sp) < o - a * (h + sp) + h).
Proof.
  intros Hsp Hab [H1 H2].
  assert (0 < h) by nra.
  assert (h <= (b - a) * (h + sp)) by nra.
  nra.
Qed.

(** Distinct cells of the grid never overlap when the gap is not
    negative. *)
(** For a size that is not negative the region of an origin is the
    rectangle above and to the right of it. *)
Lemma span_of_nonneg o size : 0 <= size ->
  Qmin o (o + size) == o /\ Qmax o (o + size) == o + size.
Proof.
  intros Hs. split; [apply Q.min_l | apply Q.max_r]; lra.
Qed.

Lemma cells_apart ph m sp sw sh c k1 k2 :
  0 <= sp -> 0 <= sw -> 0 <= sh -> (1 <= c)%Z -> k1 <> k2 ->
  ~ Geometry.overlap sw sh
      (place ph m sp sw sh (k1 / c) (k1 mod c))
      (place ph m sp sw sh (k2 / c) (k2 mod c)).
Proof.
  intros Hsp Hsw Hsh Hc Hk [Hx1 [Hx2 [Hy1 Hy2]]]. cbn [place fst snd] in *.
  destruct (span_of_nonneg (m + inject_Z (k1 mod c) * (sw + sp)) sw Hsw) as [Ea1 Eb1].
  destruct (span_of_nonneg (m + inject_Z (k2 mod c) * (sw + sp)) sw Hsw) as [Ea2 Eb2].
  destruct (span_of_nonneg (ph - m - inject_Z (k1 / c + 1) * (sh + sp)) sh Hsh) as [Ec1 Ed1].
  destruct (span_of_nonneg (ph - m - inject_Z (k2 / c + 1) * (sh + sp)) sh Hsh) as [Ec2 Ed2].
  rewrite Ea1, Eb2 in Hx1. rewrite Ea2, Eb1 in Hx2.
  rewrite Ec1, Ed2 in Hy1. rewrite Ec2, Ed1 in Hy2.
  pose proof (Z.div_mod k1 c ltac:(lia)) as E1.
  pose proof (Z.div_mod k2 c ltac:(lia)) as E2.
  destruct (Z.lt_total (k1 mod c) (k2 mod c)) as [Hlt | [Heq | Hgt]].
  - apply (apart_along_axis m (inject_Z (k1 mod c)) (inject_Z (k2 mod c)) sw sp Hsp);
      [apply inject_Z_step; lia | split; assumption].
  - destruct (Z.lt_total (k1 / c) (k2 / c)) as [Hlt | [Heq' | Hgt]].
    + apply (apart_down_axis (ph - m) (inject_Z (k1 / c + 1)) (inject_Z (k2 / c + 1)) sh sp Hsp);
        [apply inject_Z_step; lia | split; assumption].
    + apply Hk. rewrite E1, E2, Heq, Heq'. reflexivity.
    + apply (apart_down_axis (ph - m) (inject_Z (k2 / c + 1)) (inject_Z (k1 / c + 1)) sh sp Hsp);
        [apply inject_Z_step; lia | split; assumption].
  - apply (apart_along_axis m (inject_Z (k2 mod c)) (inject_Z (k1 mod c)) sw sp Hsp);
      [apply inject_Z_step; lia | split; assumption].
Qed.

End PlacementFacts.

(** C3, refuted as stated: with margins of 60 on a page of 100 x 100
    the first of four copies has its origin at (60, 50) and a scaled
    width of -10; its rectangle is not within the page shrunk by the
    margin. *)
Lemma copies_can_leave_the_margins :
  exists plan p,
    _calculate_layout 2 10 10 100 100 4 60 0 = Ok plan /\
    nth_error (image_positions plan) 0 = Some p /\
    ~ Geometry.inside_margins 100 100 60 (scaled_width plan) (scaled_height plan) p.
Proof.
  eexists. eexists. split; [vm_compute; reflexivity|].
  split; [reflexivity|].
  intros (_ & H & _). vm_compute in H. apply H. reflexivity.
Qed.

(** C3, amended: for every layout request with at least one copy and
    positive image dimensions, the plan has exactly [num_copies]
    positions; whenever the spacing and the computed scale are not
    negative no two copies overlap and every copy lies within the left,
    right and top margins; and whenever the spacing is zero and the
    scale is not negative every copy lies within the page shrunk by the
    margin on all four sides. *)
Theorem layout_positions_fit
        (fuel : nat) (image_width_mm image_height_mm page_width page_height : Q)
        (num_copies : Z) (margin spacing : Q) :
  (1 <= num_copies)%Z -> 0 < image_width_mm -> 0 < image_height_mm ->
  (grid_fuel num_copies <= fuel)%nat ->
  exists plan scale,
    _calculate_layout fuel image_width_mm image_height_mm page_width page_height
                      num_copies margin spacing = Ok plan /\
    layout_scale fuel image_width_mm image_height_mm page_width page_height
                 num_copies margin spacing = Ok scale /\
    List.length (image_positions plan) = Z.to_nat num_copies /\
    (0 <= spacing -> 0 <= scale ->
     forall i j p q,
       i <> j ->
       nth_error (image_positions plan) i = Some p ->
       nth_error (image_positions plan) j = Some q ->
       ~ Geometry.overlap (scaled_width plan) (scaled_height plan) p q) /\
    (0 <= spacing -> 0 <= scale ->
     forall p, In p (image_positions plan) ->
               Geometry.inside_left_right_top page_width page_height margin
                 (scaled_width plan) (scaled_height plan) p) /\
    (spacing == 0 -> 0 <= scale ->
     forall p, In p (image_positions plan) ->
               Geometry.inside_margins page_width page_height margin
                 (scaled_width plan) (scaled_height plan) p).
Proof.
  intros Hn Hiw Hih Hfuel.
  destruct (calculate_layout_ok fuel image_width_mm image_height_mm page_width page_height
              num_copies margin spacing Hn
              (fun H => Qlt_not_eq _ _ Hiw (Qeq_sym _ _ H))
              (fun H => Qlt_not_eq _ _ Hih (Qeq_sym _ _ H)) Hfuel)
    as (r & c & _ & Hc & Hr & Hcover & _ & Hscale & Hplan).
  set (mw := ScaleSpec.cell_axis page_width margin c spacing) in *.
  set (mh := ScaleSpec.cell_axis page_height margin r spacing) in *.
  set (s := Py.min (mw / image_width_mm) (mh / image_height_mm)) in *.
  eexists. eexists. split; [exact Hplan|]. split; [exact Hscale|].
  cbn [scaled_width scaled_height image_positions].
  assert (Hsw : image_width_mm * s <= mw)
    by (apply scaled_within_cell; [assumption | apply pymin_le_l]).
  assert (Hsh : image_height_mm * s <= mh)
    by (apply scaled_within_cell; [assumption | apply pymin_le_r]).
  pose proof (cell_axis_total page_width margin c spacing Hc) as Hmw.
  pose proof (cell_axis_total page_height margin r spacing Hr) as Hmh.
  fold mw in Hmw. fold mh in Hmh.
  assert (Hcell : forall p,
             In p (positions_loop page_height margin spacing (image_width_mm * s)
                                  (image_height_mm * s) num_copies r c) ->
             exists k, (0 <= k < num_copies)%Z /\
                       p = place page_height margin spacing (image_width_mm * s)
                                 (image_height_mm * s) (k / c) (k mod c)).
  { intros p Hp. apply In_nth_error in Hp. destruct Hp as [i Hi].
    apply positions_loop_nth in Hi; [|lia|lia]. destruct Hi as [Hi ->].
    exists (Z.of_nat i). split; [lia | reflexivity]. }
  assert (Hpos : forall k, (0 <= k < num_copies)%Z ->
             0 <= inject_Z (k mod c) /\ inject_Z (k mod c) + 1 <= inject_Z c /\
             1 <= inject_Z (k / c + 1) /\ inject_Z (k / c + 1) <= inject_Z r).
  { intros k Hk.
    pose proof (Z.mod_pos_bound k c ltac:(lia)).
    assert (0 <= k / c)%Z by (apply Z.div_pos; lia).
    assert (k / c < r)%Z by (apply Z.div_lt_upper_bound; nia).
    repeat split.
    - apply inject_Z_nonneg; lia.
    - apply inject_Z_step; lia.
    - apply inject_Z_pos; lia.
    - rewrite <- Zle_Qle. lia. }
  split; [apply positions_loop_length; lia|].
  split; [|split].
  - intros Hsp Hs i j p q Hij Hp Hq.
    apply positions_loop_nth in Hp; [|lia|lia]. destruct Hp as [Hi ->].
    apply positions_loop_nth in Hq; [|lia|lia]. destruct Hq as [Hj ->].
    apply cells_apart; [assumption | nra | nra | assumption | lia].
  - intros Hsp Hs p Hp. destruct (Hcell p Hp) as (k & Hk & ->).
    destruct (Hpos k Hk) as (HC0 & HC1 & HR0 & HR1).
    unfold Geometry.inside_left_right_top. cbn [place fst snd].
    assert (H0w : 0 <= image_width_mm * s) by nra.
    assert (H0h : 0 <= image_height_mm * s) by nra.
    destruct (fit_across margin (image_width_mm * s) spacing mw (inject_Z (k mod c))
                (inject_Z c) (page_width - 2 * margin) HC0 HC1 H0w Hsw Hsp Hmw)
      as [Hl Hrt].
    pose proof (fit_top page_height margin (image_height_mm * s) spacing
                  (inject_Z (k / c + 1)) HR0 H0h Hsp) as Ht.
    repeat split; [exact Hl | lra | exact Ht].
  - intros Hsp Hs p Hp. destruct (Hcell p Hp) as (k & Hk & ->).
    destruct (Hpos k Hk) as (HC0 & HC1 & HR0 & HR1).
    unfold Geometry.inside_margins. cbn [place fst snd].
    assert (H0w : 0 <= image_width_mm * s) by nra.
    assert (H0h : 0 <= image_height_mm * s) by nra.
    assert (Hsp0 : 0 <= spacing) by lra.
    destruct (fit_across margin (image_width_mm * s) spacing mw (inject_Z (k mod c))
                (inject_Z c) (page_width - 2 * margin) HC0 HC1 H0w Hsw Hsp0 Hmw)
      as [Hl Hrt].
    pose proof (fit_top page_height margin (image_height_mm * s) spacing
                  (inject_Z (k / c + 1)) HR0 H0h Hsp0) as Ht.
    assert (Hmh' : mh * inject_Z r == page_height - 2 * margin) by nra.
    pose proof (fit_bottom margin (image_height_mm * s) mh (inject_Z (k / c + 1))
                  (inject_Z r) (page_height - 2 * margin) HR0 HR1 H0h Hsh Hmh') as Hb.
    repeat split; [exact Hl | lra | | exact Ht].
    nra.
Qed.

Lemma layout_positions_fit_witness :
  exists plan scale,
    _calculate_layout 2 (254 # 10) (254 # 10) (2159 # 10) (2794 # 10) 4 1 0 = Ok plan /\
    layout_scale 2 (254 # 10) (254 # 10) (2159 # 10) (2794 # 10) 4 1 0 = Ok scale /\
    List.length (image_positions plan) = Z.to_nat 4 /\
    (0 <= 0 -> 0 <= scale ->
     forall i j p q,
       i <> j ->
       nth_error (image_positions plan) i = Some p ->
       nth_error (image_positions plan) j = Some q ->
       ~ Geometry.overlap (scaled_width plan) (scaled_height plan) p q) /\
    (0 <= 0 -> 0 <= scale ->
     forall p, In p (image_positions plan) ->
               Geometry.inside_left_right_top (2159 # 10) (2794 # 10) 1
                 (scaled_width plan) (scaled_height plan) p) /\
    (0 == 0 -> 0 <= scale ->
     forall p, In p (image_positions plan) ->
               Geometry.inside_margins (2159 # 10) (2794 # 10) 1
                 (scaled_width plan) (scaled_height plan) p).
Proof.
  apply (layout_positions_fit 2 (254 # 10) (254 # 10) (2159 # 10) (2794 # 10) 4 1 0).
  - lia.
  - reflexivity.
  - reflexivity.
  - vm_compute. lia.
Defined.

(** Why the scale must not be negative: with margins of 60 on a page of
    100 x 100 and a spacing of 4, four copies of a 10 x 10 image get the
    size -12 x -12; the first two origins are (60, 48) and (52, 48), and
    the regions drawn from them, [48, 60] and [40, 52] across, overlap. *)
Example negative_scale_copies_overlap :
  exists plan p q,
    _calculate_layout 2 10 10 100 100 4 60 4 = Ok plan /\
    scaled_width plan == - (12) /\ scaled_height plan == - (12) /\
    nth_error (image_positions plan) 0 = Some p /\
    nth_error (image_positions plan) 1 = Some q /\
    fst p == 60 /\ snd p == 48 /\ fst q == 52 /\ snd q == 48 /\
    Geometry.overlap (scaled_width plan) (scaled_height plan) p q.
Proof.
  eexists. eexists. eexists. split; [vm_compute; reflexivity|].
  cbn [scaled_width scaled_height image_positions nth_error].
  repeat split; try reflexivity; vm_compute; reflexivity.
Qed.

(* ================================================================== *)
(** * Properties of the raster operations                               *)
(* ================================================================== *)

Section RasterFacts.

Local Open Scope Z_scope.

Lemma within_true x y w h : within x y w h = true <-> 0 <= x < w /\ 0 <= y < h.
Proof.
  unfold within. rewrite !andb_true_iff, !Z.leb_le, !Z.ltb_lt. lia.
Qed.

Lemma within_false x y w h : within x y w h = false <-> ~ (0 <= x < w /\ 0 <= y < h).
Proof.
  rewrite <- within_true. destruct (within x y w h); split; congruence.
Qed.

Lemma crop_ok img x0 y0 x1 y1 :
  x0 <= x1 -> y0 <= y1 ->
  crop img (x0, y0, x1, y1)
  = Ok (mkImage (x1 - x0) (y1 - y0)
          (fun x y =>
             if within (x + x0) (y + y0) (PIL.width img) (PIL.height img)
             then pixel img (x + x0) (y + y0) else black)).
Proof.
  intros Hx Hy. unfold crop.
  destruct (Z.ltb_spec x1 x0); [lia|]. destruct (Z.ltb_spec y1 y0); [lia|]. reflexivity.
Qed.

(** A paste leaves alone what lies outside the pasted box. *)
Lemma paste_outside new_img im x0 y0 x y :
  ~ (x0 <= x < x0 + PIL.width im /\ y0 <= y < y0 + PIL.height im) ->
  pixel (paste new_img im (x0, y0)) x y = pixel new_img x y.
Proof.
  intros H. cbn [paste pixel].
  destruct (within (x - x0) (y - y0) (PIL.width im) (PIL.height im)) eqn:E;
    [|reflexivity].
  apply within_true in E. exfalso. apply H. lia.
Qed.

(** Inside the box, and inside the destination, it writes the pasted
    raster. *)
Lemma paste_inside new_img im x0 y0 x y :
  x0 <= x < x0 + PIL.width im -> y0 <= y < y0 + PIL.height im ->
  0 <= x < PIL.width new_img -> 0 <= y < PIL.height new_img ->
  pixel (paste new_img im (x0, y0)) x y = pixel im (x - x0) (y - y0).
Proof.
  intros Hx Hy Hx' Hy'. cbn [paste pixel].
  replace (within (x - x0) (y - y0) (PIL.width im) (PIL.height im)) with true
    by (symmetry; apply within_true; lia).
  replace (within x y (PIL.width new_img) (PIL.height new_img)) with true
    by (symmetry; apply within_true; lia).
  reflexivity.
Qed.

Lemma paste_width new_img im xy : PIL.width (paste new_img im xy) = PIL.width new_img.
Proof. destruct xy. reflexivity. Qed.

Lemma paste_height new_img im xy : PIL.height (paste new_img im xy) = PIL.height new_img.
Proof. destruct xy. reflexivity. Qed.

Lemma new_white_ok w h :
  0 <= w -> 0 <= h -> new_white w h = Ok (mkImage w h (fun _ _ => white)).
Proof.
  intros Hw Hh. unfold new_white.
  destruct (Z.ltb_spec w 0); [lia|]. destruct (Z.ltb_spec h 0); [lia|]. reflexivity.
Qed.

End RasterFacts.

(* ================================================================== *)
(** * Properties of bleed synthesis                                     *)
(* ================================================================== *)

Ltac paste_misses :=
  rewrite paste_outside by (cbn [PIL.width PIL.height transpose]; lia).

Ltac paste_hits :=
  rewrite paste_inside
    by (rewrite ?paste_width, ?paste_height; cbn [PIL.width PIL.height transpose]; lia).

(** C2, refuted as stated: mirror bleed of size 2 around a 2 x 2 raster,
    where [bleed_size = min(w, h)], returns a 6 x 6 raster. *)
Lemma mirror_bleed_of_full_width_returns :
  exists new_img,
    _create_new_image_with_bleed (white_image 2 2) 2 2 2 "mirror"%string
    = Ok (new_img, 6, 6)%Z.
Proof.
  eexists. reflexivity.
Qed.

(** C2, amended: for every source raster of width [w] and height [h] and
    every bleed size of at least zero, also one that reaches or exceeds
    [w] or [h], bleed synthesis in mirror mode returns a raster of size
    [(w + 2 * bleed_size, h + 2 * bleed_size)] that holds the source
    unchanged at offset [(bleed_size, bleed_size)]; it raises nothing. *)
Theorem mirror_bleed_always_returns (img : Image) (w h bleed_size : Z) :
  PIL.width img = w -> PIL.height img = h ->
  (0 <= w)%Z -> (0 <= h)%Z -> (0 <= bleed_size)%Z ->
  exists new_img,
    _create_new_image_with_bleed img w h bleed_size "mirror"%string
    = Ok (new_img, w + 2 * bleed_size, h + 2 * bleed_size)%Z /\
    PIL.width new_img = (w + 2 * bleed_size)%Z /\
    PIL.height new_img = (h + 2 * bleed_size)%Z /\
    forall x y, (0 <= x < w)%Z -> (0 <= y < h)%Z ->
                pixel new_img (bleed_size + x) (bleed_size + y) = pixel img x y.
Proof.
  intros Hw Hh Hw0 Hh0 Hb.
  unfold _create_new_image_with_bleed.
  rewrite new_white_ok by lia. cbn [Py.bind String.eqb Ascii.eqb Bool.eqb].
  unfold _add_mirror_bleed.
  rewrite !crop_ok by lia. cbn [Py.bind].
  eexists. split; [reflexivity|]. split; [reflexivity|]. split; [reflexivity|].
  intros x y Hx Hy.
  do 4 paste_misses. paste_hits.
  f_equal; lia.
Qed.

Lemma mirror_bleed_always_returns_witness :
  exists new_img,
    _create_new_image_with_bleed (white_image 2 3) 2 3 5 "mirror"%string
    = Ok (new_img, 2 + 2 * 5, 3 + 2 * 5)%Z /\
    PIL.width new_img = (2 + 2 * 5)%Z /\
    PIL.height new_img = (3 + 2 * 5)%Z /\
    forall x y, (0 <= x < 2)%Z -> (0 <= y < 3)%Z ->
                pixel new_img (5 + x) (5 + y) = pixel (white_image 2 3) x y.
Proof.
  apply (mirror_bleed_always_returns (white_image 2 3) 2 3 5);
    first [reflexivity | lia].
Defined.

Section RepeatFacts.

Local Open Scope Z_scope.

Variable img : Image.
Variables w h bleed_size : Z.
Hypothesis Hw : PIL.width img = w.
Hypothesis Hh : PIL.height img = h.
Hypothesis Hw1 : 1 <= w.
Hypothesis Hh1 : 1 <= h.
Hypothesis Hb : 0 <= bleed_size.

Let sized := Trace.sized w h bleed_size.

(** One iteration never raises, and is these eight pastes. *)
Lemma repeat_step_ok new_img i :
  exists s1 s2 s3 s4 s5 s6 s7 s8,
    crop img (0, 0, 1, h) = Ok s1 /\
    crop img (w - 1, 0, w, h) = Ok s2 /\
    crop img (0, 0, w, 1) = Ok s3 /\
    crop img (0, h - 1, w, h) = Ok s4 /\
    crop img (0, 0, 1, 1) = Ok s5 /\
    crop img (w - 1, 0, w, 1) = Ok s6 /\
    crop img (0, h - 1, 1, h) = Ok s7 /\
    crop img (w - 1, h - 1, w, h) = Ok s8 /\
    repeat_step img w h bleed_size new_img i
    = Ok (paste (paste (paste (paste (paste (paste (paste (paste new_img
            s1 (bleed_size - i - 1, bleed_size))
            s2 (bleed_size + w + i, bleed_size))
            s3 (bleed_size, bleed_size - i - 1))
            s4 (bleed_size, bleed_size + h + i))
            s5 (bleed_size - i - 1, bleed_size - i - 1))
            s6 (bleed_size + w + i, bleed_size - i - 1))
            s7 (bleed_size - i - 1, bleed_size + h + i))
            s8 (bleed_size + w + i, bleed_size + h + i)).
Proof.
  unfold repeat_step. rewrite !crop_ok by lia. cbn [Py.bind].
  do 8 eexists. repeat (split; [reflexivity|]). reflexivity.
Qed.

Ltac open_step new_img i :=
  destruct (repeat_step_ok new_img i)
    as (s1 & s2 & s3 & s4 & s5 & s6 & s7 & s8 &
        E1 & E2 & E3 & E4 & E5 & E6 & E7 & E8 & Estep);
  rewrite crop_ok in E1, E2, E3, E4, E5, E6, E7, E8 by lia;
  injection E1 as <-; injection E2 as <-; injection E3 as <-; injection E4 as <-;
  injection E5 as <-; injection E6 as <-; injection E7 as <-; injection E8 as <-;
  eexists; split; [exact Estep|];
  split; [split; rewrite ?paste_width, ?paste_height; assumption|].

Ltac strip_pixel :=
  rewrite paste_inside
    by (rewrite ?paste_width, ?paste_height; cbn [PIL.width PIL.height]; lia);
  cbn [pixel];
  match goal with
  | |- context [within ?a ?b ?c ?d] =>
      replace (within a b c d) with true by (symmetry; apply within_true; lia)
  end;
  f_equal; lia.

(** What one iteration does to a pixel of the left border strip. *)
Lemma repeat_step_left new_img i k y :
  sized new_img -> 0 <= i -> 0 <= k < bleed_size ->
  bleed_size <= y < bleed_size + h ->
  exists new_img',
    repeat_step img w h bleed_size new_img i = Ok new_img' /\ sized new_img' /\
    pixel new_img' (bleed_size - 1 - k) y
    = if i =? k then pixel img 0 (y - bleed_size)
      else pixel new_img (bleed_size - 1 - k) y.
Proof.
  intros [Sw Sh] Hi Hk Hy. open_step new_img i.
  do 7 (rewrite paste_outside by (cbn [PIL.width PIL.height]; lia)).
  destruct (Z.eqb_spec i k) as [-> | Hne].
  - strip_pixel.
  - rewrite paste_outside by (cbn [PIL.width PIL.height]; lia). reflexivity.
Qed.

Lemma repeat_step_right new_img i k y :
  sized new_img -> 0 <= i -> 0 <= k < bleed_size ->
  bleed_size <= y < bleed_size + h ->
  exists new_img',
    repeat_step img w h bleed_size new_img i = Ok new_img' /\ sized new_img' /\
    pixel new_img' (bleed_size + w + k) y
    = if i =? k then pixel img (w - 1) (y - bleed_size)
      else pixel new_img (bleed_size + w + k) y.
Proof.
  intros [Sw Sh] Hi Hk Hy. open_step new_img i.
  do 6 (rewrite paste_outside by (cbn [PIL.width PIL.height]; lia)).
  destruct (Z.eqb_spec i k) as [-> | Hne].
  - strip_pixel.
  - do 2 (rewrite paste_outside by (cbn [PIL.width PIL.height]; lia)). reflexivity.
Qed.

Lemma repeat_step_top new_img i k x :
  sized new_img -> 0 <= i -> 0 <= k < bleed_size ->
  bleed_size <= x < bleed_size + w ->
  exists new_img',
    repeat_step img w h bleed_size new_img i = Ok new_img' /\ sized new_img' /\
    pixel new_img' x (bleed_size - 1 - k)
    = if i =? k then pixel img (x - bleed_size) 0
      else pixel new_img x (bleed_size - 1 - k).
Proof.
  intros [Sw Sh] Hi Hk Hx. open_step new_img i.
  do 5 (rewrite paste_outside by (cbn [PIL.width PIL.height]; lia)).
  destruct (Z.eqb_spec i k) as [-> | Hne].
  - strip_pixel.
  - do 3 (rewrite paste_outside by (cbn [PIL.width PIL.height]; lia)). reflexivity.
Qed.

Lemma repeat_step_bottom new_img i k x :
  sized new_img -> 0 <= i -> 0 <= k < bleed_size ->
  bleed_size <= x < bleed_size + w ->
  exists new_img',
    repeat_step img w h bleed_size new_img i = Ok new_img' /\ sized new_img' /\
    pixel new_img' x (bleed_size + h + k)
    = if i =? k then pixel img (x - bleed_size) (h - 1)
      else pixel new_img x (bleed_size + h + k).
Proof.
  intros [Sw Sh] Hi Hk Hx. open_step new_img i.
  do 4 (rewrite paste_outside by (cbn [PIL.width PIL.height]; lia)).
  destruct (Z.eqb_spec i k) as [-> | Hne].
  - strip_pixel.
  - do 4 (rewrite paste_outside by (cbn [PIL.width PIL.height]; lia)). reflexivity.
Qed.

(** The whole loop never raises. *)
Lemma repeat_loop_total l new_img :
  sized new_img ->
  exists new_img',
    for_each (repeat_step img w h bleed_size) l new_img = Ok new_img' /\ sized new_img'.
Proof.
  revert new_img. induction l as [|i l IH]; intros new_img Hs.
  - exists new_img. split; [reflexivity | assumption].
  - destruct (repeat_step_ok new_img i)
      as (s1 & s2 & s3 & s4 & s5 & s6 & s7 & s8 & _ & _ & _ & _ & _ & _ & _ & _ & Estep).
    cbn [for_each]. rewrite Estep. cbn [Py.bind]. apply IH.
    destruct Hs. split; rewrite ?paste_width, ?paste_height; assumption.
Qed.

End RepeatFacts.

Section LoopFacts.

Local Open Scope Z_scope.

Variable body : Image -> Z -> Outcome Image.
Variable Inv : Image -> Prop.
Variables (x y k : Z) (v : RGB).

(** If every turn [i >= 0] of a loop keeps [Inv], writes [v] at
    [(x, y)] when [i = k] and leaves that pixel alone otherwise, then
    the loop over a list that meets [k] ends with [v] there. *)
Lemma for_each_settles l :
  (forall new_img i,
      Inv new_img -> 0 <= i ->
      exists new_img',
        body new_img i = Ok new_img' /\ Inv new_img' /\
        pixel new_img' x y = if i =? k then v else pixel new_img x y) ->
  Forall (fun i => 0 <= i) l ->
  forall new_img,
    Inv new_img ->
    exists new_img',
      for_each body l new_img = Ok new_img' /\ Inv new_img' /\
      pixel new_img' x y = if existsb (Z.eqb k) l then v else pixel new_img x y.
Proof.
  intros Hbody. induction l as [|i l IH]; intros Hl new_img HI.
  - exists new_img. repeat split; assumption || reflexivity.
  - inversion Hl as [|? ? Hi Hl']; subst.
    destruct (Hbody new_img i HI Hi) as (d1 & E1 & I1 & P1).
    destruct (IH Hl' d1 I1) as (d2 & E2 & I2 & P2).
    exists d2. cbn [for_each]. rewrite E1. cbn [Py.bind].
    repeat split; try assumption.
    rewrite P2, P1. cbn [existsb]. rewrite (Z.eqb_sym k i).
    destruct (i =? k); cbn [orb]; [|reflexivity].
    now destruct (existsb (Z.eqb k) l).
Qed.

Lemma range_meets n : 0 <= k < n -> existsb (Z.eqb k) (range n) = true.
Proof.
  intros Hk. apply existsb_exists. exists k. split; [|apply Z.eqb_refl].
  apply range2_In. lia.
Qed.

Lemma range_nonneg n : Forall (fun i => 0 <= i) (range n).
Proof.
  apply Forall_forall. intros i Hi. apply range2_In in Hi. lia.
Qed.

End LoopFacts.

(** C6: for every source raster (at least one pixel wide and high) and
    every bleed size of at least zero, bleed synthesis in repeat mode
    returns a raster whose border strips replicate the nearest source
    edge pixel: [new_img[bleed-1-i, y] = source[0, y-bleed]] on the
    left, and likewise the last column on the right, the first row on
    top and the last row at the bottom, for all [0 <= i < bleed_size]
    and all [y] ([x]) in the range of the pasted source. *)
Theorem repeat_bleed_replicates_edges (img : Image) (w h bleed_size : Z) :
  PIL.width img = w -> PIL.height img = h ->
  (1 <= w)%Z -> (1 <= h)%Z -> (0 <= bleed_size)%Z ->
  exists new_img,
    _create_new_image_with_bleed img w h bleed_size "repeat"%string
    = Ok (new_img, w + 2 * bleed_size, h + 2 * bleed_size)%Z /\
    forall i, (0 <= i < bleed_size)%Z ->
      (forall y, (bleed_size <= y < bleed_size + h)%Z ->
         pixel new_img (bleed_size - 1 - i) y = pixel img 0 (y - bleed_size) /\
         pixel new_img (bleed_size + w + i) y = pixel img (w - 1) (y - bleed_size)) /\
      (forall x, (bleed_size <= x < bleed_size + w)%Z ->
         pixel new_img x (bleed_size - 1 - i) = pixel img (x - bleed_size) 0 /\
         pixel new_img x (bleed_size + h + i) = pixel img (x - bleed_size) (h - 1)).
Proof.
  intros Hw Hh Hw1 Hh1 Hb.
  unfold _create_new_image_with_bleed.
  rewrite new_white_ok by lia. cbn [Py.bind String.eqb Ascii.eqb Bool.eqb].
  unfold _add_repeat_bleed.
  set (start := paste _ img (bleed_size, bleed_size)).
  assert (Hstart : sized w h bleed_size start) by (split; reflexivity).
  destruct (repeat_loop_total img w h bleed_size Hw1 Hh1 (range bleed_size) start Hstart)
    as (new_img & Erun & _).
  exists new_img. rewrite Erun. cbn [Py.bind]. split; [reflexivity|].
  intros i Hi.
  pose proof (range_meets i bleed_size Hi) as Hmeet.
  pose proof (range_nonneg bleed_size) as Hnn.
  split; [intros y Hy | intros x Hx]; split.
  - destruct (for_each_settles (repeat_step img w h bleed_size) (sized w h bleed_size)
                (bleed_size - 1 - i) y i (pixel img 0 (y - bleed_size)) (range bleed_size))
      with (new_img := start) as (d & E & _ & P); try assumption.
    { intros; apply repeat_step_left; assumption || lia. }
    rewrite Erun in E. injection E as <-. now rewrite P, Hmeet.
  - destruct (for_each_settles (repeat_step img w h bleed_size) (sized w h bleed_size)
                (bleed_size + w + i) y i (pixel img (w - 1) (y - bleed_size))
                (range bleed_size))
      with (new_img := start) as (d & E & _ & P); try assumption.
    { intros; apply repeat_step_right; assumption || lia. }
    rewrite Erun in E. injection E as <-. now rewrite P, Hmeet.
  - destruct (for_each_settles (repeat_step img w h bleed_size) (sized w h bleed_size)
                x (bleed_size - 1 - i) i (pixel img (x - bleed_size) 0) (range bleed_size))
      with (new_img := start) as (d & E & _ & P); try assumption.
    { intros; apply repeat_step_top; assumption || lia. }
    rewrite Erun in E. injection E as <-. now rewrite P, Hmeet.
  - destruct (for_each_settles (repeat_step img w h bleed_size) (sized w h bleed_size)
                x (bleed_size + h + i) i (pixel img (x - bleed_size) (h - 1))
                (range bleed_size))
      with (new_img := start) as (d & E & _ & P); try assumption.
    { intros; apply repeat_step_bottom; assumption || lia. }
    rewrite Erun in E. injection E as <-. now rewrite P, Hmeet.
Qed.

Lemma repeat_bleed_replicates_edges_witness :
  exists new_img,
    _create_new_image_with_bleed (coordinate_image 2 3) 2 3 2 "repeat"%string
    = Ok (new_img, 2 + 2 * 2, 3 + 2 * 2)%Z /\
    forall i, (0 <= i < 2)%Z ->
      (forall y, (2 <= y < 2 + 3)%Z ->
         pixel new_img (2 - 1 - i) y = pixel (coordinate_image 2 3) 0 (y - 2) /\
         pixel new_img (2 + 2 + i) y = pixel (coordinate_image 2 3) (2 - 1) (y - 2)) /\
      (forall x, (2 <= x < 2 + 2)%Z ->
         pixel new_img x (2 - 1 - i) = pixel (coordinate_image 2 3) (x - 2) 0 /\
         pixel new_img x (2 + 3 + i) = pixel (coordinate_image 2 3) (x - 2) (3 - 1)).
Proof.
  apply (repeat_bleed_replicates_edges (coordinate_image 2 3) 2 3 2);
    first [reflexivity | lia].
Defined.

(* ================================================================== *)
(** * Properties of the line rasteriser                                 *)
(* ================================================================== *)


Section TraceFacts.

Local Open Scope Z_scope.

Lemma extends_refl J d : extends J d d.
Proof.
  exists []. rewrite app_nil_r. repeat split. constructor.
Qed.

Lemma paint_app img l1 l2 : paint img (l1 ++ l2) = paint (paint img l1) l2.
Proof. unfold paint. apply fold_left_app. Qed.

Lemma extends_trans J d1 d2 d3 : extends J d1 d2 -> extends J d2 d3 -> extends J d1 d3.
Proof.
  intros (n1 & E1 & F1 & P1) (n2 & E2 & F2 & P2).
  exists (n1 ++ n2). rewrite E2, E1, app_assoc. split; [reflexivity|].
  split; [now apply Forall_app|]. now rewrite P2, P1, paint_app.
Qed.

Lemma extends_weaken (J J' : Z * Z * RGB -> Prop) d d' :
  (forall call, J call -> J' call) -> extends J d d' -> extends J' d d'.
Proof.
  intros HJ (n & E & F & P). exists n. repeat split; try assumption.
  eapply Forall_impl; eassumption.
Qed.

Lemma justified_weaken temp_img iw ih color width (C C' : list (Z * Z)) call :
  (forall c, In c C -> In c C') ->
  justified temp_img iw ih color width C call ->
  justified temp_img iw ih color width C' call.
Proof.
  intros HC. destruct call as [[px py] c].
  intros (Hin & Hcol & cx & cy & HIn & Hc & Hsx & Hsy).
  repeat split; try assumption. exists cx, cy. auto.
Qed.

(** Sequencing two pieces of code that only make calls satisfying [J]. *)
Lemma bind_extends {A B} J (m : DrawM A) (k : A -> DrawM B) d :
  extends J d (snd (m d)) ->
  (forall a d1, extends J d1 (snd (k a d1))) ->
  extends J d (snd (Line.bind m k d)).
Proof.
  intros Hm Hk. unfold Line.bind.
  destruct (m d) as [[a | e |] d1]; cbn [snd] in *; try assumption.
  eapply extends_trans; [exact Hm | apply Hk].
Qed.

Lemma for_in_extends J l (body : Z -> DrawM unit) :
  (forall i, In i l -> forall d, extends J d (snd (body i d))) ->
  forall d, extends J d (snd (for_in l body d)).
Proof.
  induction l as [|i l IH]; intros Hbody d; cbn [for_in].
  - apply extends_refl.
  - apply bind_extends.
    + apply Hbody. now left.
    + intros _ d1. apply IH. intros j Hj. apply Hbody. now right.
Qed.

End TraceFacts.

Section DrawLineFacts.

Local Open Scope Z_scope.

Variable temp_img : Image.
Variables x2 y2 image_width image_height : Z.
Variable color : Color.
Variable width : Z.
Variables dx dy sx sy : Z.

Let J := justified temp_img image_width image_height color width.

(** Choosing the colour draws nothing and yields the colour of
    [colour_of], or raises. *)
Lemma chosen_color_spec px py d :
  snd (chosen_color temp_img color px py d) = d /\
  forall c, fst (chosen_color temp_img color px py d) = Ok c ->
            colour_of temp_img color px py c.
Proof.
  unfold chosen_color, colour_of. destruct color as [|c0].
  - unfold Line.bind, lift.
    destruct (getpixel temp_img (px, py)) as [[[r g] b] | e |] eqn:E;
      cbn; (split; [reflexivity|]); intros c Hc; try discriminate.
    injection Hc as <-. now exists r, g, b.
  - cbn. split; [reflexivity|]. now intros c [= <-].
Qed.

(** The stamp around a centre inside the buffer makes only calls
    accounted for by that centre. *)
Lemma stamp_extends x1 y1 d :
  within x1 y1 image_width image_height = true ->
  extends (J [(x1, y1)]) d (snd (stamp temp_img image_width image_height color width x1 y1 d)).
Proof.
  intros Hc. unfold stamp. apply for_in_extends. intros i Hi d1.
  apply for_in_extends. intros j Hj d2.
  apply range2_In in Hi. apply range2_In in Hj.
  destruct (within (x1 + i) (y1 + j) image_width image_height) eqn:Hin;
    [|apply extends_refl].
  unfold Line.bind.
  destruct (chosen_color_spec (x1 + i) (y1 + j) d2) as [Hsnd Hfst].
  destruct (chosen_color temp_img color (x1 + i) (y1 + j) d2) as [[c | e |] d3];
    cbn [fst snd] in *; subst d3; try apply extends_refl.
  exists [(x1 + i, y1 + j, c)]. cbn [point snd fst point_calls _image paint fold_left].
  repeat split. constructor; [|constructor].
  unfold J, justified. repeat split; [assumption | now apply Hfst | ].
  exists x1, y1. unfold in_stamp. repeat split; try assumption; try lia. now left.
Qed.

Lemma visit_extends x1 y1 d :
  extends (J [(x1, y1)]) d (snd (visit temp_img image_width image_height color width x1 y1 d)).
Proof.
  unfold visit. destruct (within x1 y1 image_width image_height) eqn:Hc.
  - now apply stamp_extends.
  - apply extends_refl.
Qed.

(** A visit to a centre outside the buffer draws nothing at all. *)
Lemma visit_outside x1 y1 d :
  within x1 y1 image_width image_height = false ->
  visit temp_img image_width image_height color width x1 y1 d = (Ok tt, d).
Proof.
  intros Hc. unfold visit. now rewrite Hc.
Qed.

(** Every call of the loop is accounted for by a centre it visited. *)
Lemma line_loop_extends fuel :
  forall x1 y1 err d,
    extends (J (centres x2 y2 dx dy sx sy fuel x1 y1 err)) d
            (snd (line_loop temp_img x2 y2 image_width image_height color width
                            dx dy sx sy fuel x1 y1 err d)).
Proof.
  induction fuel as [|fuel IH]; intros x1 y1 err d.
  - apply extends_refl.
  - cbn [line_loop centres]. apply bind_extends.
    + eapply extends_weaken; [|apply visit_extends].
      intros call. apply justified_weaken. intros c [<- | []]. now left.
    + intros _ d1. destruct ((x1 =? x2) && (y1 =? y2)); [apply extends_refl|].
      destruct (advance dx dy sx sy x1 y1 err) as [[x1' y1'] err'].
      eapply extends_weaken; [|apply IH].
      intros call. apply justified_weaken. intros c Hc. now right.
Qed.

End DrawLineFacts.

Section PaintFacts.

Local Open Scope Z_scope.

Lemma put_point_pixel img x0 y0 c x y :
  pixel (put_point img (x0, y0) c) x y
  = if (x =? x0) && (y =? y0) && within x y (PIL.width img) (PIL.height img)
    then c else pixel img x y.
Proof. reflexivity. Qed.

Lemma paint_cons img px py c calls :
  paint img ((px, py, c) :: calls) = paint (put_point img (px, py) c) calls.
Proof. reflexivity. Qed.

Lemma paint_size calls :
  forall img, PIL.width (paint img calls) = PIL.width img /\
              PIL.height (paint img calls) = PIL.height img.
Proof.
  induction calls as [|[[px py] c] calls IH]; intros img; [split; reflexivity|].
  rewrite paint_cons. destruct (IH (put_point img (px, py) c)) as [-> ->].
  split; reflexivity.
Qed.

(** A pixel no call names keeps its value. *)
Lemma paint_untouched x y calls :
  forall img, (forall c, ~ In (x, y, c) calls) ->
              pixel (paint img calls) x y = pixel img x y.
Proof.
  induction calls as [|[[px py] c] calls IH]; intros img Hno; [reflexivity|].
  rewrite paint_cons, IH.
  - rewrite put_point_pixel.
    destruct (Z.eqb_spec x px) as [-> |]; [|reflexivity].
    destruct (Z.eqb_spec y py) as [-> |]; [|reflexivity].
    exfalso. apply (Hno c). now left.
  - intros c' Hc'. apply (Hno c'). now right.
Qed.

(** A pixel of the raster that every call naming it paints with [c0]
    ends as [c0] once it has been named. *)
Lemma paint_settled x y c0 calls :
  forall img,
    within x y (PIL.width img) (PIL.height img) = true ->
    (forall c, In (x, y, c) calls -> c = c0) ->
    pixel img x y = c0 \/ (exists c, In (x, y, c) calls) ->
    pixel (paint img calls) x y = c0.
Proof.
  induction calls as [|[[px py] c] calls IH]; intros img Hin Hall Hsome.
  - destruct Hsome as [H | [c []]]. exact H.
  - rewrite paint_cons. apply IH.
    + exact Hin.
    + intros c' Hc'. apply Hall. now right.
    + rewrite put_point_pixel, Hin.
      destruct (Z.eqb_spec x px) as [-> |]; cbn [andb].
      * destruct (Z.eqb_spec y py) as [-> |]; cbn [andb].
        -- left. apply Hall. now left.
        -- destruct Hsome as [H | [c' [Hc' | Hc']]];
             [now left | congruence | right; now exists c'].
      * destruct Hsome as [H | [c' [Hc' | Hc']]];
          [now left | congruence | right; now exists c'].
Qed.

End PaintFacts.

(** Every call [_draw_line] makes is accounted for by a centre of its
    path, whatever the fuel and whatever the outcome. *)
Lemma draw_line_extends fuel draw x1 y1 x2 y2 image_width image_height color width :
  extends (justified (_image draw) image_width image_height color width
                     (line_centres fuel x1 y1 x2 y2))
          draw
          (snd (_draw_line fuel draw x1 y1 x2 y2 image_width image_height color width)).
Proof.
  unfold _draw_line, line_centres. apply line_loop_extends.
Qed.

(** C9: whatever the endpoints, the stroke width and the buffer, and
    however far the loop gets, every [draw.point] call [_draw_line]
    makes has its coordinates in [0, image_width) x [0, image_height),
    and the pixels outside that range are left as they were. *)
Theorem draw_line_never_paints_outside
        (fuel : nat) (draw : ImageDraw) (x1 y1 x2 y2 image_width image_height : Z)
        (color : Color) (width : Z) :
  let draw' :=
    snd (_draw_line fuel draw x1 y1 x2 y2 image_width image_height color width) in
  exists new,
    point_calls draw' = point_calls draw ++ new /\
    _image draw' = paint (_image draw) new /\
    (forall px py c, In (px, py, c) new ->
                     (0 <= px < image_width)%Z /\ (0 <= py < image_height)%Z) /\
    (forall x y, ~ ((0 <= x < image_width)%Z /\ (0 <= y < image_height)%Z) ->
                 pixel (_image draw') x y = pixel (_image draw) x y).
Proof.
  intros draw'.
  destruct (draw_line_extends fuel draw x1 y1 x2 y2 image_width image_height color width)
    as (new & Hcalls & Hall & Himg).
  fold draw' in Hcalls, Himg. exists new.
  assert (Hin : forall px py c, In (px, py, c) new ->
                  (0 <= px < image_width)%Z /\ (0 <= py < image_height)%Z).
  { intros px py c Hc. rewrite Forall_forall in Hall.
    destruct (Hall _ Hc) as (Hw & _). now apply within_true in Hw. }
  repeat split; try assumption; try (now apply (Hin px py c)).
  intros x y Hout. rewrite Himg. apply paint_untouched.
  intros c Hc. apply Hout. exact (Hin x y c Hc).
Qed.

(** C10: a step of the loop whose centre lies outside the buffer draws
    nothing, not even the pixels of its stamp that lie inside; so every
    call [_draw_line] makes belongs to the stamp of a centre of its path
    that is itself inside the buffer. *)
Theorem stamp_skipped_when_centre_outside
        (fuel : nat) (draw : ImageDraw) (x1 y1 x2 y2 image_width image_height : Z)
        (color : Color) (width : Z) :
  (forall temp_img cx cy d,
      within cx cy image_width image_height = false ->
      visit temp_img image_width image_height color width cx cy d = (Ok tt, d)) /\
  exists new,
    point_calls
      (snd (_draw_line fuel draw x1 y1 x2 y2 image_width image_height color width))
    = point_calls draw ++ new /\
    forall px py c,
      In (px, py, c) new ->
      exists cx cy,
        In (cx, cy) (line_centres fuel x1 y1 x2 y2) /\
        (0 <= cx < image_width)%Z /\ (0 <= cy < image_height)%Z /\
        in_stamp width cx px /\ in_stamp width cy py.
Proof.
  split.
  - intros temp_img cx cy d Hout. now apply visit_outside.
  - destruct (draw_line_extends fuel draw x1 y1 x2 y2 image_width image_height color width)
      as (new & Hcalls & Hall & _).
    exists new. split; [exact Hcalls|].
    intros px py c Hc. rewrite Forall_forall in Hall.
    destruct (Hall _ Hc) as (_ & _ & cx & cy & HIn & Hw & Hsx & Hsy).
    apply within_true in Hw. exists cx, cy. tauto.
Qed.

(** A line that starts just right of a 4 x 4 buffer: the stamp of its
    first centre (4, 1) covers the pixels (3, 0) and (3, 1) of the
    buffer, and nothing is painted. *)
Example line_from_outside_paints_nothing :
  let run := _draw_line 3 (Draw (white_image 4 4)) 4 1 6 1 4 4 (Fixed black) 2 in
  fst run = Ok tt /\ point_calls (snd run) = [] /\
  in_stamp 2 4 3 /\ in_stamp 2 1 0 /\ within 3 0 4 4 = true /\
  pixel (_image (snd run)) 3 0 = white.
Proof.
  vm_compute. repeat split; congruence.
Qed.

(* ------------------------------------------------------------------ *)
(** ** The loop reaches the end point                                   *)
(* ------------------------------------------------------------------ *)

Section BresenhamFacts.

Local Open Scope Z_scope.

Variable temp_img : Image.
Variables X1 Y1 x2 y2 image_width image_height : Z.
Variable color : Color.
Variable width : Z.

Let dx := Z.abs (x2 - X1).
Let dy := Z.abs (y2 - Y1).
Let sx := if X1 <? x2 then 1 else -1.
Let sy := if Y1 <? y2 then 1 else -1.
Let loop :=
  line_loop temp_img x2 y2 image_width image_height color width dx dy sx sy.

(** No stamp raises. *)
Hypothesis Hvisit :
  forall x y d,
    exists d', visit temp_img image_width image_height color width x y d = (Ok tt, d').

Lemma sx_dx : X1 + sx * dx = x2.
Proof. unfold sx, dx. destruct (Z.ltb_spec X1 x2); lia. Qed.

Lemma sy_dy : Y1 + sy * dy = y2.
Proof. unfold sy, dy. destruct (Z.ltb_spec Y1 y2); lia. Qed.

Lemma sx_unit : sx = 1 \/ sx = -1.
Proof. unfold sx. destruct (X1 <? x2); auto. Qed.

Lemma sy_unit : sy = 1 \/ sy = -1.
Proof. unfold sy. destruct (Y1 <? y2); auto. Qed.

(** An integer within one of another is that one. *)
Lemma inject_Z_pinned a b :
  (inject_Z a - 1 < inject_Z b)%Q -> (inject_Z b < inject_Z a + 1)%Q -> b = a.
Proof.
  intros Hlo Hhi.
  change 1%Q with (inject_Z 1) in Hlo, Hhi.
  unfold Qminus in Hlo. rewrite <- inject_Z_opp, <- inject_Z_plus, <- Zlt_Qlt in Hlo.
  rewrite <- inject_Z_plus, <- Zlt_Qlt in Hhi. lia.
Qed.

(** With [dx > dy], [0 <= err < dx] holds at every visit and [x1]
    advances at every step; after [dx] steps both coordinates are at
    the end point. *)
Lemma x_major_finishes :
  dy < dx ->
  forall n fuel k j err d,
    (n < fuel)%nat -> k = dx - Z.of_nat n -> 0 <= k -> 0 <= j ->
    (err == inject_Z dx / 2 - inject_Z k * inject_Z dy + inject_Z j * inject_Z dx)%Q ->
    (0 <= err)%Q -> (err < inject_Z dx)%Q ->
    exists d', loop fuel (X1 + sx * k) (Y1 + sy * j) err d = (Ok tt, d').
Proof.
  intros Hmajor.
  assert (HD : (0 < inject_Z dx)%Q).
  { change 0%Q with (inject_Z 0). rewrite <- Zlt_Qlt. unfold dy in Hmajor. lia. }
  assert (HY : (0 <= inject_Z dy)%Q).
  { change 0%Q with (inject_Z 0). rewrite <- Zle_Qle. unfold dy. lia. }
  assert (HDY : (inject_Z dy < inject_Z dx)%Q) by now rewrite <- Zlt_Qlt.
  induction n as [|n IH]; intros fuel k j err d Hfuel Hk Hk0 Hj0 Herr Hlo Hhi;
    (destruct fuel as [|fuel]; [lia|]);
    unfold loop; cbn [line_loop]; unfold Line.bind;
    destruct (Hvisit (X1 + sx * k) (Y1 + sy * j) d) as [d1 ->].
  - assert (Hk' : k = dx) by lia. clear Hk. subst k.
    assert (j = dy).
    { assert (Hhalf : (inject_Z dx / 2 == inject_Z dx * (1 # 2))%Q) by field.
      apply inject_Z_pinned; nra. }
    subst j. rewrite sx_dx, sy_dy, !Z.eqb_refl. cbn [andb]. now exists d1.
  - replace (X1 + sx * k =? x2) with false
      by (symmetry; apply Z.eqb_neq; pose proof sx_dx; pose proof sx_unit; nia).
    cbn [andb]. unfold advance.
    replace (Qltb (- inject_Z dx) err) with true
      by (symmetry; apply Qltb_lt; lra).
    assert (Hk1 : inject_Z (k + 1) = (inject_Z k + 1)%Q) by apply inject_Z_plus.
    assert (Hj1 : inject_Z (j + 1) = (inject_Z j + 1)%Q) by apply inject_Z_plus.
    destruct (Qltb err (inject_Z dy)) eqn:Hy.
    + apply Qltb_lt in Hy.
      replace (X1 + sx * k + sx) with (X1 + sx * (k + 1)) by ring.
      replace (Y1 + sy * j + sy) with (Y1 + sy * (j + 1)) by ring.
      apply IH; try lia.
      * rewrite Hk1, Hj1, Herr. ring.
      * lra.
      * lra.
    + apply Qltb_ge in Hy.
      replace (X1 + sx * k + sx) with (X1 + sx * (k + 1)) by ring.
      apply IH; try lia.
      * rewrite Hk1, Herr. ring.
      * lra.
      * lra.
Qed.

(** With [dx <= dy] and [dy > 0], [-dy < err <= 0] holds at every
    visit and [y1] advances at every step. *)
Lemma y_major_finishes :
  dx <= dy -> 0 < dy ->
  forall n fuel k j err d,
    (n < fuel)%nat -> j = dy - Z.of_nat n -> 0 <= k -> 0 <= j ->
    (err == - inject_Z dy / 2 - inject_Z k * inject_Z dy + inject_Z j * inject_Z dx)%Q ->
    (- inject_Z dy < err)%Q -> (err <= 0)%Q ->
    exists d', loop fuel (X1 + sx * k) (Y1 + sy * j) err d = (Ok tt, d').
Proof.
  intros Hmajor Hdy.
  assert (HY : (0 < inject_Z dy)%Q).
  { change 0%Q with (inject_Z 0). now rewrite <- Zlt_Qlt. }
  assert (HD : (0 <= inject_Z dx)%Q).
  { change 0%Q with (inject_Z 0). rewrite <- Zle_Qle. unfold dx. lia. }
  assert (HDY : (inject_Z dx <= inject_Z dy)%Q) by now rewrite <- Zle_Qle.
  induction n as [|n IH]; intros fuel k j err d Hfuel Hj Hk0 Hj0 Herr Hlo Hhi;
    (destruct fuel as [|fuel]; [lia|]);
    unfold loop; cbn [line_loop]; unfold Line.bind;
    destruct (Hvisit (X1 + sx * k) (Y1 + sy * j) d) as [d1 ->].
  - assert (Hj' : j = dy) by lia. clear Hj. subst j.
    assert (k = dx).
    { assert (Hhalf : (- inject_Z dy / 2 == - inject_Z dy * (1 # 2))%Q) by field.
      apply inject_Z_pinned; nra. }
    subst k. rewrite sx_dx, sy_dy, !Z.eqb_refl. cbn [andb]. now exists d1.
  - replace (Y1 + sy * j =? y2) with false
      by (symmetry; apply Z.eqb_neq; pose proof sy_dy; pose proof sy_unit; nia).
    rewrite andb_false_r. unfold advance.
    replace (Qltb err (inject_Z dy)) with true
      by (symmetry; apply Qltb_lt; lra).
    assert (Hk1 : inject_Z (k + 1) = (inject_Z k + 1)%Q) by apply inject_Z_plus.
    assert (Hj1 : inject_Z (j + 1) = (inject_Z j + 1)%Q) by apply inject_Z_plus.
    destruct (Qltb (- inject_Z dx) err) eqn:Hx.
    + apply Qltb_lt in Hx.
      replace (X1 + sx * k + sx) with (X1 + sx * (k + 1)) by ring.
      replace (Y1 + sy * j + sy) with (Y1 + sy * (j + 1)) by ring.
      apply IH; try lia.
      * rewrite Hk1, Hj1, Herr. ring.
      * lra.
      * lra.
    + apply Qltb_ge in Hx.
      replace (Y1 + sy * j + sy) with (Y1 + sy * (j + 1)) by ring.
      apply IH; try lia.
      * rewrite Hj1, Herr. ring.
      * lra.
      * lra.
Qed.

End BresenhamFacts.

Section FinishFacts.

Local Open Scope Z_scope.

Lemma getpixel_within img px py :
  within px py (PIL.width img) (PIL.height img) = true ->
  getpixel img (px, py) = Ok (pixel img px py).
Proof.
  intros Hin. pose proof Hin as Hb. apply within_true in Hb. unfold getpixel.
  destruct (Z.ltb_spec px 0); [lia|]. destruct (Z.ltb_spec py 0); [lia|].
  now rewrite Hin.
Qed.

Lemma for_in_ok l (body : Z -> DrawM unit) :
  (forall i d, exists d', body i d = (Ok tt, d')) ->
  forall d, exists d', for_in l body d = (Ok tt, d').
Proof.
  intros Hbody. induction l as [|i l IH]; intros d; cbn [for_in].
  - now exists d.
  - unfold Line.bind. destruct (Hbody i d) as [d1 ->]. apply IH.
Qed.

(** On a buffer of the size the caller states, no visit raises. *)
Lemma visit_ok temp_img color width x y d :
  exists d',
    visit temp_img (PIL.width temp_img) (PIL.height temp_img) color width x y d
    = (Ok tt, d').
Proof.
  unfold visit.
  destruct (within x y (PIL.width temp_img) (PIL.height temp_img)); [|now exists d].
  unfold stamp. apply for_in_ok. intros i d1. apply for_in_ok. intros j d2.
  destruct (within (x + i) (y + j) (PIL.width temp_img) (PIL.height temp_img)) eqn:Hin;
    [|now eexists].
  unfold Line.bind, chosen_color. destruct color as [|c0].
  - unfold Line.bind, lift. rewrite (getpixel_within _ _ _ Hin).
    destruct (pixel temp_img (x + i) (y + j)) as [[r g] b]. cbn. now eexists.
  - cbn. now eexists.
Qed.

(** [_draw_line] returns, within [line_fuel] iterations. *)
Lemma draw_line_finishes fuel draw x1 y1 x2 y2 color width :
  (line_fuel x1 y1 x2 y2 <= fuel)%nat ->
  exists draw',
    _draw_line fuel draw x1 y1 x2 y2
               (PIL.width (_image draw)) (PIL.height (_image draw)) color width
    = (Ok tt, draw').
Proof.
  intros Hfuel. unfold line_fuel in Hfuel. unfold _draw_line.
  set (dx := Z.abs (x2 - x1)) in *. set (dy := Z.abs (y2 - y1)) in *.
  pose proof (visit_ok (_image draw) color width) as Hvisit.
  destruct (Z.gtb_spec dx dy) as [Hx | Hy].
  - assert (HD : (0 < inject_Z dx)%Q)
      by (change 0%Q with (inject_Z 0); rewrite <- Zlt_Qlt; unfold dy in Hx; lia).
    assert (Hhalf : (inject_Z dx / 2 == inject_Z dx * (1 # 2))%Q) by field.
    destruct (x_major_finishes (_image draw) x1 y1 x2 y2 _ _ color width Hvisit Hx
                (Z.to_nat dx) fuel 0 0 (inject_Z dx / 2)%Q draw) as [d' Hd'];
      try (fold dx dy); try lia.
    + change (inject_Z 0) with 0%Q. ring.
    + lra.
    + lra.
    + rewrite !Z.mul_0_r, !Z.add_0_r in Hd'. now exists d'.
  - destruct (Z.eq_dec dy 0) as [Hz | Hnz].
    + destruct fuel as [|fuel]; [lia|]. cbn [line_loop]. unfold Line.bind.
      destruct (Hvisit x1 y1 draw) as [d1 ->].
      replace (x1 =? x2) with true by (symmetry; apply Z.eqb_eq; lia).
      replace (y1 =? y2) with true by (symmetry; apply Z.eqb_eq; lia).
      now exists d1.
    + assert (HY : (0 < inject_Z dy)%Q)
        by (change 0%Q with (inject_Z 0); rewrite <- Zlt_Qlt; unfold dy in *; lia).
      assert (Hhalf : (inject_Z (- dy) / 2 == - inject_Z dy * (1 # 2))%Q)
        by (rewrite inject_Z_opp; field).
      destruct (y_major_finishes (_image draw) x1 y1 x2 y2 _ _ color width Hvisit
                  ltac:(fold dx dy; lia) ltac:(fold dy; unfold dy in *; lia)
                  (Z.to_nat dy) fuel 0 0 (inject_Z (- dy) / 2)%Q draw) as [d' Hd'];
        try (fold dx dy); try lia.
      * rewrite inject_Z_opp. change (inject_Z 0) with 0%Q. field.
      * lra.
      * lra.
      * rewrite !Z.mul_0_r, !Z.add_0_r in Hd'. now exists d'.
Qed.

End FinishFacts.

(** The same line on a white 4 x 4 buffer: the pixel (1, 1) lies under
    the stamps of two consecutive centres and is painted twice, black
    both times. *)
Example inverted_overlap_stays_black :
  let run := _draw_line 3 (Draw (white_image 4 4)) 1 1 3 2 4 4 Inverted 2 in
  fst run = Ok tt /\
  List.length (filter (fun '(px, py, _) => (px =? 1)%Z && (py =? 1)%Z)
                      (point_calls (snd run))) = 2%nat /\
  pixel (_image (snd run)) 1 1 = black.
Proof.
  vm_compute. repeat split.
Qed.

Lemma stamp_skipped_when_centre_outside_witness :
  within 4 1 4 4 = false /\
  visit (white_image 4 4) 4 4 (Fixed black) 2 4 1 (Draw (white_image 4 4))
  = (Ok tt, Draw (white_image 4 4)).
Proof.
  split; [reflexivity|].
  apply (proj1 (stamp_skipped_when_centre_outside
                  3 (Draw (white_image 4 4)) 4 1 6 1 4 4 (Fixed black) 2)).
  reflexivity.
Defined.

(* ================================================================== *)
(** * Concrete runs                                                     *)
(* ================================================================== *)

(** Scenario 1 of the specification: an image of 25.4 mm square on a
    letter page, four copies, margin 1, spacing 0: a 2 x 2 grid of copies
    106.95 wide. *)
Example letter_page_four_copies :
  match _calculate_layout 2 (254 # 10) (254 # 10) (2159 # 10) (2794 # 10) 4 1 0 with
  | Ok plan =>
      cols plan = 2%Z /\ rows plan = 2%Z /\
      scaled_width plan == 10695 # 100 /\ scaled_height plan == 10695 # 100 /\
      List.length (image_positions plan) = 4%nat
  | _ => False
  end.
Proof.
  vm_compute. repeat split; intros H; discriminate H.
Qed.

(** The grids for one to ten copies, as [(rows, cols)]. *)
Example grids_up_to_ten :
  map (fun n => grid_search (grid_fuel n) n) (range2 1 11)
  = map Ok [(1, 1); (1, 2); (1, 3); (2, 2); (2, 3); (2, 3); (2, 4); (2, 4); (3, 3); (2, 5)]%Z.
Proof. reflexivity. Qed.

(** No copies, a negative copy count, an image without width. *)
Example layout_raises :
  _calculate_layout 2 10 10 100 100 0 0 0 = Raise ZeroDivisionError /\
  _calculate_layout 2 10 10 100 100 (-1) 0 0 = Raise ValueError /\
  _calculate_layout 2 0 10 100 100 1 0 0 = Raise ZeroDivisionError.
Proof. repeat split. Qed.

(** The path from (0, 0) to (7, 3), and a line of no length. *)
Example path_to_7_3 :
  line_centres (line_fuel 0 0 7 3) 0 0 7 3
  = [(0, 0); (1, 0); (2, 1); (3, 1); (4, 2); (5, 2); (6, 3); (7, 3)]%Z /\
  line_centres (line_fuel 3 3 3 3) 3 3 3 3 = [(3, 3)]%Z.
Proof. split; reflexivity. Qed.

(** An unknown bleed mode raises; repeat bleed of size 1 around a
    2 x 3 raster copies the edges outward and the corner pixels onto the
    corners. *)
Example bleed_runs :
  _create_new_image_with_bleed (coordinate_image 2 3) 2 3 1 "stretch"%string
  = Raise ValueError /\
  match _create_new_image_with_bleed (coordinate_image 2 3) 2 3 1 "repeat"%string with
  | Ok (new_img, w, h) =>
      (w, h) = (4, 5)%Z /\
      map (fun y => map (fun x => pixel new_img x y) (range 4)) (range 5)
      = [[(0, 0, 7); (0, 0, 7); (1, 0, 7); (1, 0, 7)];
         [(0, 0, 7); (0, 0, 7); (1, 0, 7); (1, 0, 7)];
         [(0, 1, 7); (0, 1, 7); (1, 1, 7); (1, 1, 7)];
         [(0, 2, 7); (0, 2, 7); (1, 2, 7); (1, 2, 7)];
         [(0, 2, 7); (0, 2, 7); (1, 2, 7); (1, 2, 7)]]%Z
  | _ => False
  end.
Proof. split; [reflexivity | vm_compute; split; reflexivity]. Qed.

(* ================================================================== *)
(** * Further properties of bleed synthesis                             *)
(* ================================================================== *)

Ltac band_pixel :=
  rewrite paste_inside
    by (rewrite ?paste_width, ?paste_height; cbn [PIL.width PIL.height transpose]; lia);
  cbn [pixel transpose PIL.width PIL.height];
  match goal with
  | |- context [within ?a ?b ?c ?d] =>
      replace (within a b c d) with true by (symmetry; apply within_true; lia)
  end;
  f_equal; lia.

(** X1: in mirror mode, when the bleed does not exceed the source width
    the left and right bands are the horizontal mirror images of the
    source's outermost [bleed_size] columns, and when it does not exceed
    the source height the top and bottom bands are the vertical mirror
    images of its outermost [bleed_size] rows. *)
Theorem mirror_bleed_bands_are_mirrors (img : Image) (w h bleed_size : Z) :
  PIL.width img = w -> PIL.height img = h ->
  (0 <= w)%Z -> (0 <= h)%Z -> (0 <= bleed_size)%Z ->
  exists new_img,
    _create_new_image_with_bleed img w h bleed_size "mirror"%string
    = Ok (new_img, w + 2 * bleed_size, h + 2 * bleed_size)%Z /\
    ((bleed_size <= w)%Z ->
     forall x y, (0 <= x < bleed_size)%Z -> (0 <= y < h)%Z ->
       pixel new_img x (bleed_size + y) = pixel img (bleed_size - 1 - x) y /\
       pixel new_img (w + bleed_size + x) (bleed_size + y) = pixel img (w - 1 - x) y) /\
    ((bleed_size <= h)%Z ->
     forall x y, (0 <= x < w)%Z -> (0 <= y < bleed_size)%Z ->
       pixel new_img (bleed_size + x) y = pixel img x (bleed_size - 1 - y) /\
       pixel new_img (bleed_size + x) (h + bleed_size + y) = pixel img x (h - 1 - y)).
Proof.
  intros Hw Hh Hw0 Hh0 Hb.
  unfold _create_new_image_with_bleed.
  rewrite new_white_ok by lia. cbn [Py.bind String.eqb Ascii.eqb Bool.eqb].
  unfold _add_mirror_bleed.
  rewrite !crop_ok by lia. cbn [Py.bind].
  eexists. split; [reflexivity|]. split.
  - intros Hbw x y Hx Hy. split.
    + do 3 paste_misses. band_pixel.
    + do 2 paste_misses. band_pixel.
  - intros Hbh x y Hx Hy. split.
    + do 1 paste_misses. band_pixel.
    + band_pixel.
Qed.

Lemma mirror_bleed_bands_are_mirrors_witness :
  exists new_img,
    _create_new_image_with_bleed (coordinate_image 4 3) 4 3 2 "mirror"%string
    = Ok (new_img, 4 + 2 * 2, 3 + 2 * 2)%Z /\
    ((2 <= 4)%Z ->
     forall x y, (0 <= x < 2)%Z -> (0 <= y < 3)%Z ->
       pixel new_img x (2 + y) = pixel (coordinate_image 4 3) (2 - 1 - x) y /\
       pixel new_img (4 + 2 + x) (2 + y) = pixel (coordinate_image 4 3) (4 - 1 - x) y) /\
    ((2 <= 3)%Z ->
     forall x y, (0 <= x < 4)%Z -> (0 <= y < 2)%Z ->
       pixel new_img (2 + x) y = pixel (coordinate_image 4 3) x (2 - 1 - y) /\
       pixel new_img (2 + x) (3 + 2 + y) = pixel (coordinate_image 4 3) x (3 - 1 - y)).
Proof.
  apply (mirror_bleed_bands_are_mirrors (coordinate_image 4 3) 4 3 2);
    first [reflexivity | lia].
Defined.

(** X2: in mirror mode the four corner squares of the border keep the
    white background: no band is pasted there. *)
Theorem mirror_bleed_corners_stay_white (img : Image) (w h bleed_size : Z) :
  PIL.width img = w -> PIL.height img = h ->
  (0 <= w)%Z -> (0 <= h)%Z -> (0 <= bleed_size)%Z ->
  exists new_img,
    _create_new_image_with_bleed img w h bleed_size "mirror"%string
    = Ok (new_img, w + 2 * bleed_size, h + 2 * bleed_size)%Z /\
    forall x y,
      (0 <= x < bleed_size \/ w + bleed_size <= x < w + 2 * bleed_size)%Z ->
      (0 <= y < bleed_size \/ h + bleed_size <= y < h + 2 * bleed_size)%Z ->
      pixel new_img x y = white.
Proof.
  intros Hw Hh Hw0 Hh0 Hb.
  unfold _create_new_image_with_bleed.
  rewrite new_white_ok by lia. cbn [Py.bind String.eqb Ascii.eqb Bool.eqb].
  unfold _add_mirror_bleed.
  rewrite !crop_ok by lia. cbn [Py.bind].
  eexists. split; [reflexivity|].
  intros x y Hx Hy. do 5 paste_misses. reflexivity.
Qed.

Lemma mirror_bleed_corners_stay_white_witness :
  exists new_img,
    _create_new_image_with_bleed (coordinate_image 4 3) 4 3 2 "mirror"%string
    = Ok (new_img, 4 + 2 * 2, 3 + 2 * 2)%Z /\
    forall x y,
      (0 <= x < 2 \/ 4 + 2 <= x < 4 + 2 * 2)%Z ->
      (0 <= y < 2 \/ 3 + 2 <= y < 3 + 2 * 2)%Z ->
      pixel new_img x y = white.
Proof.
  apply (mirror_bleed_corners_stay_white (coordinate_image 4 3) 4 3 2);
    first [reflexivity | lia].
Defined.

Lemma bleed_raises_value_error_lemma (img : Image) (w h bleed_size : Z)
      (bleed_mode : string) :
  (w + 2 * bleed_size < 0)%Z \/ (h + 2 * bleed_size < 0)%Z \/
  (bleed_mode <> "repeat"%string /\ bleed_mode <> "mirror"%string) ->
  _create_new_image_with_bleed img w h bleed_size bleed_mode = Raise ValueError.
Proof.
  intros H. unfold _create_new_image_with_bleed, new_white.
  destruct (Z.ltb_spec (w + 2 * bleed_size) 0) as [|Hw0]; [reflexivity|].
  destruct (Z.ltb_spec (h + 2 * bleed_size) 0) as [|Hh0]; [reflexivity|].
  destruct H as [H | [H | [Hr Hm]]]; try lia.
  cbn [orb Py.bind].
  apply String.eqb_neq in Hr. apply String.eqb_neq in Hm. rewrite Hr, Hm. reflexivity.
Qed.


(** X3: whatever the source and the bleed size, a bleed mode other than
    ['repeat'] and ['mirror'] (the comparison is exact: ['Repeat'] is
    another mode) raises [ValueError], and so does any mode when the
    size of the new raster would be negative. *)
Theorem bleed_raises_value_error (img : Image) (w h bleed_size : Z) (bleed_mode : string) :
  (w + 2 * bleed_size < 0)%Z \/ (h + 2 * bleed_size < 0)%Z \/
  (bleed_mode <> "repeat"%string /\ bleed_mode <> "mirror"%string) ->
  _create_new_image_with_bleed img w h bleed_size bleed_mode = Raise ValueError.
Proof.
  intros H. unfold _create_new_image_with_bleed, new_white.
  destruct (Z.ltb_spec (w + 2 * bleed_size) 0) as [|Hw0]; [reflexivity|].
  destruct (Z.ltb_spec (h + 2 * bleed_size) 0) as [|Hh0]; [reflexivity|].
  destruct H as [H | [H | [Hr Hm]]]; try lia.
  cbn [orb Py.bind].
  apply String.eqb_neq in Hr. apply String.eqb_neq in Hm. rewrite Hr, Hm. reflexivity.
Qed.

Lemma bleed_raises_value_error_witness :
  _create_new_image_with_bleed (white_image 2 2) 2 2 1 "Repeat"%string = Raise ValueError.
Proof.
  apply (bleed_raises_value_error (white_image 2 2) 2 2 1 "Repeat"%string).
  right. right. split; discriminate.
Defined.

(** X4: with a bleed size of zero, both modes return a raster of the
    size of the source that holds the source pixel for pixel. *)
Theorem zero_bleed_returns_the_source (img : Image) (w h : Z) (bleed_mode : string) :
  PIL.width img = w -> PIL.height img = h ->
  (0 <= w)%Z -> (0 <= h)%Z ->
  bleed_mode = "repeat"%string \/ bleed_mode = "mirror"%string ->
  exists new_img new_width new_height,
    _create_new_image_with_bleed img w h 0 bleed_mode
    = Ok (new_img, new_width, new_height) /\
    new_width = w /\ new_height = h /\
    PIL.width new_img = w /\ PIL.height new_img = h /\
    forall x y, (0 <= x < w)%Z -> (0 <= y < h)%Z -> pixel new_img x y = pixel img x y.
Proof.
  intros Hw Hh Hw0 Hh0 [-> | ->];
    unfold _create_new_image_with_bleed;
    rewrite new_white_ok by lia; cbn [Py.bind String.eqb Ascii.eqb Bool.eqb].
  - unfold _add_repeat_bleed. cbn [range range2 Z.sub Z.opp Z.to_nat List.seq map for_each Py.bind].
    do 3 eexists. split; [reflexivity|].
    split; [lia|]. split; [lia|].
    split; [rewrite paste_width; cbn [PIL.width]; lia|].
    split; [rewrite paste_height; cbn [PIL.height]; lia|].
    intros x y Hx Hy. paste_hits. f_equal; lia.
  - unfold _add_mirror_bleed. rewrite !crop_ok by lia. cbn [Py.bind].
    do 3 eexists. split; [reflexivity|].
    split; [lia|]. split; [lia|].
    split; [rewrite !paste_width; cbn [PIL.width]; lia|].
    split; [rewrite !paste_height; cbn [PIL.height]; lia|].
    intros x y Hx Hy. do 4 paste_misses. paste_hits. f_equal; lia.
Qed.

Lemma zero_bleed_returns_the_source_witness :
  exists new_img new_width new_height,
    _create_new_image_with_bleed (coordinate_image 4 3) 4 3 0 "mirror"%string
    = Ok (new_img, new_width, new_height) /\
    new_width = 4%Z /\ new_height = 3%Z /\
    PIL.width new_img = 4%Z /\ PIL.height new_img = 3%Z /\
    forall x y, (0 <= x < 4)%Z -> (0 <= y < 3)%Z ->
                pixel new_img x y = pixel (coordinate_image 4 3) x y.
Proof.
  apply (zero_bleed_returns_the_source (coordinate_image 4 3) 4 3 "mirror"%string);
    first [reflexivity | lia | now right].
Defined.

Section RepeatCornerFacts.

Local Open Scope Z_scope.

Variable img : Image.
Variables w h bleed_size : Z.
Hypothesis Hw : PIL.width img = w.
Hypothesis Hh : PIL.height img = h.
Hypothesis Hw1 : 1 <= w.
Hypothesis Hh1 : 1 <= h.
Hypothesis Hb : 0 <= bleed_size.

Let sized := Trace.sized w h bleed_size.

Ltac open_repeat_step new_img i :=
  destruct (repeat_step_ok img w h bleed_size Hw1 Hh1 new_img i)
    as (s1 & s2 & s3 & s4 & s5 & s6 & s7 & s8 &
        E1 & E2 & E3 & E4 & E5 & E6 & E7 & E8 & Estep);
  rewrite crop_ok in E1, E2, E3, E4, E5, E6, E7, E8 by lia;
  injection E1 as <-; injection E2 as <-; injection E3 as <-; injection E4 as <-;
  injection E5 as <-; injection E6 as <-; injection E7 as <-; injection E8 as <-;
  eexists; split; [exact Estep|];
  split; [split; rewrite ?paste_width, ?paste_height; assumption|].

Ltac misses := rewrite paste_outside by (cbn [PIL.width PIL.height]; lia).

Ltac corner_pixel :=
  rewrite paste_inside
    by (rewrite ?paste_width, ?paste_height; cbn [PIL.width PIL.height]; lia);
  cbn [pixel];
  match goal with
  | |- context [within ?a ?b ?c ?d] =>
      replace (within a b c d) with true by (symmetry; apply within_true; lia)
  end;
  f_equal; lia.

Ltac corner_case i k1 k2 :=
  destruct (Z.eqb_spec i k1) as [-> | Hne1]; cbn [andb];
  [ destruct (Z.eqb_spec k1 k2) as [-> | Hne2];
    [ corner_pixel | misses; repeat misses; reflexivity ]
  | misses; repeat misses; reflexivity ].

(** One iteration leaves the pasted source alone. *)
Lemma repeat_step_centre new_img i x y :
  sized new_img -> 0 <= i -> 0 <= x < w -> 0 <= y < h ->
  exists new_img',
    repeat_step img w h bleed_size new_img i = Ok new_img' /\ sized new_img' /\
    pixel new_img' (bleed_size + x) (bleed_size + y)
    = pixel new_img (bleed_size + x) (bleed_size + y).
Proof.
  intros [Sw Sh] Hi Hx Hy. open_repeat_step new_img i.
  do 8 misses. reflexivity.
Qed.

(** What one iteration does to a pixel of each corner square. *)
Lemma repeat_step_top_left new_img i k1 k2 :
  sized new_img -> 0 <= i -> 0 <= k1 < bleed_size -> 0 <= k2 < bleed_size ->
  exists new_img',
    repeat_step img w h bleed_size new_img i = Ok new_img' /\ sized new_img' /\
    pixel new_img' (bleed_size - 1 - k1) (bleed_size - 1 - k2)
    = if (i =? k1) && (i =? k2) then pixel img 0 0
      else pixel new_img (bleed_size - 1 - k1) (bleed_size - 1 - k2).
Proof.
  intros [Sw Sh] Hi Hk1 Hk2. open_repeat_step new_img i.
  do 3 misses. corner_case i k1 k2.
Qed.

Lemma repeat_step_top_right new_img i k1 k2 :
  sized new_img -> 0 <= i -> 0 <= k1 < bleed_size -> 0 <= k2 < bleed_size ->
  exists new_img',
    repeat_step img w h bleed_size new_img i = Ok new_img' /\ sized new_img' /\
    pixel new_img' (bleed_size + w + k1) (bleed_size - 1 - k2)
    = if (i =? k1) && (i =? k2) then pixel img (w - 1) 0
      else pixel new_img (bleed_size + w + k1) (bleed_size - 1 - k2).
Proof.
  intros [Sw Sh] Hi Hk1 Hk2. open_repeat_step new_img i.
  do 2 misses. corner_case i k1 k2.
Qed.

Lemma repeat_step_bottom_left new_img i k1 k2 :
  sized new_img -> 0 <= i -> 0 <= k1 < bleed_size -> 0 <= k2 < bleed_size ->
  exists new_img',
    repeat_step img w h bleed_size new_img i = Ok new_img' /\ sized new_img' /\
    pixel new_img' (bleed_size - 1 - k1) (bleed_size + h + k2)
    = if (i =? k1) && (i =? k2) then pixel img 0 (h - 1)
      else pixel new_img (bleed_size - 1 - k1) (bleed_size + h + k2).
Proof.
  intros [Sw Sh] Hi Hk1 Hk2. open_repeat_step new_img i.
  do 1 misses. corner_case i k1 k2.
Qed.

Lemma repeat_step_bottom_right new_img i k1 k2 :
  sized new_img -> 0 <= i -> 0 <= k1 < bleed_size -> 0 <= k2 < bleed_size ->
  exists new_img',
    repeat_step img w h bleed_size new_img i = Ok new_img' /\ sized new_img' /\
    pixel new_img' (bleed_size + w + k1) (bleed_size + h + k2)
    = if (i =? k1) && (i =? k2) then pixel img (w - 1) (h - 1)
      else pixel new_img (bleed_size + w + k1) (bleed_size + h + k2).
Proof.
  intros [Sw Sh] Hi Hk1 Hk2. open_repeat_step new_img i.
  corner_case i k1 k2.
Qed.

End RepeatCornerFacts.

Section LoopHitFacts.

Local Open Scope Z_scope.

Variable body : Image -> Z -> Outcome Image.
Variable Inv : Image -> Prop.
Variables (x y : Z) (v : RGB).
Variable hit : Z -> bool.

(** If every turn [i >= 0] of a loop keeps [Inv], writes [v] at
    [(x, y)] when [hit i] and leaves that pixel alone otherwise, the loop
    ends with [v] there if some turn hit, with the old value if none. *)
Lemma for_each_hits l :
  (forall new_img i,
      Inv new_img -> 0 <= i ->
      exists new_img',
        body new_img i = Ok new_img' /\ Inv new_img' /\
        pixel new_img' x y = if hit i then v else pixel new_img x y) ->
  Forall (fun i => 0 <= i) l ->
  forall new_img,
    Inv new_img ->
    exists new_img',
      for_each body l new_img = Ok new_img' /\ Inv new_img' /\
      pixel new_img' x y = if existsb hit l then v else pixel new_img x y.
Proof.
  intros Hbody. induction l as [|i l IH]; intros Hl new_img HI.
  - exists new_img. repeat split; assumption || reflexivity.
  - inversion Hl as [|? ? Hi Hl']; subst.
    destruct (Hbody new_img i HI Hi) as (d1 & E1 & I1 & P1).
    destruct (IH Hl' d1 I1) as (d2 & E2 & I2 & P2).
    exists d2. cbn [for_each]. rewrite E1. cbn [Py.bind].
    repeat split; try assumption.
    rewrite P2, P1. cbn [existsb].
    destruct (hit i); cbn [orb]; [|reflexivity].
    now destruct (existsb hit l).
Qed.

End LoopHitFacts.

Lemma diagonal_met (k1 k2 n : Z) :
  (0 <= k1 < n)%Z ->
  existsb (fun i => (i =? k1)%Z && (i =? k2)%Z) (range n) = (k1 =? k2)%Z.
Proof.
  intros Hk. destruct (Z.eqb_spec k1 k2) as [-> | Hne].
  - apply existsb_exists. exists k2. rewrite Z.eqb_refl. split; [|reflexivity].
    apply range2_In. lia.
  - destruct (existsb _ (range n)) eqn:E; [|reflexivity].
    apply existsb_exists in E. destruct E as (i & _ & Hi).
    apply andb_true_iff in Hi. destruct Hi as [H1 H2].
    apply Z.eqb_eq in H1, H2. congruence.
Qed.

Lemma never_met (n : Z) : existsb (fun _ : Z => false) (range n) = false.
Proof. induction (range n); cbn; auto. Qed.

Lemma repeat_bleed_source (img : Image) (w h bleed_size : Z) :
  PIL.width img = w -> PIL.height img = h ->
  (1 <= w)%Z -> (1 <= h)%Z -> (0 <= bleed_size)%Z ->
  exists new_img,
    _create_new_image_with_bleed img w h bleed_size "repeat"%string
    = Ok (new_img, w + 2 * bleed_size, h + 2 * bleed_size)%Z /\
    PIL.width new_img = (w + 2 * bleed_size)%Z /\
    PIL.height new_img = (h + 2 * bleed_size)%Z /\
    forall x y, (0 <= x < w)%Z -> (0 <= y < h)%Z ->
                pixel new_img (bleed_size + x) (bleed_size + y) = pixel img x y.
Proof.
  intros Hw Hh Hw1 Hh1 Hb.
  unfold _create_new_image_with_bleed.
  rewrite new_white_ok by lia. cbn [Py.bind String.eqb Ascii.eqb Bool.eqb].
  unfold _add_repeat_bleed.
  set (start := paste _ img (bleed_size, bleed_size)).
  assert (Hstart : sized w h bleed_size start) by (split; reflexivity).
  destruct (repeat_loop_total img w h bleed_size Hw1 Hh1 (range bleed_size) start Hstart)
    as (new_img & Erun & [Sw Sh]).
  exists new_img. rewrite Erun. cbn [Py.bind].
  split; [reflexivity|]. split; [exact Sw|]. split; [exact Sh|].
  intros x y Hx Hy.
  destruct (for_each_hits (repeat_step img w h bleed_size) (sized w h bleed_size)
              (bleed_size + x) (bleed_size + y) white (fun _ => false) (range bleed_size))
    with (new_img := start) as (d & E & _ & P);
    [ | apply range_nonneg | exact Hstart | ].
  { intros; apply repeat_step_centre; assumption || lia. }
  rewrite Erun in E. injection E as <-. rewrite P, never_met.
  unfold start. paste_hits. f_equal; lia.
Qed.


Lemma mirror_bleed_source (img : Image) (w h bleed_size : Z) :
  PIL.width img = w -> PIL.height img = h ->
  (0 <= w)%Z -> (0 <= h)%Z -> (0 <= bleed_size)%Z ->
  exists new_img,
    _create_new_image_with_bleed img w h bleed_size "mirror"%string
    = Ok (new_img, w + 2 * bleed_size, h + 2 * bleed_size)%Z /\
    PIL.width new_img = (w + 2 * bleed_size)%Z /\
    PIL.height new_img = (h + 2 * bleed_size)%Z /\
    forall x y, (0 <= x < w)%Z -> (0 <= y < h)%Z ->
                pixel new_img (bleed_size + x) (bleed_size + y) = pixel img x y.
Proof.
  intros Hw Hh Hw0 Hh0 Hb.
  unfold _create_new_image_with_bleed.
  rewrite new_white_ok by lia. cbn [Py.bind String.eqb Ascii.eqb Bool.eqb].
  unfold _add_mirror_bleed.
  rewrite !crop_ok by lia. cbn [Py.bind].
  eexists. split; [reflexivity|]. split; [reflexivity|]. split; [reflexivity|].
  intros x y Hx Hy.
  do 4 paste_misses. paste_hits.
  f_equal; lia.
Qed.

(** X5: in repeat mode, for a source of at least one pixel each way and
    a bleed size of at least zero, the raster returned has the size
    [(w + 2 * bleed_size, h + 2 * bleed_size)] it is announced with and
    holds the source unchanged at offset [(bleed_size, bleed_size)]. *)
Theorem repeat_bleed_keeps_the_source (img : Image) (w h bleed_size : Z) :
  PIL.width img = w -> PIL.height img = h ->
  (1 <= w)%Z -> (1 <= h)%Z -> (0 <= bleed_size)%Z ->
  exists new_img,
    _create_new_image_with_bleed img w h bleed_size "repeat"%string
    = Ok (new_img, w + 2 * bleed_size, h + 2 * bleed_size)%Z /\
    PIL.width new_img = (w + 2 * bleed_size)%Z /\
    PIL.height new_img = (h + 2 * bleed_size)%Z /\
    forall x y, (0 <= x < w)%Z -> (0 <= y < h)%Z ->
                pixel new_img (bleed_size + x) (bleed_size + y) = pixel img x y.
Proof.
  intros Hw Hh Hw1 Hh1 Hb.
  unfold _create_new_image_with_bleed.
  rewrite new_white_ok by lia. cbn [Py.bind String.eqb Ascii.eqb Bool.eqb].
  unfold _add_repeat_bleed.
  set (start := paste _ img (bleed_size, bleed_size)).
  assert (Hstart : sized w h bleed_size start) by (split; reflexivity).
  destruct (repeat_loop_total img w h bleed_size Hw1 Hh1 (range bleed_size) start Hstart)
    as (new_img & Erun & [Sw Sh]).
  exists new_img. rewrite Erun. cbn [Py.bind].
  split; [reflexivity|]. split; [exact Sw|]. split; [exact Sh|].
  intros x y Hx Hy.
  destruct (for_each_hits (repeat_step img w h bleed_size) (sized w h bleed_size)
              (bleed_size + x) (bleed_size + y) white (fun _ => false) (range bleed_size))
    with (new_img := start) as (d & E & _ & P);
    [ | apply range_nonneg | exact Hstart | ].
  { intros; apply repeat_step_centre; assumption || lia. }
  rewrite Erun in E. injection E as <-. rewrite P, never_met.
  unfold start. paste_hits. f_equal; lia.
Qed.

Lemma repeat_bleed_keeps_the_source_witness :
  exists new_img,
    _create_new_image_with_bleed (coordinate_image 2 3) 2 3 2 "repeat"%string
    = Ok (new_img, 2 + 2 * 2, 3 + 2 * 2)%Z /\
    PIL.width new_img = (2 + 2 * 2)%Z /\
    PIL.height new_img = (3 + 2 * 2)%Z /\
    forall x y, (0 <= x < 2)%Z -> (0 <= y < 3)%Z ->
                pixel new_img (2 + x) (2 + y) = pixel (coordinate_image 2 3) x y.
Proof.
  apply (repeat_bleed_keeps_the_source (coordinate_image 2 3) 2 3 2);
    first [reflexivity | lia].
Defined.

(** X6: in repeat mode each corner square of the border receives the
    nearest corner pixel of the source on its diagonal only (the pixels
    at equal distance from the two adjacent strips); every other pixel
    of the corner squares keeps the white background. *)
Theorem repeat_bleed_corners_are_diagonal (img : Image) (w h bleed_size : Z) :
  PIL.width img = w -> PIL.height img = h ->
  (1 <= w)%Z -> (1 <= h)%Z -> (0 <= bleed_size)%Z ->
  exists new_img,
    _create_new_image_with_bleed img w h bleed_size "repeat"%string
    = Ok (new_img, w + 2 * bleed_size, h + 2 * bleed_size)%Z /\
    forall i j, (0 <= i < bleed_size)%Z -> (0 <= j < bleed_size)%Z ->
      pixel new_img (bleed_size - 1 - i) (bleed_size - 1 - j)
      = (if (i =? j)%Z then pixel img 0 0 else white) /\
      pixel new_img (bleed_size + w + i) (bleed_size - 1 - j)
      = (if (i =? j)%Z then pixel img (w - 1) 0 else white) /\
      pixel new_img (bleed_size - 1 - i) (bleed_size + h + j)
      = (if (i =? j)%Z then pixel img 0 (h - 1) else white) /\
      pixel new_img (bleed_size + w + i) (bleed_size + h + j)
      = (if (i =? j)%Z then pixel img (w - 1) (h - 1) else white).
Proof.
  intros Hw Hh Hw1 Hh1 Hb.
  unfold _create_new_image_with_bleed.
  rewrite new_white_ok by lia. cbn [Py.bind String.eqb Ascii.eqb Bool.eqb].
  unfold _add_repeat_bleed.
  set (start := paste _ img (bleed_size, bleed_size)).
  assert (Hstart : sized w h bleed_size start) by (split; reflexivity).
  destruct (repeat_loop_total img w h bleed_size Hw1 Hh1 (range bleed_size) start Hstart)
    as (new_img & Erun & _).
  exists new_img. rewrite Erun. cbn [Py.bind]. split; [reflexivity|].
  intros i j Hi Hj.
  pose proof (range_nonneg bleed_size) as Hnn.
  pose proof (diagonal_met i j bleed_size Hi) as Hdiag.
  repeat split.
  - destruct (for_each_hits (repeat_step img w h bleed_size) (sized w h bleed_size)
                (bleed_size - 1 - i) (bleed_size - 1 - j) (pixel img 0 0)
                (fun t => (t =? i) && (t =? j))%Z (range bleed_size))
      with (new_img := start) as (d & E & _ & P); try assumption.
    { intros; apply repeat_step_top_left; assumption || lia. }
    rewrite Erun in E. injection E as <-. rewrite P, Hdiag.
    destruct (i =? j)%Z; [reflexivity|]. unfold start. paste_misses. reflexivity.
  - destruct (for_each_hits (repeat_step img w h bleed_size) (sized w h bleed_size)
                (bleed_size + w + i) (bleed_size - 1 - j) (pixel img (w - 1) 0)
                (fun t => (t =? i) && (t =? j))%Z (range bleed_size))
      with (new_img := start) as (d & E & _ & P); try assumption.
    { intros; apply repeat_step_top_right; assumption || lia. }
    rewrite Erun in E. injection E as <-. rewrite P, Hdiag.
    destruct (i =? j)%Z; [reflexivity|]. unfold start. paste_misses. reflexivity.
  - destruct (for_each_hits (repeat_step img w h bleed_size) (sized w h bleed_size)
                (bleed_size - 1 - i) (bleed_size + h + j) (pixel img 0 (h - 1))
                (fun t => (t =? i) && (t =? j))%Z (range bleed_size))
      with (new_img := start) as (d & E & _ & P); try assumption.
    { intros; apply repeat_step_bottom_left; assumption || lia. }
    rewrite Erun in E. injection E as <-. rewrite P, Hdiag.
    destruct (i =? j)%Z; [reflexivity|]. unfold start. paste_misses. reflexivity.
  - destruct (for_each_hits (repeat_step img w h bleed_size) (sized w h bleed_size)
                (bleed_size + w + i) (bleed_size + h + j) (pixel img (w - 1) (h - 1))
                (fun t => (t =? i) && (t =? j))%Z (range bleed_size))
      with (new_img := start) as (d & E & _ & P); try assumption.
    { intros; apply repeat_step_bottom_right; assumption || lia. }
    rewrite Erun in E. injection E as <-. rewrite P, Hdiag.
    destruct (i =? j)%Z; [reflexivity|]. unfold start. paste_misses. reflexivity.
Qed.

Lemma repeat_bleed_corners_are_diagonal_witness :
  exists new_img,
    _create_new_image_with_bleed (coordinate_image 2 3) 2 3 2 "repeat"%string
    = Ok (new_img, 2 + 2 * 2, 3 + 2 * 2)%Z /\
    forall i j, (0 <= i < 2)%Z -> (0 <= j < 2)%Z ->
      pixel new_img (2 - 1 - i) (2 - 1 - j)
      = (if (i =? j)%Z then pixel (coordinate_image 2 3) 0 0 else white) /\
      pixel new_img (2 + 2 + i) (2 - 1 - j)
      = (if (i =? j)%Z then pixel (coordinate_image 2 3) (2 - 1) 0 else white) /\
      pixel new_img (2 - 1 - i) (2 + 3 + j)
      = (if (i =? j)%Z then pixel (coordinate_image 2 3) 0 (3 - 1) else white) /\
      pixel new_img (2 + 2 + i) (2 + 3 + j)
      = (if (i =? j)%Z then pixel (coordinate_image 2 3) (2 - 1) (3 - 1) else white).
Proof.
  apply (repeat_bleed_corners_are_diagonal (coordinate_image 2 3) 2 3 2);
    first [reflexivity | lia].
Defined.

(* ================================================================== *)
(** * Further properties of the line rasteriser                         *)
(* ================================================================== *)

Section ExactFacts.

Local Open Scope Z_scope.

Lemma emit_nil d : Stamp.emit [] d = d.
Proof.
  destruct d as [im log]. unfold Stamp.emit. cbn. now rewrite app_nil_r.
Qed.

Lemma emit_app a b d : Stamp.emit (a ++ b) d = Stamp.emit b (Stamp.emit a d).
Proof.
  unfold Stamp.emit. cbn [_image point_calls]. now rewrite paint_app, app_assoc.
Qed.

Lemma map_flat_map {A B C} (g : B -> C) (f : A -> list B) l :
  map g (flat_map f l) = flat_map (fun a => map g (f a)) l.
Proof.
  induction l as [|a l IH]; cbn; [reflexivity|]. now rewrite map_app, IH.
Qed.

(** A loop whose turns make the calls [f i] makes them one after the
    other. *)
Lemma for_in_emit l (body : Z -> DrawM unit) (f : Z -> list (Z * Z * RGB)) :
  (forall i, In i l -> forall d, body i d = (Ok tt, Stamp.emit (f i) d)) ->
  forall d, for_in l body d = (Ok tt, Stamp.emit (flat_map f l) d).
Proof.
  induction l as [|i l IH]; intros Hbody d; cbn [for_in flat_map].
  - unfold ret. now rewrite emit_nil.
  - unfold Line.bind. rewrite (Hbody i (or_introl eq_refl)).
    rewrite IH by (intros j Hj; apply Hbody; now right).
    now rewrite emit_app.
Qed.

Lemma last_cons {A} (a : A) l d : l <> [] -> last (a :: l) d = last l d.
Proof. destruct l; [congruence | reflexivity]. Qed.

Variable temp_img : Image.
Variable color : Color.
Variable width : Z.

Let W := PIL.width temp_img.
Let H := PIL.height temp_img.

Lemma chosen_color_exact px py d :
  within px py W H = true ->
  chosen_color temp_img color px py d = (Ok (Stamp.colour temp_img color (px, py)), d).
Proof.
  intros Hin. unfold chosen_color, Stamp.colour. destruct color as [|c0]; [|reflexivity].
  unfold Line.bind, lift. rewrite (getpixel_within _ _ _ Hin). cbn [fst snd].
  now destruct (pixel temp_img px py) as [[r g] b].
Qed.

(** On a buffer of the size stated, a visit makes exactly the calls of
    [Stamp.calls], in this order, and returns. *)
Lemma visit_exact x y d :
  visit temp_img W H color width x y d
  = (Ok tt, Stamp.emit (Stamp.calls temp_img color W H width (x, y)) d).
Proof.
  unfold visit, Stamp.calls, Stamp.cells.
  destruct (within x y W H); [|cbn [map]; unfold ret; now rewrite emit_nil].
  unfold stamp. rewrite map_flat_map.
  apply for_in_emit. intros i _ d1.
  rewrite map_flat_map. apply for_in_emit. intros j _ d2.
  destruct (within (x + i) (y + j) W H) eqn:Hin;
    [|cbn [map]; unfold ret; now rewrite emit_nil].
  unfold Line.bind. rewrite (chosen_color_exact _ _ _ Hin). reflexivity.
Qed.

Variables x2 y2 dx dy sx sy : Z.

(** A run of the loop that returns made the calls of the centres it
    visited, ended at the end point, and visits the same centres with
    any larger fuel. *)
Lemma line_loop_exact fuel :
  forall x1 y1 err d d',
    line_loop temp_img x2 y2 W H color width dx dy sx sy fuel x1 y1 err d = (Ok tt, d') ->
    d' = Stamp.emit (flat_map (Stamp.calls temp_img color W H width)
                              (centres x2 y2 dx dy sx sy fuel x1 y1 err)) d /\
    (forall p, last (centres x2 y2 dx dy sx sy fuel x1 y1 err) p = (x2, y2)) /\
    forall fuel', (fuel <= fuel')%nat ->
                  centres x2 y2 dx dy sx sy fuel' x1 y1 err
                  = centres x2 y2 dx dy sx sy fuel x1 y1 err.
Proof.
  induction fuel as [|fuel IH]; intros x1 y1 err d d' Hrun; [discriminate|].
  cbn [line_loop] in Hrun. unfold Line.bind in Hrun. rewrite visit_exact in Hrun.
  cbn [centres].
  destruct ((x1 =? x2) && (y1 =? y2)) eqn:Hend.
  - injection Hrun as <-. cbn [flat_map last]. rewrite app_nil_r.
    apply andb_true_iff in Hend. destruct Hend as [Hx Hy].
    apply Z.eqb_eq in Hx, Hy. subst. repeat split.
    intros [|fuel'] Hle; [lia|]. cbn [centres]. now rewrite !Z.eqb_refl.
  - destruct (advance dx dy sx sy x1 y1 err) as [[x1' y1'] err'] eqn:Hadv.
    destruct (IH _ _ _ _ _ Hrun) as (-> & Hlast & Hstable).
    repeat split.
    + cbn [flat_map]. now rewrite emit_app.
    + intros p. rewrite last_cons; [apply Hlast|].
      destruct fuel as [|fuel]; [discriminate Hrun | cbn [centres]; discriminate].
    + intros [|fuel'] Hle; [lia|]. cbn [centres]. rewrite Hend, Hadv.
      f_equal. apply Hstable. lia.
Qed.

End ExactFacts.

Section PathFacts.

Local Open Scope Z_scope.

Variables x2 y2 dx dy sx sy : Z.
Hypothesis Hsx : Z.abs sx <= 1.
Hypothesis Hsy : Z.abs sy <= 1.

Lemma advance_adjacent x y err x' y' err' :
  advance dx dy sx sy x y err = (x', y', err') -> Stamp.adjacent (x, y) (x', y').
Proof.
  unfold advance, Stamp.adjacent.
  destruct (Qltb (- inject_Z dx) err), (Qltb err (inject_Z dy));
    intros [= <- <- <-]; cbn [fst snd]; lia.
Qed.

Lemma centres_connected fuel :
  forall x y err, Stamp.connected (centres x2 y2 dx dy sx sy fuel x y err).
Proof.
  induction fuel as [|fuel IH]; intros x y err; [exact I|].
  cbn [centres]. destruct ((x =? x2) && (y =? y2)); [exact I|].
  destruct (advance dx dy sx sy x y err) as [[x' y'] err'] eqn:Hadv.
  specialize (IH x' y' err'). destruct fuel as [|fuel]; [exact I|].
  cbn [centres] in *. split; [|exact IH].
  eapply advance_adjacent; eassumption.
Qed.

Lemma centres_length fuel :
  forall x y err, (List.length (centres x2 y2 dx dy sx sy fuel x y err) <= fuel)%nat.
Proof.
  induction fuel as [|fuel IH]; intros x y err; [apply Nat.le_refl|].
  cbn [centres List.length]. destruct ((x =? x2) && (y =? y2)); cbn [List.length]; [lia|].
  destruct (advance dx dy sx sy x y err) as [[x' y'] err'].
  specialize (IH x' y' err'). lia.
Qed.

End PathFacts.

Lemma last_default {A} (l : list A) d d' : l <> [] -> last l d = last l d'.
Proof.
  induction l as [|a l IH]; intros Hne; [congruence|].
  destruct l as [|b l]; [reflexivity|]. rewrite !(last_cons a) by discriminate.
  apply IH. discriminate.
Qed.

(** A connected path spans no more, along either axis, than it has
    steps. *)
Lemma connected_span (path : list (Z * Z)) :
  forall p q,
    Stamp.connected (p :: path) -> last (p :: path) p = q ->
    (Z.abs (fst q - fst p) <= Z.of_nat (List.length path))%Z /\
    (Z.abs (snd q - snd p) <= Z.of_nat (List.length path))%Z.
Proof.
  induction path as [|r path IH]; intros p q Hc Hlast.
  - cbn in Hlast. subst q. cbn [List.length]. lia.
  - destruct Hc as [[Hx Hy] Hc].
    rewrite last_cons in Hlast by discriminate.
    assert (Hlast' : last (r :: path) r = q).
    { rewrite <- Hlast. cbn [last]. destruct path; [reflexivity|].
      apply last_default. discriminate. }
    destruct (IH r q Hc Hlast') as [Hx' Hy'].
    cbn [List.length]. lia.
Qed.

(** The loop of [_draw_line], run on an empty buffer, as a certificate
    that the end point is reached within [line_fuel] visits. *)
Lemma line_centres_arrive fuel x1 y1 x2 y2 :
  (line_fuel x1 y1 x2 y2 <= fuel)%nat ->
  (forall p, last (line_centres fuel x1 y1 x2 y2) p = (x2, y2)) /\
  line_centres fuel x1 y1 x2 y2
  = line_centres (line_fuel x1 y1 x2 y2) x1 y1 x2 y2.
Proof.
  intros Hfuel.
  destruct (draw_line_finishes (line_fuel x1 y1 x2 y2) (Draw (white_image 0 0))
              x1 y1 x2 y2 (Fixed black) 0 (Nat.le_refl _)) as [d' Hrun].
  unfold _draw_line in Hrun. cbn [_image Draw] in Hrun.
  apply line_loop_exact in Hrun. destruct Hrun as (_ & Hlast & Hstable).
  unfold line_centres. split.
  - intros p. rewrite (Hstable fuel Hfuel). apply Hlast.
  - apply Hstable. exact Hfuel.
Qed.

(** X7: the centres [_draw_line] steps through form a connected path
    (each is a neighbour of the next, diagonally or along an axis) from
    [(x1, y1)] to [(x2, y2)] of exactly [max(dx, dy) + 1] points. *)
Theorem line_path_joins_the_end_points (fuel : nat) (x1 y1 x2 y2 : Z) :
  (line_fuel x1 y1 x2 y2 <= fuel)%nat ->
  let path := line_centres fuel x1 y1 x2 y2 in
  hd_error path = Some (x1, y1) /\
  last path (x1, y1) = (x2, y2) /\
  List.length path = S (Z.to_nat (Z.max (Z.abs (x2 - x1)) (Z.abs (y2 - y1)))) /\
  Stamp.connected path.
Proof.
  intros Hfuel path.
  destruct (line_centres_arrive fuel x1 y1 x2 y2 Hfuel) as [Hlast Hstable].
  assert (Hconn : Stamp.connected path).
  { unfold path, line_centres. apply centres_connected.
    - destruct (x1 <? x2)%Z; cbn; lia.
    - destruct (y1 <? y2)%Z; cbn; lia. }
  assert (Hhead : exists rest, path = (x1, y1) :: rest).
  { unfold path, line_centres. unfold line_fuel in Hfuel.
    destruct fuel as [|fuel]; [lia|]. cbn [centres]. eexists. reflexivity. }
  destruct Hhead as [rest Hrest].
  repeat split.
  - now rewrite Hrest.
  - apply Hlast.
  - apply Nat.le_antisymm.
    + unfold path. rewrite Hstable. unfold line_centres.
      apply (centres_length x2 y2 _ _ _ _ (line_fuel x1 y1 x2 y2)).
    + pose proof (Hlast (x1, y1)) as Hl. fold path in Hl. rewrite Hrest in Hl, Hconn.
      destruct (connected_span rest (x1, y1) (x2, y2) Hconn Hl) as [Hx Hy].
      cbn [fst snd] in Hx, Hy. rewrite Hrest. cbn [List.length]. lia.
  - exact Hconn.
Qed.

Lemma line_path_joins_the_end_points_witness :
  hd_error (line_centres 8 0 0 7 3) = Some (0, 0)%Z /\
  last (line_centres 8 0 0 7 3) (0, 0)%Z = (7, 3)%Z /\
  List.length (line_centres 8 0 0 7 3)
  = S (Z.to_nat (Z.max (Z.abs (7 - 0)) (Z.abs (3 - 0)))) /\
  Stamp.connected (line_centres 8 0 0 7 3).
Proof.
  apply (line_path_joins_the_end_points 8 0 0 7 3). vm_compute. lia.
Defined.

(** X8: on a buffer of the size stated, [_draw_line] returns and makes
    exactly the [draw.point] calls of the stamps of the centres of its
    path, one centre after the other: for a centre outside the buffer
    none, for a centre inside one call for each pixel of its stamp that
    lies inside the buffer, with the fixed colour or the inverse of the
    pixel's value before the call. *)
Theorem draw_line_paints_clipped_stamps
        (fuel : nat) (draw : ImageDraw) (x1 y1 x2 y2 : Z) (color : Color) (width : Z) :
  let img := _image draw in
  (line_fuel x1 y1 x2 y2 <= fuel)%nat ->
  _draw_line fuel draw x1 y1 x2 y2 (PIL.width img) (PIL.height img) color width
  = (Ok tt,
     Stamp.emit
       (flat_map (Stamp.calls img color (PIL.width img) (PIL.height img) width)
                 (line_centres fuel x1 y1 x2 y2))
       draw).
Proof.
  intros img Hfuel.
  destruct (draw_line_finishes fuel draw x1 y1 x2 y2 color width Hfuel) as [d' Hrun].
  fold img in Hrun. rewrite Hrun. f_equal.
  unfold _draw_line in Hrun. fold img in Hrun.
  apply line_loop_exact in Hrun. destruct Hrun as (-> & _ & _). reflexivity.
Qed.

Lemma draw_line_paints_clipped_stamps_witness :
  _draw_line 3 (Draw (white_image 4 4)) 1 1 3 2 4 4 Inverted 2
  = (Ok tt,
     Stamp.emit
       (flat_map (Stamp.calls (white_image 4 4) Inverted 4 4 2) (line_centres 3 1 1 3 2))
       (Draw (white_image 4 4))).
Proof.
  apply (draw_line_paints_clipped_stamps 3 (Draw (white_image 4 4)) 1 1 3 2 Inverted 2).
  vm_compute. lia.
Defined.

Section CellFacts.

Local Open Scope Z_scope.

Lemma cells_spec W H width cx cy px py :
  In (px, py) (Stamp.cells W H width (cx, cy)) <->
  within cx cy W H = true /\ within px py W H = true /\
  in_stamp width cx px /\ in_stamp width cy py.
Proof.
  unfold Stamp.cells, in_stamp.
  destruct (within cx cy W H) eqn:Hc.
  - rewrite in_flat_map. split.
    + intros (i & Hi & Hin). apply in_flat_map in Hin. destruct Hin as (j & Hj & Hin).
      apply range2_In in Hi. apply range2_In in Hj.
      destruct (within (cx + i) (cy + j) W H) eqn:Hw; [|destruct Hin].
      destruct Hin as [[= <- <-] | []]. repeat split; try assumption; lia.
    + intros (_ & Hw & Hx & Hy). exists (px - cx). split; [apply range2_In; lia|].
      apply in_flat_map. exists (py - cy). split; [apply range2_In; lia|].
      replace (cx + (px - cx)) with px by lia. replace (cy + (py - cy)) with py by lia.
      rewrite Hw. now left.
  - split; [intros [] | intros (Hf & _); discriminate].
Qed.

Lemma calls_spec temp_img color W H width path px py c :
  In (px, py, c) (flat_map (Stamp.calls temp_img color W H width) path) <->
  In (px, py) (flat_map (Stamp.cells W H width) path) /\
  c = Stamp.colour temp_img color (px, py).
Proof.
  rewrite !in_flat_map. unfold Stamp.calls. split.
  - intros (centre & Hc & Hin). apply in_map_iff in Hin.
    destruct Hin as ([qx qy] & [= <- <- <-] & Hq). split; [|reflexivity].
    exists centre. auto.
  - intros ((centre & Hc & Hin) & ->). exists centre. split; [exact Hc|].
    apply in_map_iff. exists (px, py). auto.
Qed.

(** A pixel under some stamp of the path ends with the colour the code
    chooses for it; any other pixel keeps its value. *)
Lemma painted_pixel temp_img color width path img x y :
  let W := PIL.width img in
  let H := PIL.height img in
  In (x, y) (flat_map (Stamp.cells W H width) path) ->
  pixel (paint img (flat_map (Stamp.calls temp_img color W H width) path)) x y
  = Stamp.colour temp_img color (x, y).
Proof.
  intros W H Hin. apply paint_settled.
  - apply in_flat_map in Hin. destruct Hin as ([cx cy] & _ & Hin).
    now apply cells_spec in Hin.
  - intros c Hc. now apply calls_spec in Hc.
  - right. eexists. apply calls_spec. split; [exact Hin | reflexivity].
Qed.

Lemma unpainted_pixel temp_img color W H width path img x y :
  ~ In (x, y) (flat_map (Stamp.cells W H width) path) ->
  pixel (paint img (flat_map (Stamp.calls temp_img color W H width) path)) x y
  = pixel img x y.
Proof.
  intros Hno. apply paint_untouched. intros c Hc. apply Hno. now apply calls_spec in Hc.
Qed.

Lemma cell_eq_dec (p q : Z * Z) : {p = q} + {p <> q}.
Proof. decide equality; apply Z.eq_dec. Qed.

Lemma inverse_involutive c : Stamp.inverse (Stamp.inverse c) = c.
Proof. destruct c as [[r g] b]. unfold Stamp.inverse. repeat f_equal; lia. Qed.

Lemma length_flat_map_const {A B} (f : A -> list B) l n :
  (forall a, In a l -> List.length (f a) = n) ->
  List.length (flat_map f l) = (List.length l * n)%nat.
Proof.
  induction l as [|a l IH]; intros Hf; [reflexivity|].
  cbn [flat_map List.length]. rewrite length_app.
  rewrite (Hf a) by now left.
  rewrite IH by (intros b Hb; apply Hf; now right).
  reflexivity.
Qed.

Lemma stamp_side width :
  0 <= width -> (width + 1) / 2 - - (width / 2) = width.
Proof.
  intros Hw.
  pose proof (Z.div_mod width 2 ltac:(lia)).
  pose proof (Z.div_mod (width + 1) 2 ltac:(lia)).
  pose proof (Z.mod_pos_bound width 2 ltac:(lia)).
  pose proof (Z.mod_pos_bound (width + 1) 2 ltac:(lia)).
  lia.
Qed.

End CellFacts.

Lemma draw_line_exact fuel draw x1 y1 x2 y2 color width :
  (line_fuel x1 y1 x2 y2 <= fuel)%nat ->
  _draw_line fuel draw x1 y1 x2 y2 (PIL.width (_image draw)) (PIL.height (_image draw))
             color width
  = (Ok tt,
     Stamp.emit
       (flat_map (Stamp.calls (_image draw) color (PIL.width (_image draw))
                              (PIL.height (_image draw)) width)
                 (line_centres fuel x1 y1 x2 y2))
       draw).
Proof.
  intros Hfuel.
  destruct (draw_line_finishes fuel draw x1 y1 x2 y2 color width Hfuel) as [d' Hrun].
  rewrite Hrun. f_equal.
  unfold _draw_line in Hrun.
  apply line_loop_exact in Hrun. destruct Hrun as (-> & _ & _). reflexivity.
Qed.

Lemma last_in {A} (l : list A) d : l <> [] -> In (last l d) l.
Proof.
  induction l as [|a l IH]; intros Hne; [congruence|].
  destruct l as [|b l]; [now left|].
  rewrite last_cons by discriminate. right. apply IH. discriminate.
Qed.

(** The first and the last centre of the path. *)
Lemma line_centres_ends fuel x1 y1 x2 y2 :
  (line_fuel x1 y1 x2 y2 <= fuel)%nat ->
  In (x1, y1) (line_centres fuel x1 y1 x2 y2) /\
  In (x2, y2) (line_centres fuel x1 y1 x2 y2).
Proof.
  intros Hfuel.
  destruct (line_centres_arrive fuel x1 y1 x2 y2 Hfuel) as [Hlast _].
  assert (Hhead : exists rest, line_centres fuel x1 y1 x2 y2 = (x1, y1) :: rest).
  { unfold line_centres. unfold line_fuel in Hfuel.
    destruct fuel as [|fuel]; [lia|]. cbn [centres]. eexists. reflexivity. }
  destruct Hhead as [rest Hrest]. split.
  - rewrite Hrest. now left.
  - rewrite <- (Hlast (x1, y1)). apply last_in. rewrite Hrest. discriminate.
Qed.

Lemma centre_in_its_stamp width c : (1 <= width)%Z -> in_stamp width c c.
Proof.
  intros Hw. unfold in_stamp.
  assert (0 <= width / 2)%Z by (apply Z.div_pos; lia).
  assert (1 <= (width + 1) / 2)%Z by (apply Z.div_le_lower_bound; lia).
  lia.
Qed.

(** C4: drawing with the inverted colour on a buffer returns; its
    [draw.point] calls are those of the stamps along its path, so every
    pixel of the buffer under the stamp of a centre inside the buffer is
    painted, the two end points among them when they are inside the
    buffer and the stroke is at least one pixel wide; every painted
    pixel receives [(255 - r, 255 - g, 255 - b)] where [(r, g, b)] is the
    value the pixel had before the line began, however often the stamps
    of the line cover it; the other pixels keep their value.  So an
    inverted line on a pure white buffer paints pure black. *)
Theorem inverted_line_paints_inverse_of_snapshot
        (fuel : nat) (draw : ImageDraw) (x1 y1 x2 y2 : Z) (width : Z) :
  let img := _image draw in
  let W := PIL.width img in
  let H := PIL.height img in
  (line_fuel x1 y1 x2 y2 <= fuel)%nat ->
  exists draw' new,
    _draw_line fuel draw x1 y1 x2 y2 W H Inverted width = (Ok tt, draw') /\
    point_calls draw' = point_calls draw ++ new /\
    new = flat_map (Stamp.calls img Inverted W H width) (line_centres fuel x1 y1 x2 y2) /\
    (forall px py c,
        In (px, py, c) new ->
        exists r g b,
          pixel img px py = (r, g, b) /\
          c = (255 - r, 255 - g, 255 - b)%Z /\
          pixel (_image draw') px py = c) /\
    (forall px py,
        (forall c, ~ In (px, py, c) new) ->
        pixel (_image draw') px py = pixel img px py) /\
    (forall cx cy px py,
        In (cx, cy) (line_centres fuel x1 y1 x2 y2) ->
        within cx cy W H = true -> within px py W H = true ->
        in_stamp width cx px -> in_stamp width cy py ->
        exists c, In (px, py, c) new) /\
    ((1 <= width)%Z ->
     (within x1 y1 W H = true -> exists c, In (x1, y1, c) new) /\
     (within x2 y2 W H = true -> exists c, In (x2, y2, c) new)) /\
    ((forall x y, pixel img x y = white) ->
     (forall px py c, In (px, py, c) new ->
                      c = black /\ pixel (_image draw') px py = black) /\
     ((1 <= width)%Z -> within x1 y1 W H = true ->
      pixel (_image draw') x1 y1 = black)).
Proof.
  intros img W H Hfuel.
  pose proof (draw_line_exact fuel draw x1 y1 x2 y2 Inverted width Hfuel) as Hrun.
  fold img W H in Hrun.
  set (path := line_centres fuel x1 y1 x2 y2) in *.
  set (new := flat_map (Stamp.calls img Inverted W H width) path) in *.
  assert (Hcall : forall px py c,
             In (px, py, c) new ->
             c = Stamp.inverse (pixel img px py) /\
             pixel (paint img new) px py = c).
  { intros px py c Hc. apply calls_spec in Hc. destruct Hc as [Hin ->].
    split; [reflexivity|]. unfold new. now rewrite painted_pixel. }
  assert (Hcover : forall cx cy px py,
             In (cx, cy) path ->
             within cx cy W H = true -> within px py W H = true ->
             in_stamp width cx px -> in_stamp width cy py ->
             exists c, In (px, py, c) new).
  { intros cx cy px py Hc Hwc Hwp Hsx Hsy. eexists. apply calls_spec.
    split; [|reflexivity]. apply in_flat_map. exists (cx, cy). split; [exact Hc|].
    apply cells_spec. auto. }
  destruct (line_centres_ends fuel x1 y1 x2 y2 Hfuel) as [Hfirst Hlast].
  fold path in Hfirst, Hlast.
  assert (Hends : (1 <= width)%Z ->
             (within x1 y1 W H = true -> exists c, In (x1, y1, c) new) /\
             (within x2 y2 W H = true -> exists c, In (x2, y2, c) new)).
  { intros Hw. split; intros Hin.
    - apply (Hcover x1 y1 x1 y1); auto using centre_in_its_stamp.
    - apply (Hcover x2 y2 x2 y2); auto using centre_in_its_stamp. }
  exists (Stamp.emit new draw), new.
  split; [exact Hrun|]. split; [reflexivity|]. split; [reflexivity|].
  cbn [Stamp.emit _image]. fold img.
  split; [|split; [|split; [|split]]].
  - intros px py c Hc. destruct (Hcall px py c Hc) as [Hinv Hfin].
    destruct (pixel img px py) as [[r g] b] eqn:Hpix.
    exists r, g, b. repeat split; assumption.
  - intros px py Hno. now apply paint_untouched.
  - exact Hcover.
  - exact Hends.
  - intros Hwhite. split.
    + intros px py c Hc. destruct (Hcall px py c Hc) as [Hinv Hfin].
      rewrite Hfin, Hinv, Hwhite. split; reflexivity.
    + intros Hw Hin. destruct (proj1 (Hends Hw) Hin) as [c Hc].
      destruct (Hcall x1 y1 c Hc) as [Hinv Hfin].
      rewrite Hfin, Hinv, Hwhite. reflexivity.
Qed.

Lemma inverted_line_paints_inverse_of_snapshot_witness :
  exists draw' new,
    _draw_line 3 (Draw (white_image 4 4)) 1 1 3 2 4 4 Inverted 2 = (Ok tt, draw') /\
    point_calls draw' = [] ++ new /\
    List.length new = 12%nat /\
    pixel (_image draw') 1 1 = black /\
    pixel (_image draw') 3 2 = black /\
    pixel (_image draw') 3 3 = white.
Proof.
  destruct (inverted_line_paints_inverse_of_snapshot 3 (Draw (white_image 4 4)) 1 1 3 2 2)
    as (draw' & new & Hrun & Hcalls & Hnew & _ & Hrest & _ & _ & Hwhite);
    [vm_compute; lia|].
  exists draw', new. split; [exact Hrun|]. split; [exact Hcalls|].
  destruct (Hwhite ltac:(reflexivity)) as [Hblack Hfirst].
  split; [rewrite Hnew; reflexivity|].
  split; [apply Hfirst; [lia | reflexivity]|].
  split.
  - apply (Hblack 3 2 black)%Z. rewrite Hnew. vm_compute. auto 20.
  - rewrite (Hrest 3 3)%Z; [reflexivity|].
    intros c Hc. rewrite Hnew in Hc. vm_compute in Hc.
    repeat (destruct Hc as [Hc | Hc]; [discriminate Hc|]). exact Hc.
Defined.


(** X9: a line of no length paints one stamp: on a buffer of the size
    stated the calls are those of the stamp around its only point, and
    when that square of side [width >= 0] lies inside the buffer there
    are [width * width] of them. *)
Theorem zero_length_line_paints_one_stamp
        (fuel : nat) (draw : ImageDraw) (x y : Z) (color : Color) (width : Z) :
  let img := _image draw in
  let W := PIL.width img in
  let H := PIL.height img in
  (1 <= fuel)%nat ->
  _draw_line fuel draw x y x y W H color width
  = (Ok tt, Stamp.emit (Stamp.calls img color W H width (x, y)) draw) /\
  ((0 <= width)%Z ->
   (0 <= x - width / 2)%Z -> (x + (width + 1) / 2 <= W)%Z ->
   (0 <= y - width / 2)%Z -> (y + (width + 1) / 2 <= H)%Z ->
   List.length (Stamp.calls img color W H width (x, y)) = Z.to_nat (width * width)).
Proof.
  intros img W H Hfuel. split.
  - unfold W, H, img. rewrite draw_line_exact.
    + destruct fuel as [|fuel]; [lia|].
      unfold line_centres. cbn [centres]. rewrite !Z.eqb_refl. cbn [andb flat_map].
      now rewrite app_nil_r.
    + unfold line_fuel. rewrite !Z.sub_diag. cbn. exact Hfuel.
  - intros Hw Hx0 Hx1 Hy0 Hy1. unfold Stamp.calls. rewrite length_map.
    unfold Stamp.cells.
    pose proof (stamp_side width Hw) as Hside.
    destruct (within x y W H) eqn:Hc.
    + rewrite (length_flat_map_const _ _ (Z.to_nat width)).
      * rewrite range2_length, Hside. lia.
      * intros i Hi. apply range2_In in Hi.
        rewrite (length_flat_map_const _ _ 1%nat).
        -- rewrite range2_length, Hside. lia.
        -- intros j Hj. apply range2_In in Hj.
           replace (within (x + i) (y + j) W H) with true
             by (symmetry; apply within_true; lia).
           reflexivity.
    + apply within_false in Hc.
      assert (width = 0)%Z.
      { destruct (Z.eq_dec width 0) as [|Hnz]; [assumption|]. exfalso. apply Hc.
        assert (1 <= (width + 1) / 2)%Z by (apply Z.div_le_lower_bound; lia).
        assert (0 <= width / 2)%Z by (apply Z.div_pos; lia). lia. }
      subst width. reflexivity.
Qed.

Lemma zero_length_line_paints_one_stamp_witness :
  _draw_line 1 (Draw (white_image 5 5)) 2 2 2 2 5 5 Inverted 3
  = (Ok tt, Stamp.emit (Stamp.calls (white_image 5 5) Inverted 5 5 3 (2, 2)%Z)
                       (Draw (white_image 5 5))) /\
  List.length (Stamp.calls (white_image 5 5) Inverted 5 5 3 (2, 2)%Z) = Z.to_nat (3 * 3).
Proof.
  destruct (zero_length_line_paints_one_stamp 1 (Draw (white_image 5 5)) 2 2 Inverted 3
              (Nat.le_refl 1)) as [Hrun Hcount].
  split; [exact Hrun|]. apply Hcount; vm_compute; discriminate.
Defined.

(** X10: drawing with a fixed colour on a buffer of the size stated
    returns; every pixel it paints ends with that colour and every other
    pixel keeps its value. *)
Theorem fixed_line_paints_its_colour
        (fuel : nat) (draw : ImageDraw) (x1 y1 x2 y2 : Z) (c : RGB) (width : Z) :
  let img := _image draw in
  (line_fuel x1 y1 x2 y2 <= fuel)%nat ->
  exists draw' new,
    _draw_line fuel draw x1 y1 x2 y2 (PIL.width img) (PIL.height img) (Fixed c) width
    = (Ok tt, draw') /\
    point_calls draw' = point_calls draw ++ new /\
    (forall px py c', In (px, py, c') new ->
                      c' = c /\ pixel (_image draw') px py = c) /\
    (forall px py, (forall c', ~ In (px, py, c') new) ->
                   pixel (_image draw') px py = pixel img px py).
Proof.
  intros img Hfuel. pose proof (draw_line_exact fuel draw x1 y1 x2 y2 (Fixed c) width Hfuel)
    as Hrun. fold img in Hrun.
  eexists. eexists. split; [exact Hrun|]. split; [reflexivity|].
  cbn [Stamp.emit _image]. split.
  - intros px py c' Hc'. apply calls_spec in Hc'. destruct Hc' as [Hin ->].
    split; [reflexivity|]. now rewrite painted_pixel.
  - intros px py Hno. apply paint_untouched. exact Hno.
Qed.

Lemma fixed_line_paints_its_colour_witness :
  exists draw' new,
    _draw_line 3 (Draw (white_image 4 4)) 1 1 3 2 4 4 (Fixed black) 2 = (Ok tt, draw') /\
    point_calls draw' = [] ++ new /\
    (forall px py c', In (px, py, c') new ->
                      c' = black /\ pixel (_image draw') px py = black) /\
    (forall px py, (forall c', ~ In (px, py, c') new) ->
                   pixel (_image draw') px py = pixel (white_image 4 4) px py).
Proof.
  apply (fixed_line_paints_its_colour 3 (Draw (white_image 4 4)) 1 1 3 2 black 2).
  vm_compute. lia.
Defined.

(** X11: the snapshot is taken anew at every call, so drawing the same
    inverted line a second time restores every pixel of the buffer:
    where two inverted marks cross, the second undoes the first. *)
Theorem inverted_line_twice_restores
        (fuel : nat) (draw : ImageDraw) (x1 y1 x2 y2 : Z) (width : Z) :
  let img := _image draw in
  let W := PIL.width img in
  let H := PIL.height img in
  (line_fuel x1 y1 x2 y2 <= fuel)%nat ->
  exists draw1 draw2,
    _draw_line fuel draw x1 y1 x2 y2 W H Inverted width = (Ok tt, draw1) /\
    _draw_line fuel draw1 x1 y1 x2 y2 W H Inverted width = (Ok tt, draw2) /\
    forall x y, pixel (_image draw2) x y = pixel img x y.
Proof.
  intros img W H Hfuel.
  pose proof (draw_line_exact fuel draw x1 y1 x2 y2 Inverted width Hfuel) as Hrun1.
  fold img W H in Hrun1.
  set (path := line_centres fuel x1 y1 x2 y2) in *.
  set (calls1 := flat_map (Stamp.calls img Inverted W H width) path) in *.
  set (draw1 := Stamp.emit calls1 draw) in *.
  destruct (paint_size calls1 img) as [HW HH]. fold W H in HW, HH.
  pose proof (draw_line_exact fuel draw1 x1 y1 x2 y2 Inverted width Hfuel) as Hrun2.
  change (_image draw1) with (paint img calls1) in Hrun2.
  rewrite HW, HH in Hrun2. fold path in Hrun2.
  exists draw1. eexists. split; [exact Hrun1|]. split; [exact Hrun2|].
  intros x y. unfold draw1. cbn [Stamp.emit _image]. fold img.
  destruct (in_dec cell_eq_dec (x, y) (flat_map (Stamp.cells W H width) path)) as [Hin | Hno].
  - pose proof (painted_pixel img Inverted width path img x y Hin) as P1.
    fold W H calls1 in P1.
    pose proof (painted_pixel (paint img calls1) Inverted width path (paint img calls1) x y)
      as P2.
    cbn zeta in P2. rewrite HW, HH in P2. rewrite (P2 Hin).
    unfold Stamp.colour in *. cbn [fst snd] in *. rewrite P1.
    apply inverse_involutive.
  - rewrite unpainted_pixel by exact Hno. unfold calls1.
    now rewrite unpainted_pixel by exact Hno.
Qed.

Lemma inverted_line_twice_restores_witness :
  exists draw1 draw2,
    _draw_line 3 (Draw (coordinate_image 4 4)) 1 1 3 2 4 4 Inverted 2 = (Ok tt, draw1) /\
    _draw_line 3 draw1 1 1 3 2 4 4 Inverted 2 = (Ok tt, draw2) /\
    forall x y, pixel (_image draw2) x y = pixel (coordinate_image 4 4) x y.
Proof.
  apply (inverted_line_twice_restores 3 (Draw (coordinate_image 4 4)) 1 1 3 2 2).
  vm_compute. lia.
Defined.

Section AxisFacts.

Local Open Scope Z_scope.

Variables x2 y2 sx sy : Z.

(** With [dy = 0] and [err >= 0], the loop never steps along y. *)
Lemma horizontal_centres dx fuel :
  forall x y err c,
    (0 <= err)%Q ->
    In c (centres x2 y2 dx 0 sx sy fuel x y err) -> snd c = y.
Proof.
  induction fuel as [|fuel IH]; intros x y err c Herr Hc; [destruct Hc|].
  cbn [centres] in Hc. destruct Hc as [<- | Hc]; [reflexivity|].
  destruct ((x =? x2) && (y =? y2)); [destruct Hc|].
  unfold advance in Hc.
  replace (Qltb err (inject_Z 0)) with false in Hc
    by (symmetry; apply Qltb_ge; exact Herr).
  destruct (Qltb (- inject_Z dx) err); apply IH in Hc; try assumption.
  change (inject_Z 0) with 0%Q. lra.
Qed.

(** With [dx = 0] and [err <= 0], it never steps along x. *)
Lemma vertical_centres dy fuel :
  forall x y err c,
    (err <= 0)%Q ->
    In c (centres x2 y2 0 dy sx sy fuel x y err) -> fst c = x.
Proof.
  induction fuel as [|fuel IH]; intros x y err c Herr Hc; [destruct Hc|].
  cbn [centres] in Hc. destruct Hc as [<- | Hc]; [reflexivity|].
  destruct ((x =? x2) && (y =? y2)); [destruct Hc|].
  unfold advance in Hc.
  replace (Qltb (- inject_Z 0) err) with false in Hc
    by (symmetry; apply Qltb_ge; exact Herr).
  destruct (Qltb err (inject_Z dy)); apply IH in Hc; try assumption.
  change (inject_Z 0) with 0%Q. lra.
Qed.

End AxisFacts.

Lemma half_nonneg z : (0 <= z)%Z -> (0 <= inject_Z z / 2)%Q.
Proof.
  intros Hz. apply Qle_shift_div_l; [reflexivity|].
  rewrite Qmult_0_l. change 0%Q with (inject_Z 0). now rewrite <- Zle_Qle.
Qed.

Lemma half_nonpos z : (z <= 0)%Z -> (inject_Z z / 2 <= 0)%Q.
Proof.
  intros Hz. apply Qle_shift_div_r; [reflexivity|].
  rewrite Qmult_0_l. change 0%Q with (inject_Z 0). now rewrite <- Zle_Qle.
Qed.

Lemma horizontal_line_centres fuel x1 x2 y c :
  In c (line_centres fuel x1 y x2 y) -> snd c = y.
Proof.
  unfold line_centres. rewrite Z.sub_diag. change (Z.abs 0) with 0%Z.
  apply horizontal_centres.
  destruct (Z.abs (x2 - x1) >? 0)%Z; apply half_nonneg; lia.
Qed.

Lemma vertical_line_centres fuel x y1 y2 c :
  In c (line_centres fuel x y1 x y2) -> fst c = x.
Proof.
  unfold line_centres. rewrite Z.sub_diag. change (Z.abs 0) with 0%Z.
  apply vertical_centres.
  destruct (0 >? Z.abs (y2 - y1))%Z; apply half_nonpos; lia.
Qed.

(** X12: a horizontal line visits centres of its own row only, and a
    vertical line centres of its own column only. *)
Theorem axis_line_keeps_to_its_axis (fuel : nat) (x1 y1 x2 y2 : Z) :
  (y1 = y2 -> forall cx cy, In (cx, cy) (line_centres fuel x1 y1 x2 y2) -> cy = y1) /\
  (x1 = x2 -> forall cx cy, In (cx, cy) (line_centres fuel x1 y1 x2 y2) -> cx = x1).
Proof.
  split.
  - intros <- cx cy Hc. now apply horizontal_line_centres in Hc.
  - intros <- cx cy Hc. now apply vertical_line_centres in Hc.
Qed.

Lemma axis_line_keeps_to_its_axis_witness :
  In (4, 3)%Z (line_centres 6 2 3 7 3) /\ (3 = 3)%Z.
Proof.
  assert (Hin : In (4, 3)%Z (line_centres 6 2 3 7 3)) by (vm_compute; auto).
  split; [exact Hin|].
  exact (proj1 (axis_line_keeps_to_its_axis 6 2 3 7 3) eq_refl 4%Z 3%Z Hin).
Defined.

(* ================================================================== *)
(** * Properties of the marks                                           *)
(* ================================================================== *)

Section MarkFacts.

Local Open Scope Z_scope.

Variables image_width image_height bleed_size : Z.
Variable color : Color.

(** A call on one of the four trim bands of the raster. *)
Let on_band (call : Z * Z * RGB) : Prop :=
  let '(px, py, _) := call in
  within px py image_width image_height = true /\
  Marks.on_trim_band image_width image_height bleed_size px py.

Lemma stamp_of_two c p : in_stamp 2 c p -> p = c - 1 \/ p = c.
Proof.
  unfold in_stamp. change (2 / 2) with 1. change ((2 + 1) / 2) with 1. lia.
Qed.

(** A horizontal mark on a trim line paints on the band of that line. *)
Lemma horizontal_mark fuel x1 x2 y d :
  y = bleed_size \/ y = image_height - bleed_size ->
  extends on_band d
          (snd (Marks.line fuel x1 y x2 y image_width image_height color 2 d)).
Proof.
  intros Hy. unfold Marks.line.
  eapply extends_weaken; [|apply draw_line_extends].
  intros [[px py] c] (Hin & _ & cx & cy & Hc & _ & _ & Hsy).
  apply horizontal_line_centres in Hc. cbn [snd] in Hc. subst cy.
  apply stamp_of_two in Hsy. split; [exact Hin|].
  unfold Marks.on_trim_band. lia.
Qed.

Lemma vertical_mark fuel x y1 y2 d :
  x = bleed_size \/ x = image_width - bleed_size ->
  extends on_band d
          (snd (Marks.line fuel x y1 x y2 image_width image_height color 2 d)).
Proof.
  intros Hx. unfold Marks.line.
  eapply extends_weaken; [|apply draw_line_extends].
  intros [[px py] c] (Hin & _ & cx & cy & Hc & _ & Hsx & _).
  apply vertical_line_centres in Hc. cbn [fst] in Hc. subst cx.
  apply stamp_of_two in Hsx. split; [exact Hin|].
  unfold Marks.on_trim_band. lia.
Qed.

Lemma and_then_extends J (m k : DrawM unit) d :
  (forall d0, extends J d0 (snd (m d0))) ->
  (forall d0, extends J d0 (snd (k d0))) ->
  extends J d (snd (Marks.and_then m k d)).
Proof.
  intros Hm Hk. unfold Marks.and_then. apply bind_extends; [apply Hm|].
  intros _ d1. apply Hk.
Qed.

Lemma crop_marks_extend fuel draw crop_mark_length cut_mark_length :
  extends on_band draw
          (snd (Marks._draw_bleed_crop_marks fuel draw image_width image_height bleed_size
                                             crop_mark_length cut_mark_length color)).
Proof.
  unfold Marks._draw_bleed_crop_marks. cbv zeta.
  repeat (apply and_then_extends; [intros ? | intros ?]);
    first [ apply horizontal_mark; lia | apply vertical_mark; lia ].
Qed.

(** The buffer has the size stated to the marks. *)
Let fits (d : ImageDraw) : Prop :=
  PIL.width (_image d) = image_width /\ PIL.height (_image d) = image_height.

Lemma mark_returns fuel x1 y1 x2 y2 d :
  fits d -> (line_fuel x1 y1 x2 y2 <= fuel)%nat ->
  exists d',
    Marks.line fuel x1 y1 x2 y2 image_width image_height color 2 d = (Ok tt, d') /\ fits d'.
Proof.
  intros [Hw Hh] Hfuel. unfold Marks.line.
  pose proof (draw_line_exact fuel d x1 y1 x2 y2 color 2 Hfuel) as Hrun.
  rewrite Hw, Hh in Hrun. rewrite Hrun. eexists. split; [reflexivity|].
  unfold fits. cbn [Stamp.emit _image].
  destruct (paint_size
              (flat_map (Stamp.calls (_image d) color image_width image_height 2)
                        (line_centres fuel x1 y1 x2 y2)) (_image d)) as [-> ->].
  now split.
Qed.

Lemma and_then_returns (m k : DrawM unit) d :
  fits d ->
  (forall d0, fits d0 -> exists d1, m d0 = (Ok tt, d1) /\ fits d1) ->
  (forall d0, fits d0 -> exists d1, k d0 = (Ok tt, d1) /\ fits d1) ->
  exists d', Marks.and_then m k d = (Ok tt, d') /\ fits d'.
Proof.
  intros Hd Hm Hk. unfold Marks.and_then, Line.bind.
  destruct (Hm d Hd) as (d1 & -> & Hd1). apply Hk. exact Hd1.
Qed.

Lemma crop_marks_return fuel draw crop_mark_length cut_mark_length :
  fits draw ->
  (Marks.marks_fuel crop_mark_length cut_mark_length <= fuel)%nat ->
  exists draw',
    Marks._draw_bleed_crop_marks fuel draw image_width image_height bleed_size
                                 crop_mark_length cut_mark_length color
    = (Ok tt, draw') /\ fits draw'.
Proof.
  intros Hd Hfuel. unfold Marks._draw_bleed_crop_marks. cbv zeta.
  unfold Marks.marks_fuel in Hfuel.
  repeat (apply and_then_returns; [assumption | intros ? ? | intros ? ?]);
    apply mark_returns; try assumption; unfold line_fuel; lia.
Qed.

End MarkFacts.

(** X13: however far it gets, [_draw_bleed_crop_marks] paints inside the
    raster and only on the four bands, two pixels wide, along the trim
    lines (columns [bleed_size - 1], [bleed_size],
    [image_width - bleed_size - 1], [image_width - bleed_size] and the
    rows likewise); every pixel off these bands keeps its value. *)
Theorem crop_marks_stay_on_trim_bands
        (fuel : nat) (draw : ImageDraw)
        (image_width image_height bleed_size crop_mark_length cut_mark_length : Z)
        (crop_mark_color : Color) :
  let draw' :=
    snd (Marks._draw_bleed_crop_marks fuel draw image_width image_height bleed_size
                                      crop_mark_length cut_mark_length crop_mark_color) in
  exists new,
    point_calls draw' = point_calls draw ++ new /\
    (forall px py c,
        In (px, py, c) new ->
        (0 <= px < image_width)%Z /\ (0 <= py < image_height)%Z /\
        Marks.on_trim_band image_width image_height bleed_size px py) /\
    (forall x y,
        ~ Marks.on_trim_band image_width image_height bleed_size x y ->
        pixel (_image draw') x y = pixel (_image draw) x y).
Proof.
  intros draw'.
  destruct (crop_marks_extend image_width image_height bleed_size crop_mark_color
              fuel draw crop_mark_length cut_mark_length) as (new & Hcalls & Hall & Himg).
  fold draw' in Hcalls, Himg. rewrite Forall_forall in Hall.
  exists new. split; [exact Hcalls|]. split.
  - intros px py c Hc. destruct (Hall _ Hc) as [Hin Hband].
    apply within_true in Hin. tauto.
  - intros x y Hoff. rewrite Himg. apply paint_untouched.
    intros c Hc. apply Hoff. now destruct (Hall _ Hc).
Qed.

(** X14: for an image file that opens to a raster of at least one pixel
    each way, a bleed size of at least zero, either bleed mode, a colour
    of the marks that is ['inverted'] or one Pillow resolves, and enough
    fuel for the marks, [add_bleed_and_marks] returns a raster of size
    [(w + 2 * bleed_size, h + 2 * bleed_size)], in which the source
    stands unchanged at offset [(bleed_size, bleed_size)] but for its
    outermost ring of pixels, which the marks may paint. *)
Theorem add_bleed_and_marks_keeps_the_artwork
        (fuel : nat) (files : string -> option Image) (image_path : string) (img : Image)
        (bleed_size crop_mark_length : Z)
        (crop_mark_color : Color) (bleed_mode : string) (cut_mark_length : Z) :
  files image_path = Some img ->
  (1 <= PIL.width img)%Z -> (1 <= PIL.height img)%Z -> (0 <= bleed_size)%Z ->
  bleed_mode = "repeat"%string \/ bleed_mode = "mirror"%string ->
  (Marks.marks_fuel crop_mark_length cut_mark_length <= fuel)%nat ->
  exists result,
    AddBleed.add_bleed_and_marks fuel files image_path bleed_size crop_mark_length
                                 crop_mark_color bleed_mode cut_mark_length
    = Pdf.Return (Ok (Some result)) /\
    PIL.width result = (PIL.width img + 2 * bleed_size)%Z /\
    PIL.height result = (PIL.height img + 2 * bleed_size)%Z /\
    forall x y, (1 <= x < PIL.width img - 1)%Z -> (1 <= y < PIL.height img - 1)%Z ->
                pixel result (bleed_size + x) (bleed_size + y) = pixel img x y.
Proof.
  intros Hfile Hw1 Hh1 Hb Hmode Hfuel.
  set (w := PIL.width img) in *. set (h := PIL.height img) in *.
  assert (Hbleed : exists new_img,
             _create_new_image_with_bleed img w h bleed_size bleed_mode
             = Ok (new_img, w + 2 * bleed_size, h + 2 * bleed_size)%Z /\
             PIL.width new_img = (w + 2 * bleed_size)%Z /\
             PIL.height new_img = (h + 2 * bleed_size)%Z /\
             forall x y, (0 <= x < w)%Z -> (0 <= y < h)%Z ->
                         pixel new_img (bleed_size + x) (bleed_size + y) = pixel img x y).
  { destruct Hmode as [-> | ->];
      [apply repeat_bleed_source | apply mirror_bleed_source];
      reflexivity || assumption || lia. }
  destruct Hbleed as (new_img & Hrun & Sw & Sh & Hsrc).
  unfold AddBleed.add_bleed_and_marks, AddBleed._open_image. rewrite Hfile.
  fold w h. rewrite Hrun.
  destruct (crop_marks_return (w + 2 * bleed_size) (h + 2 * bleed_size) bleed_size
              crop_mark_color fuel (Draw new_img) crop_mark_length cut_mark_length)
    as (draw' & Hmarks & Fw & Fh); [split; assumption | exact Hfuel |].
  pose proof (crop_marks_extend (w + 2 * bleed_size) (h + 2 * bleed_size) bleed_size
                crop_mark_color fuel (Draw new_img) crop_mark_length cut_mark_length)
    as (new & _ & Hall & Himg).
  rewrite Hmarks in *. cbn [snd] in Himg.
  exists (_image draw'). split; [reflexivity|]. split; [exact Fw|]. split; [exact Fh|].
  intros x y Hx Hy. rewrite Himg. cbn [Draw _image].
  rewrite paint_untouched; [apply Hsrc; lia|].
  intros c Hc. rewrite Forall_forall in Hall. destruct (Hall _ Hc) as [_ Hband].
  unfold Marks.on_trim_band in Hband. lia.
Qed.

Lemma add_bleed_and_marks_keeps_the_artwork_witness :
  exists result,
    AddBleed.add_bleed_and_marks 5
      (fun path => if String.eqb path "art.png" then Some (coordinate_image 6 5) else None)
      "art.png" 2 3 Inverted "repeat"%string 4
    = Pdf.Return (Ok (Some result)) /\
    PIL.width result = (PIL.width (coordinate_image 6 5) + 2 * 2)%Z /\
    PIL.height result = (PIL.height (coordinate_image 6 5) + 2 * 2)%Z /\
    forall x y, (1 <= x < PIL.width (coordinate_image 6 5) - 1)%Z ->
                (1 <= y < PIL.height (coordinate_image 6 5) - 1)%Z ->
                pixel result (2 + x) (2 + y) = pixel (coordinate_image 6 5) x y.
Proof.
  apply (add_bleed_and_marks_keeps_the_artwork 5
           (fun path => if String.eqb path "art.png" then Some (coordinate_image 6 5)
                        else None)
           "art.png" (coordinate_image 6 5) 2 3 Inverted "repeat"%string 4);
    first [reflexivity | cbn; lia | now left | vm_compute; lia].
Defined.

(** X15: when the image file cannot be opened, [add_bleed_and_marks]
    ends the run with exit status 1, whatever its other arguments: the
    exit of [_open_image] happens before the [try].  When the file
    opens, an unknown bleed mode or a negative size of the new raster
    gives the result [None] instead of an exception (for a colour of the
    marks that is ['inverted'] or one Pillow resolves). *)
Theorem add_bleed_and_marks_failures
        (fuel : nat) (files : string -> option Image) (image_path : string)
        (bleed_size crop_mark_length : Z)
        (crop_mark_color : Color) (bleed_mode : string) (cut_mark_length : Z) :
  (files image_path = None ->
   AddBleed.add_bleed_and_marks fuel files image_path bleed_size crop_mark_length
                                crop_mark_color bleed_mode cut_mark_length
   = Pdf.Exit 1) /\
  (forall img,
      files image_path = Some img ->
      (PIL.width img + 2 * bleed_size < 0)%Z \/ (PIL.height img + 2 * bleed_size < 0)%Z \/
      (bleed_mode <> "repeat"%string /\ bleed_mode <> "mirror"%string) ->
      AddBleed.add_bleed_and_marks fuel files image_path bleed_size crop_mark_length
                                   crop_mark_color bleed_mode cut_mark_length
      = Pdf.Return (Ok None)).
Proof.
  unfold AddBleed.add_bleed_and_marks, AddBleed._open_image. split.
  - intros ->. reflexivity.
  - intros img -> Hbad.
    now rewrite (bleed_raises_value_error_lemma img _ _ bleed_size bleed_mode Hbad).
Qed.

Lemma add_bleed_and_marks_failures_witness :
  AddBleed.add_bleed_and_marks 5
    (fun path => if String.eqb path "art.png" then Some (white_image 2 2) else None)
    "missing.png" 1 3 Inverted "repeat"%string 4
  = Pdf.Exit 1 /\
  AddBleed.add_bleed_and_marks 5
    (fun path => if String.eqb path "art.png" then Some (white_image 2 2) else None)
    "art.png" 1 3 Inverted "stretch"%string 4
  = Pdf.Return (Ok None).
Proof.
  split.
  - apply (proj1 (add_bleed_and_marks_failures 5
                    (fun path => if String.eqb path "art.png" then Some (white_image 2 2)
                                 else None)
                    "missing.png" 1 3 Inverted "repeat"%string 4)).
    reflexivity.
  - apply (proj2 (add_bleed_and_marks_failures 5
                    (fun path => if String.eqb path "art.png" then Some (white_image 2 2)
                                 else None)
                    "art.png" 1 3 Inverted "stretch"%string 4) (white_image 2 2)).
    + reflexivity.
    + right. right. split; discriminate.
Defined.

(* ================================================================== *)
(** * Further properties of the layout                                  *)
(* ================================================================== *)

(** X16: the positions are those of the cells of the grid in row-major
    order from the top row: the [i]-th copy, counting from zero, stands
    in column [i mod cols] and row [i // cols], at
    [x = margin + col * (scaled_width + spacing)] and
    [y = page_height - margin - (row + 1) * (scaled_height + spacing)]. *)
Theorem layout_positions_are_row_major
        (fuel : nat) (image_width_mm image_height_mm page_width page_height : Q)
        (num_copies : Z) (margin spacing : Q) :
  (1 <= num_copies)%Z -> ~ image_width_mm == 0 -> ~ image_height_mm == 0 ->
  (grid_fuel num_copies <= fuel)%nat ->
  exists plan,
    _calculate_layout fuel image_width_mm image_height_mm page_width page_height
                      num_copies margin spacing = Ok plan /\
    forall i, (0 <= i < num_copies)%Z ->
      nth_error (image_positions plan) (Z.to_nat i)
      = Some (margin + inject_Z (i mod cols plan) * (scaled_width plan + spacing),
              page_height - margin
              - inject_Z (i / cols plan + 1) * (scaled_height plan + spacing)).
Proof.
  intros Hn Hiw Hih Hfuel.
  destruct (calculate_layout_ok fuel image_width_mm image_height_mm page_width page_height
              num_copies margin spacing Hn Hiw Hih Hfuel)
    as (r & c & _ & Hc & _ & Hcover & _ & _ & Hplan).
  eexists. split; [exact Hplan|].
  intros i Hi. cbn [image_positions cols scaled_width scaled_height].
  rewrite positions_loop_cells by lia.
  rewrite nth_error_map. unfold range. rewrite range2_nth by lia.
  cbn [option_map]. rewrite Z.add_0_l, Z2Nat.id by lia. reflexivity.
Qed.

Lemma layout_positions_are_row_major_witness :
  exists plan,
    _calculate_layout 3 10 10 100 100 5 1 2 = Ok plan /\
    forall i, (0 <= i < 5)%Z ->
      nth_error (image_positions plan) (Z.to_nat i)
      = Some (1 + inject_Z (i mod cols plan) * (scaled_width plan + 2),
              100 - 1 - inject_Z (i / cols plan + 1) * (scaled_height plan + 2)).
Proof.
  apply (layout_positions_are_row_major 3 10 10 100 100 5 1 2).
  - lia.
  - intros H; vm_compute in H; discriminate.
  - intros H; vm_compute in H; discriminate.
  - vm_compute. lia.
Defined.

(** X17: the planner raises [ZeroDivisionError] for zero copies,
    [ValueError] for a negative copy count (both whatever the other
    arguments), and [ZeroDivisionError] for an image of zero width or
    height. *)
Theorem layout_rejects_degenerate_requests
        (fuel : nat) (image_width_mm image_height_mm page_width page_height : Q)
        (num_copies : Z) (margin spacing : Q) :
  let run := _calculate_layout fuel image_width_mm image_height_mm page_width page_height
                               num_copies margin spacing in
  (num_copies = 0%Z -> run = Raise ZeroDivisionError) /\
  ((num_copies < 0)%Z -> run = Raise ValueError) /\
  ((1 <= num_copies)%Z -> (grid_fuel num_copies <= fuel)%nat ->
   image_width_mm == 0 \/ image_height_mm == 0 -> run = Raise ZeroDivisionError).
Proof.
  intros run. unfold run, _calculate_layout. repeat split.
  - intros ->. reflexivity.
  - intros Hneg. unfold grid_search, int_sqrt.
    destruct (Z.ltb_spec num_copies 0); [reflexivity | lia].
  - intros Hn Hfuel Hzero.
    destruct (grid_search_total num_copies fuel Hn Hfuel) as (r & c & -> & _ & Hc & Hr).
    pose proof (ceil_div_pos num_copies c ltac:(lia) Hn) as Hr1. rewrite <- Hr in Hr1.
    cbn [Py.bind]. unfold scale_factor.
    rewrite (truediv_ok _ (inject_Z c)) by (apply inject_Z_nonzero; lia). cbn [Py.bind].
    rewrite (truediv_ok _ (inject_Z r)) by (apply inject_Z_nonzero; lia). cbn [Py.bind].
    unfold truediv at 1.
    destruct (Qeq_bool image_width_mm 0) eqn:Ew; [reflexivity|]. cbn [Py.bind].
    unfold truediv.
    destruct (Qeq_bool image_height_mm 0) eqn:Eh; [reflexivity|].
    destruct Hzero as [Hz | Hz]; apply Qeq_bool_iff in Hz; congruence.
Qed.

Lemma layout_rejects_degenerate_requests_witness :
  _calculate_layout 2 10 0 100 100 4 1 0 = Raise ZeroDivisionError.
Proof.
  apply (proj2 (proj2 (layout_rejects_degenerate_requests 2 10 0 100 100 4 1 0))).
  - lia.
  - vm_compute. lia.
  - right. reflexivity.
Defined.

Lemma search_stops n r c r' c' :
  GridSpec.search n r c r' c' ->
  (c <= c')%Z /\ ~ (GridSpec.ceil_div n (c' + 1) < r')%Z.
Proof.
  induction 1 as [r c Hstop | r c r' c' Hlt _ IH]; [split; [lia | exact Hstop]|].
  destruct IH. split; [lia | assumption].
Qed.

(** X18: for every copy count of at least one the grid returned has at
    least [floor(sqrt(num_copies))] columns and no more rows than
    columns: it is never taller than wide. *)
Theorem grid_is_never_taller_than_wide (fuel : nat) (num_copies rows cols : Z) :
  (1 <= num_copies)%Z ->
  grid_search fuel num_copies = Ok (rows, cols) ->
  (Z.sqrt num_copies <= cols)%Z /\ (1 <= rows <= cols)%Z.
Proof.
  intros Hn Hrun.
  destruct (grid_search_sound num_copies fuel rows cols Hn Hrun) as (Hgrid & Hc & Hr).
  destruct (search_stops _ _ _ _ _ Hgrid) as [Hle Hstop].
  pose proof (Z.sqrt_spec num_copies ltac:(lia)) as Hs.
  pose proof (ceil_div_bounds num_copies cols ltac:(lia)) as Hb.
  pose proof (ceil_div_bounds num_copies (cols + 1) ltac:(lia)) as Hb1.
  pose proof (ceil_div_pos num_copies cols ltac:(lia) Hn) as Hr1.
  rewrite <- Hr in Hb, Hr1.
  set (t := GridSpec.ceil_div num_copies (cols + 1)) in *.
  unfold Z.succ in Hs.
  split; [exact Hle|]. split; [exact Hr1|].
  destruct (Z_le_gt_dec rows cols) as [|Hgt]; [assumption|]. exfalso.
  assert (Hsq : (num_copies < (cols + 1) * (cols + 1))%Z) by nia.
  assert (Ht : (cols + 1 <= t)%Z) by lia.
  assert (Hn1 : ((cols + 1) * cols < num_copies)%Z) by nia.
  assert (Hr2 : (cols + 2 <= rows)%Z) by nia.
  nia.
Qed.

Lemma grid_is_never_taller_than_wide_witness :
  (Z.sqrt 10 <= 5)%Z /\ (1 <= 2 <= 5)%Z.
Proof.
  apply (grid_is_never_taller_than_wide (grid_fuel 10) 10 2 5); [lia | reflexivity].
Defined.

(* ================================================================== *)
(** * Properties of the page composition                                *)
(* ================================================================== *)

Section PageFacts.

Local Open Scope Q_scope.

Lemma draw_cut_marks_ops c x y w h L :
  Pdf.pagesize (Pdf._draw_cut_marks c x y w h L) = Pdf.pagesize c /\
  Pdf.ops (Pdf._draw_cut_marks c x y w h L)
  = Pdf.ops c ++
    [Pdf.DrawLine x (y + h) (x + L) (y + h);
     Pdf.DrawLine x (y + h) x (y + h - L);
     Pdf.DrawLine (x + w) (y + h) (x + w - L) (y + h);
     Pdf.DrawLine (x + w) (y + h) (x + w) (y + h - L);
     Pdf.DrawLine x y (x + L) y;
     Pdf.DrawLine x y x (y + L);
     Pdf.DrawLine (x + w) y (x + w - L) y;
     Pdf.DrawLine (x + w) y (x + w) (y + L)].
Proof.
  unfold Pdf._draw_cut_marks, Pdf.draw. cbn [Pdf.pagesize Pdf.ops].
  split; [reflexivity|]. now rewrite <- !app_assoc.
Qed.

Lemma filter_image_cut_marks c x y w h L :
  filter Pdf.is_image (Pdf.ops (Pdf._draw_cut_marks c x y w h L))
  = filter Pdf.is_image (Pdf.ops c).
Proof.
  destruct (draw_cut_marks_ops c x y w h L) as [_ ->].
  rewrite filter_app. cbn. apply app_nil_r.
Qed.

Lemma filter_line_cut_marks c x y w h L :
  List.length (filter Pdf.is_line (Pdf.ops (Pdf._draw_cut_marks c x y w h L)))
  = (List.length (filter Pdf.is_line (Pdf.ops c)) + 8)%nat.
Proof.
  destruct (draw_cut_marks_ops c x y w h L) as [_ ->].
  rewrite filter_app, length_app. reflexivity.
Qed.

(** What the loop over the positions adds to the canvas. *)
Lemma draw_images_ops img sw sh cut_marks L positions :
  forall c,
    let c' := Pdf._draw_images_and_cut_marks c img positions sw sh cut_marks L in
    Pdf.pagesize c' = Pdf.pagesize c /\
    filter Pdf.is_image (Pdf.ops c')
    = filter Pdf.is_image (Pdf.ops c)
      ++ map (fun p => Pdf.DrawImage img (fst p) (snd p) sw sh) positions /\
    List.length (filter Pdf.is_line (Pdf.ops c'))
    = (List.length (filter Pdf.is_line (Pdf.ops c))
       + (if cut_marks then 8 * List.length positions else 0))%nat /\
    (forall op, In op (Pdf.ops c') -> op = Pdf.Save -> In op (Pdf.ops c)).
Proof.
  unfold Pdf._draw_images_and_cut_marks.
  induction positions as [|[x y] positions IH]; intros c; cbn [fold_left map List.length].
  - rewrite app_nil_r. repeat split; auto. destruct cut_marks; lia.
  - set (c1 := Pdf.draw c (Pdf.DrawImage img x y sw sh)).
    set (c2 := if cut_marks then Pdf._draw_cut_marks c1 x y sw sh (L * Pdf.mm) else c1).
    destruct (IH c2) as (Hp & Hi & Hl & Hs). cbn zeta in *.
    assert (Hc2 : Pdf.pagesize c2 = Pdf.pagesize c /\
                  filter Pdf.is_image (Pdf.ops c2)
                  = filter Pdf.is_image (Pdf.ops c) ++ [Pdf.DrawImage img x y sw sh] /\
                  List.length (filter Pdf.is_line (Pdf.ops c2))
                  = (List.length (filter Pdf.is_line (Pdf.ops c))
                     + (if cut_marks then 8 else 0))%nat /\
                  (forall op, In op (Pdf.ops c2) -> op = Pdf.Save -> In op (Pdf.ops c))).
    { assert (H1 : filter Pdf.is_image (Pdf.ops c1)
                   = filter Pdf.is_image (Pdf.ops c) ++ [Pdf.DrawImage img x y sw sh])
        by (unfold c1, Pdf.draw; cbn [Pdf.ops]; now rewrite filter_app).
      assert (H2 : List.length (filter Pdf.is_line (Pdf.ops c1))
                   = List.length (filter Pdf.is_line (Pdf.ops c)))
        by (unfold c1, Pdf.draw; cbn [Pdf.ops]; rewrite filter_app, length_app; cbn; lia).
      assert (H3 : forall op, In op (Pdf.ops c1) -> op = Pdf.Save -> In op (Pdf.ops c)).
      { unfold c1, Pdf.draw. cbn [Pdf.ops]. intros op Hop ->.
        apply in_app_or in Hop. destruct Hop as [|[Hop|[]]]; [assumption | discriminate]. }
      unfold c2. destruct cut_marks.
      - destruct (draw_cut_marks_ops c1 x y sw sh (L * Pdf.mm)) as [Hp' Hops].
        rewrite filter_image_cut_marks, filter_line_cut_marks, Hp', H1, H2.
        repeat split. intros op Hop ->. rewrite Hops in Hop.
        apply in_app_or in Hop. destruct Hop as [Hop | Hop]; [now apply H3|].
        cbn in Hop. repeat (destruct Hop as [Hop | Hop]; [discriminate|]). destruct Hop.
      - rewrite H1, H2. repeat split; [lia | exact H3]. }
    destruct Hc2 as (Hp2 & Hi2 & Hl2 & Hs2).
    repeat split.
    + congruence.
    + rewrite Hi, Hi2, <- app_assoc. reflexivity.
    + rewrite Hl, Hl2. destruct cut_marks; lia.
    + intros op Hop Hsave. apply Hs2; [|exact Hsave]. now apply Hs.
Qed.

End PageFacts.

(** X19: [_draw_cut_marks] adds eight segments to the canvas; each
    starts at a corner of the copy's rectangle and runs along one of its
    edges for [mark_length]; when [0 <= mark_length] does not exceed the
    width and height of the copy, each ends inside the rectangle: the
    ticks point inward. *)
Theorem cut_marks_are_corner_ticks (c : Pdf.Canvas) (x y width height mark_length : Q) :
  exists ticks,
    Pdf.ops (Pdf._draw_cut_marks c x y width height mark_length) = Pdf.ops c ++ ticks /\
    List.length ticks = 8%nat /\
    forall op, In op ticks ->
      exists x1 y1 x2 y2,
        op = Pdf.DrawLine x1 y1 x2 y2 /\
        Pdf.is_corner x y width height x1 y1 /\
        ((y2 == y1 /\ (x2 - x1 == mark_length \/ x1 - x2 == mark_length)) \/
         (x2 == x1 /\ (y2 - y1 == mark_length \/ y1 - y2 == mark_length))) /\
        (0 <= mark_length -> mark_length <= width -> mark_length <= height ->
         Pdf.in_rectangle x y width height x2 y2).
Proof.
  destruct (draw_cut_marks_ops c x y width height mark_length) as [_ Hops].
  eexists. split; [exact Hops|]. split; [reflexivity|].
  intros op Hop. cbn [In] in Hop.
  repeat (destruct Hop as [<- | Hop];
          [do 4 eexists; split; [reflexivity|];
           unfold Pdf.is_corner, Pdf.in_rectangle;
           split; [split; first [left; reflexivity | right; reflexivity]|];
           split; [first [left; split; [reflexivity|];
                          first [left; ring | right; ring]
                         | right; split; [reflexivity|];
                           first [left; ring | right; ring]]|];
           intros; repeat split; lra|]).
  destruct Hop.
Qed.

Lemma cut_marks_are_corner_ticks_witness :
  exists ticks,
    Pdf.ops (Pdf._draw_cut_marks (Pdf.mkCanvas (100, 100) []) 10 20 30 40 5) = [] ++ ticks /\
    List.length ticks = 8%nat /\
    forall op, In op ticks ->
      exists x1 y1 x2 y2,
        op = Pdf.DrawLine x1 y1 x2 y2 /\
        Pdf.is_corner 10 20 30 40 x1 y1 /\
        ((y2 == y1 /\ (x2 - x1 == 5 \/ x1 - x2 == 5)) \/
         (x2 == x1 /\ (y2 - y1 == 5 \/ y1 - y2 == 5))) /\
        (0 <= 5 -> 5 <= 30 -> 5 <= 40 -> Pdf.in_rectangle 10 20 30 40 x2 y2).
Proof.
  apply (cut_marks_are_corner_ticks (Pdf.mkCanvas (100, 100) []) 10 20 30 40 5).
Defined.

(** X20: [_draw_images_and_cut_marks] draws the image once for each
    position, in the order of the positions, at that position and with
    the scaled size; it adds eight segments for each position when cut
    marks are requested and none otherwise; it leaves the page size
    alone. *)
Theorem one_image_per_position
        (c : Pdf.Canvas) (img : Image) (image_positions : list (Q * Q))
        (scaled_width scaled_height : Q) (cut_marks : bool) (imposition_mark_length : Q) :
  let c' := Pdf._draw_images_and_cut_marks c img image_positions scaled_width scaled_height
                                           cut_marks imposition_mark_length in
  Pdf.pagesize c' = Pdf.pagesize c /\
  filter Pdf.is_image (Pdf.ops c')
  = filter Pdf.is_image (Pdf.ops c)
    ++ map (fun p => Pdf.DrawImage img (fst p) (snd p) scaled_width scaled_height)
           image_positions /\
  List.length (filter Pdf.is_line (Pdf.ops c'))
  = (List.length (filter Pdf.is_line (Pdf.ops c))
     + (if cut_marks then 8 * List.length image_positions else 0))%nat.
Proof.
  intros c'.
  destruct (draw_images_ops img scaled_width scaled_height cut_marks imposition_mark_length
              image_positions c) as (Hp & Hi & Hl & _).
  repeat split; assumption.
Qed.

Lemma mm_of_pixels_nonzero (a d : Q) :
  ~ a == 0 -> ~ d == 0 -> ~ a / d * (254 # 10) == 0.
Proof.
  intros Ha Hd H. apply Ha.
  assert (E : a == a / d * (254 # 10) * (d * (10 # 254))) by (field; exact Hd).
  rewrite H in E. rewrite E. ring.
Qed.

Lemma get_image_dimensions_ok (img : Pdf.Picture) :
  (1 <= PIL.width (Pdf.raster img))%Z -> (1 <= PIL.height (Pdf.raster img))%Z ->
  (forall dpi, Pdf.info_dpi img = Some dpi -> ~ fst dpi == 0 /\ ~ snd dpi == 0) ->
  exists w h,
    Pdf._get_image_dimensions img = Ok (w, h) /\ ~ w == 0 /\ ~ h == 0.
Proof.
  intros Hw Hh Hdpi. unfold Pdf._get_image_dimensions.
  set (dpi := match Pdf.info_dpi img with Some dpi => dpi | None => (72, 72) end).
  assert (Hnz : ~ fst dpi == 0 /\ ~ snd dpi == 0).
  { unfold dpi. destruct (Pdf.info_dpi img) as [d|]; [now apply Hdpi|].
    split; intros H; vm_compute in H; discriminate. }
  destruct Hnz as [Hx Hy].
  rewrite (truediv_ok _ _ Hx). cbn [Py.bind]. rewrite (truediv_ok _ _ Hy). cbn [Py.bind].
  do 2 eexists. split; [reflexivity|].
  split; apply mm_of_pixels_nonzero; try assumption; apply inject_Z_nonzero; lia.
Qed.

(** X21: for an image of at least one pixel each way whose resolution,
    if stated, is not zero, a paper size and orientation that resolve to
    a page, at least one copy and enough fuel, [create_imposition_pdf]
    completes: the canvas has the size of the page, carries exactly
    [num_copies] drawings of the image, eight segments for each copy when
    cut marks are requested and none otherwise, and is saved once, at
    the end. *)
Theorem imposition_draws_every_copy
        (fuel : nat) (pagesizes : string -> option (Q * Q)) (input_image : Pdf.Picture)
        (paper_size_name orientation : string) (num_copies : Z) (cut_marks : bool)
        (margin spacing imposition_mark_length page_width page_height : Q) :
  (1 <= PIL.width (Pdf.raster input_image))%Z ->
  (1 <= PIL.height (Pdf.raster input_image))%Z ->
  (forall dpi, Pdf.info_dpi input_image = Some dpi -> ~ fst dpi == 0 /\ ~ snd dpi == 0) ->
  Pdf._set_paper_size_and_orientation pagesizes paper_size_name orientation
  = Pdf.Return (page_width, page_height) ->
  (1 <= num_copies)%Z -> (grid_fuel num_copies <= fuel)%nat ->
  exists c rest,
    Pdf.create_imposition_pdf fuel pagesizes (Some input_image) paper_size_name orientation
                              num_copies cut_marks margin spacing imposition_mark_length
    = Pdf.Return (Ok (Some c)) /\
    Pdf.pagesize c = (page_width, page_height) /\
    Pdf.ops c = rest ++ [Pdf.Save] /\ ~ In Pdf.Save rest /\
    List.length (filter Pdf.is_image (Pdf.ops c)) = Z.to_nat num_copies /\
    (forall op, In op (filter Pdf.is_image (Pdf.ops c)) ->
                exists x y w h, op = Pdf.DrawImage (Pdf.raster input_image) x y w h) /\
    List.length (filter Pdf.is_line (Pdf.ops c))
    = (if cut_marks then 8 * Z.to_nat num_copies else 0)%nat.
Proof.
  intros Hw Hh Hdpi Hpage Hn Hfuel.
  destruct (get_image_dimensions_ok input_image Hw Hh Hdpi) as (iw & ih & Hdims & Hiw & Hih).
  destruct (calculate_layout_ok fuel iw ih page_width page_height num_copies margin spacing
              Hn Hiw Hih Hfuel) as (r & c0 & _ & Hc & _ & Hcover & _ & _ & Hplan).
  unfold Pdf.create_imposition_pdf. rewrite Hdims, Hpage, Hplan. cbn [Py.bind].
  cbn [image_positions scaled_width scaled_height].
  set (sw := (iw * _)%Q). set (sh := (ih * _)%Q).
  set (positions := positions_loop page_height margin spacing sw sh num_copies r c0).
  assert (Hlen : List.length positions = Z.to_nat num_copies)
    by (apply positions_loop_length; lia).
  destruct (draw_images_ops (Pdf.raster input_image) sw sh cut_marks imposition_mark_length
              positions (Pdf.mkCanvas (page_width, page_height) []))
    as (Hp & Hi & Hl & Hs).
  cbn zeta in Hp, Hi, Hl, Hs. cbn [Pdf.ops Pdf.pagesize filter List.length app] in Hp, Hi, Hl, Hs.
  eexists. eexists. split; [reflexivity|].
  unfold Pdf.draw. cbn [Pdf.pagesize Pdf.ops].
  split; [exact Hp|]. split; [reflexivity|]. split.
  { intros Hin. exact (Hs _ Hin eq_refl). }
  rewrite !filter_app. cbn [filter Pdf.is_image Pdf.is_line]. rewrite !app_nil_r.
  rewrite Hi, Hl, length_map, Hlen. repeat split.
  intros op Hop. apply in_map_iff in Hop. destruct Hop as (p & <- & _).
  now do 4 eexists.
Qed.

Lemma imposition_draws_every_copy_witness :
  exists c rest,
    Pdf.create_imposition_pdf 2 (fun name => if String.eqb name "A6" then Some (298, 420)
                                             else None)
      (Some (Pdf.mkPicture (white_image 72 72) None)) "a6" "Portrait" 4 true 1 0 5
    = Pdf.Return (Ok (Some c)) /\
    Pdf.pagesize c = (298, 420) /\
    Pdf.ops c = rest ++ [Pdf.Save] /\ ~ In Pdf.Save rest /\
    List.length (filter Pdf.is_image (Pdf.ops c)) = Z.to_nat 4 /\
    (forall op, In op (filter Pdf.is_image (Pdf.ops c)) ->
                exists x y w h, op = Pdf.DrawImage (white_image 72 72) x y w h) /\
    List.length (filter Pdf.is_line (Pdf.ops c)) = (if true then 8 * Z.to_nat 4 else 0)%nat.
Proof.
  apply (imposition_draws_every_copy 2
           (fun name => if String.eqb name "A6" then Some (298, 420) else None)
           (Pdf.mkPicture (white_image 72 72) None) "a6" "Portrait" 4 true 1 0 5 298 420).
  - cbn. lia.
  - cbn. lia.
  - intros dpi H. discriminate H.
  - reflexivity.
  - lia.
  - vm_compute. lia.
Defined.

(** X22: the order in which [create_imposition_pdf] fails.  Without an
    image it returns at once and draws nothing.  With an image whose
    stated resolution is zero along an axis it raises
    [ZeroDivisionError], whatever the paper.  With an image whose
    resolution, if stated, is not zero, an unknown paper size, or an
    orientation that is neither ['portrait'] nor ['landscape'] in any
    mix of cases, ends the run with exit status 1 before the layout is
    computed, hence also for a copy count the planner would reject. *)
Theorem imposition_exits_on_unknown_page
        (fuel : nat) (pagesizes : string -> option (Q * Q)) (input_image : Pdf.Picture)
        (paper_size_name orientation : string) (num_copies : Z) (cut_marks : bool)
        (margin spacing imposition_mark_length : Q) :
  Pdf.create_imposition_pdf fuel pagesizes None paper_size_name orientation
                            num_copies cut_marks margin spacing imposition_mark_length
  = Pdf.Return (Ok None) /\
  (forall dpi,
      Pdf.info_dpi input_image = Some dpi -> fst dpi == 0 \/ snd dpi == 0 ->
      Pdf.create_imposition_pdf fuel pagesizes (Some input_image) paper_size_name
                                orientation num_copies cut_marks margin spacing
                                imposition_mark_length
      = Pdf.Return (Raise ZeroDivisionError)) /\
  ((forall dpi, Pdf.info_dpi input_image = Some dpi -> ~ fst dpi == 0 /\ ~ snd dpi == 0) ->
   pagesizes (Pdf.upper paper_size_name) = None \/
   (Pdf.lower orientation <> "landscape"%string /\
    Pdf.lower orientation <> "portrait"%string) ->
   Pdf.create_imposition_pdf fuel pagesizes (Some input_image) paper_size_name orientation
                             num_copies cut_marks margin spacing imposition_mark_length
   = Pdf.Exit 1).
Proof.
  split; [reflexivity|]. split.
  - intros dpi Hdpi Hzero.
    unfold Pdf.create_imposition_pdf, Pdf._get_image_dimensions. rewrite Hdpi.
    unfold truediv at 1. destruct (Qeq_bool (fst dpi) 0) eqn:Ex; [reflexivity|].
    cbn [Py.bind]. unfold truediv.
    destruct (Qeq_bool (snd dpi) 0) eqn:Ey; [reflexivity|].
    destruct Hzero as [Hz | Hz]; apply Qeq_bool_iff in Hz; congruence.
  - intros Hdpi Hbad. unfold Pdf.create_imposition_pdf, Pdf._get_image_dimensions.
    set (dpi := match Pdf.info_dpi input_image with Some dpi => dpi | None => (72, 72) end).
    assert (Hnz : ~ fst dpi == 0 /\ ~ snd dpi == 0).
    { unfold dpi. destruct (Pdf.info_dpi input_image) as [d|]; [now apply Hdpi|].
      split; intros H; vm_compute in H; discriminate. }
    destruct Hnz as [Hx Hy].
    rewrite (truediv_ok _ _ Hx). cbn [Py.bind]. rewrite (truediv_ok _ _ Hy). cbn [Py.bind].
    unfold Pdf._set_paper_size_and_orientation.
    destruct Hbad as [-> | [Hl Hp]]; [reflexivity|].
    destruct (pagesizes (Pdf.upper paper_size_name)); [|reflexivity].
    apply String.eqb_neq in Hl, Hp. now rewrite Hl, Hp.
Qed.

Lemma imposition_exits_on_unknown_page_witness :
  Pdf.create_imposition_pdf 2 (fun name => if String.eqb name "A6" then Some (298, 420)
                                           else None)
    (Some (Pdf.mkPicture (white_image 72 72) None)) "banana" "portrait" 0 true 1 0 5
  = Pdf.Exit 1 /\
  Pdf.create_imposition_pdf 2 (fun name => if String.eqb name "A6" then Some (298, 420)
                                           else None)
    (Some (Pdf.mkPicture (white_image 72 72) (Some (0, 0)))) "banana" "portrait" 0 true 1 0 5
  = Pdf.Return (Raise ZeroDivisionError).
Proof.
  split.
  - apply (proj2 (proj2 (imposition_exits_on_unknown_page 2
                    (fun name => if String.eqb name "A6" then Some (298, 420) else None)
                    (Pdf.mkPicture (white_image 72 72) None) "banana" "portrait" 0 true
                    1 0 5))).
    + intros dpi H. discriminate H.
    + left. reflexivity.
  - apply (proj1 (proj2 (imposition_exits_on_unknown_page 2
                    (fun name => if String.eqb name "A6" then Some (298, 420) else None)
                    (Pdf.mkPicture (white_image 72 72) (Some (0, 0))) "banana" "portrait"
                    0 true 1 0 5)) (0, 0)).
    + reflexivity.
    + left. reflexivity.
Defined.
